(** * BackendIAeducativa: ingestion, chunking and result cache

    A shallow embedding of the core of the backend
    ([app/core/utils.py], [app/core/security.py], [app/core/cache.py],
    [app/services/document_processor.py], [app/services/nlp_service.py],
    [app/api/endpoints/summary.py]) together with the properties its
    specification states about it.

    Python [str] values are sequences of Unicode code points, [bytes]
    values are sequences of octets, and Python integers are unbounded:
    code points are [N], octets are [byte], indices are [Z]. *)

From Stdlib Require Import ZArith NArith Lia List Ascii String.
From Stdlib Require Import Strings.Byte.
From stdpp Require Import base option list sorting gmap.

Local Set Warnings "-register-all".

Local Open Scope Z_scope.

(** ** Python strings *)

Abbreviation str := (list N).
Abbreviation bytes := (list byte).

Definition len {A} (s : list A) : Z := Z.of_nat (length s).

(** Index adjustment of [s[start:stop]] for a sequence of length [n]:
    a negative index counts from the end, and the result is clamped to
    [0..n]. *)
Definition clamp_index (n i : Z) : Z :=
  if i <? 0 then Z.max 0 (i + n) else Z.min i n.

(** [s[start:stop]] *)
Definition slice {A} (s : list A) (start stop : Z) : list A :=
  let a := clamp_index (len s) start in
  let b := clamp_index (len s) stop in
  take (Z.to_nat (b - a)) (drop (Z.to_nat a) s).

Fixpoint text_eqb (s t : str) : bool :=
  match s, t with
  | [], [] => true
  | c :: s', d :: t' => (c =? d)%N && text_eqb s' t'
  | _, _ => false
  end.

(** [s] has [sub] at offset [i] (for [0 <= i]). *)
Definition occurs_at (s sub : str) (i : Z) : bool :=
  text_eqb (take (length sub) (drop (Z.to_nat i) s)) sub.

(** Candidates [start, start + k): the highest offset at which [sub]
    occurs, or [-1]. *)
Fixpoint rfind_from (s sub : str) (start : Z) (k : nat) : Z :=
  match k with
  | O => -1
  | S k' =>
      if occurs_at s sub (start + Z.of_nat k') then start + Z.of_nat k'
      else rfind_from s sub start k'
  end.

(** [s.rfind(sub, start, stop)]: the highest index [i] with
    [start <= i], [i + len(sub) <= stop] and [s[i:i+len(sub)] == sub],
    after the indices are adjusted as CPython does, or [-1]. *)
Definition rfind (s sub : str) (start stop : Z) : Z :=
  let n := len s in
  let stop' := if stop >? n then n
               else if stop <? 0 then Z.max 0 (stop + n) else stop in
  let start' := if start <? 0 then Z.max 0 (start + n) else start in
  rfind_from s sub start' (Z.to_nat (stop' - len sub - start' + 1)).

(** [sub in s] *)
Definition contains (sub s : str) : bool :=
  negb (rfind s sub 0 (len s) =? -1).

Fixpoint decimal (fuel : nat) (n : N) (acc : str) : str :=
  match fuel with
  | O => acc
  | S fuel' =>
      let acc := (48 + n mod 10)%N :: acc in
      if (n <? 10)%N then acc else decimal fuel' (n / 10)%N acc
  end.

(** [str(n)] for an integer [n >= 0]; the number of bits bounds the
    number of digits. *)
Definition str_N (n : N) : str := decimal (S (N.to_nat (N.size n))) n [].

Definition str_Z (z : Z) : str :=
  if z <? 0 then 45%N :: str_N (Z.to_N (- z)) else str_N (Z.to_N z).

(** [sep.join(parts)] *)
Fixpoint join (sep : str) (parts : list str) : str :=
  match parts with
  | [] => []
  | [p] => p
  | p :: rest => p ++ sep ++ join sep rest
  end.

(** *** [bytes.decode('utf-8')] and [str.encode()]

    The strict UTF-8 codec: shortest forms only, no surrogates, nothing
    above U+10FFFF. [None] stands for [UnicodeDecodeError]
    (resp. [UnicodeEncodeError]). *)

Definition between (lo hi n : N) : bool := ((lo <=? n) && (n <=? hi))%N.
Definition continuation (n : N) : bool := between 0x80 0xBF n.
Definition low6 (n : N) : N := N.land n 0x3F.

Fixpoint utf8_decode (bs : bytes) : option str :=
  match bs with
  | [] => Some []
  | b0 :: r0 =>
      let n0 := Byte.to_N b0 in
      if (n0 <? 0x80)%N then cons n0 <$> utf8_decode r0
      else if between 0xC2 0xDF n0 then
        match r0 with
        | b1 :: r1 =>
            let n1 := Byte.to_N b1 in
            if continuation n1
            then cons (N.lor (N.shiftl (N.land n0 0x1F) 6) (low6 n1))
                   <$> utf8_decode r1
            else None
        | _ => None
        end
      else if between 0xE0 0xEF n0 then
        match r0 with
        | b1 :: b2 :: r2 =>
            let n1 := Byte.to_N b1 in
            let n2 := Byte.to_N b2 in
            let lo := if (n0 =? 0xE0)%N then 0xA0%N else 0x80%N in
            let hi := if (n0 =? 0xED)%N then 0x9F%N else 0xBF%N in
            if between lo hi n1 && continuation n2
            then cons (N.lor (N.shiftl (N.land n0 0x0F) 12)
                         (N.lor (N.shiftl (low6 n1) 6) (low6 n2)))
                   <$> utf8_decode r2
            else None
        | _ => None
        end
      else if between 0xF0 0xF4 n0 then
        match r0 with
        | b1 :: b2 :: b3 :: r3 =>
            let n1 := Byte.to_N b1 in
            let n2 := Byte.to_N b2 in
            let n3 := Byte.to_N b3 in
            let lo := if (n0 =? 0xF0)%N then 0x90%N else 0x80%N in
            let hi := if (n0 =? 0xF4)%N then 0x8F%N else 0xBF%N in
            if between lo hi n1 && continuation n2 && continuation n3
            then cons (N.lor (N.shiftl (N.land n0 0x07) 18)
                         (N.lor (N.shiftl (low6 n1) 12)
                            (N.lor (N.shiftl (low6 n2) 6) (low6 n3))))
                   <$> utf8_decode r3
            else None
        | _ => None
        end
      else None
  end.

Definition octet (n : N) : byte := default x00 (Byte.of_N n).

Definition utf8_encode_char (c : N) : option bytes :=
  if (c <? 0x80)%N then Some [octet c]
  else if (c <? 0x800)%N then
    Some [octet (N.lor 0xC0 (N.shiftr c 6)); octet (N.lor 0x80 (low6 c))]
  else if between 0xD800 0xDFFF c then None
  else if (c <? 0x10000)%N then
    Some [octet (N.lor 0xE0 (N.shiftr c 12));
          octet (N.lor 0x80 (low6 (N.shiftr c 6)));
          octet (N.lor 0x80 (low6 c))]
  else if (c <? 0x110000)%N then
    Some [octet (N.lor 0xF0 (N.shiftr c 18));
          octet (N.lor 0x80 (low6 (N.shiftr c 12)));
          octet (N.lor 0x80 (low6 (N.shiftr c 6)));
          octet (N.lor 0x80 (low6 c))]
  else None.

Fixpoint utf8_encode (s : str) : option bytes :=
  match s with
  | [] => Some []
  | c :: s' =>
      match utf8_encode_char c, utf8_encode s' with
      | Some b, Some bs => Some (b ++ bs)
      | _, _ => None
      end
  end.

(** A code point that, when it can be encoded, is read back from its
    encoding; and a test of all the numbers below a bound. *)
Definition reads_back (c : N) : bool :=
  match utf8_encode_char c with
  | None => true
  | Some encoded =>
      match utf8_decode encoded with
      | Some [c'] => (c' =? c)%N
      | _ => false
      end
  end.

Definition all_below (n : N) (P : N -> bool) : bool :=
  snd (N.iter n (fun '(i, ok) => ((i + 1)%N, ok && P i)) (0%N, true)).

(** A lead byte of a sequence of four, and a continuation byte, read
    back: the byte is the marker plus the bits, and the decoder's mask
    gives the bits. *)
Definition lead4_back (a : N) : bool :=
  let n := Byte.to_N (octet (N.lor 0xF0 a)) in
  ((n =? 0xF0 + a) && (N.land n 0x07 =? a))%N.
Definition continuation_back (y : N) : bool :=
  let n := Byte.to_N (octet (N.lor 0x80 y)) in
  ((n =? 0x80 + y) && (low6 n =? y))%N.

(** A string literal of the source: the code points of its UTF-8
    spelling. *)
Definition lit (s : string) : str :=
  default [] (utf8_decode (list_byte_of_string s)).

(** [str.lower()] on Basic Latin and Latin-1 Supplement; a code point
    above U+00FF is left as it is. *)
Definition lower_char (c : N) : N :=
  if between 65 90 c then (c + 32)%N
  else if between 0xC0 0xDE c && negb (c =? 0xD7)%N then (c + 32)%N
  else c.

Definition lower_latin1 (s : str) : str := map lower_char s.

(** ** Outcomes of a call: a value, a raised exception, or a loop that
    does not end. *)

Inductive exn : Type :=
  | HTTPException (status_code : Z) (detail : str)
  | UnicodeDecodeError
  | UnicodeEncodeError
  | JSONDecodeError
  | TypeError
  | ConnectionError
  | ResponseError
  | RuntimeError (message : str)
  | AttributeError (message : str)
  | ValidationError (message : str).

Inductive outcome (A : Type) : Type :=
  | Return (a : A)
  | Raise (e : exn)
  | Diverge.
Arguments Return {A} a.
Arguments Raise {A} e.
Arguments Diverge {A}.

Global Instance outcome_ret : MRet outcome := @Return.
Global Instance outcome_bind : MBind outcome := fun A B f m =>
  match m with
  | Return a => f a
  | Raise e => Raise e
  | Diverge => Diverge
  end.

(** [str(e)] for the exceptions that are formatted into a message. *)
Definition str_exn (e : exn) : str :=
  match e with
  | HTTPException _ detail => detail
  | UnicodeDecodeError => lit "invalid start byte"
  | UnicodeEncodeError => lit "surrogates not allowed"
  | JSONDecodeError => lit "Expecting value"
  | TypeError => lit "Object is not JSON serializable"
  | ConnectionError => lit "Error connecting to Redis"
  | ResponseError => lit "Redis response error"
  | RuntimeError message => message
  | AttributeError message => message
  | ValidationError message => message
  end.

(** Truthiness of a value that is [None] or a string: [None] and the
    empty string are falsy. *)
Definition truthy_str (o : option str) : bool :=
  match o with
  | Some (_ :: _) => true
  | _ => false
  end.

(** ** Python dictionaries

    A [dict] keeps its keys in the order in which they were inserted:
    a list of items without repeated keys. Assigning to a key that is
    present replaces its value in place; assigning to a new key adds
    the item at the end. *)

Section Dict.
Context {V : Type}.

Fixpoint dict_get (key : str) (d : list (str * V)) : option V :=
  match d with
  | [] => None
  | (k, v) :: rest => if decide (k = key) then Some v else dict_get key rest
  end.

Fixpoint dict_set (key : str) (value : V) (d : list (str * V))
    : list (str * V) :=
  match d with
  | [] => [(key, value)]
  | (k, v) :: rest =>
      if decide (k = key) then (k, value) :: rest
      else (k, v) :: dict_set key value rest
  end.
End Dict.

(** ** [app/core/utils.py]: [chunk_text] *)

Module Utils.

Definition NEWLINE : N := 10%N.
Definition SPACE : N := 32%N.
Definition PERIOD : N := 46%N.

(** One pass of the body of the [while] loop: the value of [end_pos]
    when the chunk is appended. *)
Definition split_point (text : str) (chunk_size current_pos : Z) : Z :=
  let end_pos := Z.min (current_pos + chunk_size) (len text) in
  if end_pos <? len text then
    let paragraph_end := rfind text [NEWLINE; NEWLINE] current_pos end_pos in
    if paragraph_end >? current_pos then paragraph_end + 2
    else
      let sentence_end := rfind text [PERIOD; SPACE] current_pos end_pos in
      if sentence_end >? current_pos then sentence_end + 2
      else
        let space_end := rfind text [SPACE] current_pos end_pos in
        if space_end >? current_pos then space_end + 1
        else end_pos
  else end_pos.

(** The [while current_pos < len(text)] loop. The state is
    [(chunks, current_pos)]; [fuel] bounds the number of iterations and
    [None] stands for a loop that is still running when it is used up.
    The final position is returned along with the chunks. *)
Fixpoint chunk_loop (fuel : nat) (text : str) (chunk_size : Z)
    (chunks : list str) (current_pos : Z) : option (list str * Z) :=
  if current_pos <? len text then
    match fuel with
    | O => None
    | S fuel' =>
        let end_pos := split_point text chunk_size current_pos in
        chunk_loop fuel' text chunk_size
          (chunks ++ [slice text current_pos end_pos]) end_pos
    end
  else Some (chunks, current_pos).

Definition chunk_text_fuel (fuel : nat) (text : str) (chunk_size : Z)
    : option (list str) :=
  if len text <=? chunk_size then Some [text]
  else fst <$> chunk_loop fuel text chunk_size [] 0.

(** [chunk_text(text, chunk_size)]: one unit of fuel per character is
    enough whenever the loop advances (see [chunk_loop_fuel_enough]). *)
Definition chunk_text (text : str) (chunk_size : Z) : option (list str) :=
  chunk_text_fuel (length text) text chunk_size.

(** A chunk that is not empty and within the budget. *)
Definition bounded (chunk_size : Z) (chunk : str) : Prop :=
  0 < len chunk <= chunk_size.

(** A chunk that fills the budget or ends at a break: after a space
    (which is also how a sentence end is cut) or after a blank line. *)
Definition natural_cut (chunk_size : Z) (chunk : str) : Prop :=
  len chunk = chunk_size
  \/ [SPACE] `suffix_of` chunk
  \/ [NEWLINE; NEWLINE] `suffix_of` chunk.

(** All the elements of a list but the last. *)
Definition all_but_last {A} (P : A -> Prop) (l : list A) : Prop :=
  forall init last, l = init ++ [last] -> Forall P init.

(** *** [merge_chunks] *)

(** [str.isspace] on one character, and [str.strip()]. *)
Definition is_space (c : N) : bool :=
  between 0x09 0x0D c || between 0x1C 0x1F c || (c =? 0x20)%N
  || (c =? 0x85)%N || (c =? 0xA0)%N || (c =? 0x1680)%N
  || between 0x2000 0x200A c || (c =? 0x2028)%N || (c =? 0x2029)%N
  || (c =? 0x202F)%N || (c =? 0x205F)%N || (c =? 0x3000)%N.

Fixpoint lstrip (s : str) : str :=
  match s with
  | c :: s' => if is_space c then lstrip s' else s
  | [] => []
  end.

Definition strip (s : str) : str := reverse (lstrip (reverse (lstrip s))).

(** The value of a result under a key: a list, a string, or anything
    else. *)
Inductive cell (elem other : Type) : Type :=
  | CList (items : list elem)
  | CStr (s : str)
  | COther (o : other).
Arguments CList {elem other} items.
Arguments CStr {elem other} s.
Arguments COther {elem other} o.

Inductive merge_error : Type :=
  | KeyError (key : str)
  | AttributeError.

Section Merge.
(** The elements of the lists, the values that are neither lists nor
    strings, and a string of one character taken as an element (what
    [list += str] appends). *)
Variable elem : Type.
Variable other : Type.
Variable char_elem : N -> elem.

(** [[] if isinstance(value, list) else ""] *)
Definition blank (value : cell elem other) : cell elem other :=
  match value with
  | CList _ => CList []
  | _ => CStr []
  end.

(** The body of the inner loop. [merged] holds lists and strings
    only. *)
Definition merge_item (merged : list (str * cell elem other))
    (item : str * cell elem other)
    : merge_error + list (str * cell elem other) :=
  let '(key, value) := item in
  match value with
  | CList items =>
      match dict_get key merged with
      | None => inl (KeyError key)
      | Some (CList m) => inr (dict_set key (CList (m ++ items)) merged)
      | Some _ => inl AttributeError
      end
  | CStr s =>
      match dict_get key merged with
      | None => inl (KeyError key)
      | Some (CStr m) => inr (dict_set key (CStr (m ++ s ++ [SPACE])) merged)
      | Some (CList m) =>
          inr (dict_set key (CList (m ++ map char_elem (s ++ [SPACE])))
                 merged)
      | Some (COther _) => inl AttributeError
      end
  | COther _ => inr merged
  end.

Fixpoint merge_items (merged : list (str * cell elem other))
    (items : list (str * cell elem other))
    : merge_error + list (str * cell elem other) :=
  match items with
  | [] => inr merged
  | item :: rest =>
      match merge_item merged item with
      | inl e => inl e
      | inr merged => merge_items merged rest
      end
  end.

Fixpoint merge_results (merged : list (str * cell elem other))
    (chunk_results : list (list (str * cell elem other)))
    : merge_error + list (str * cell elem other) :=
  match chunk_results with
  | [] => inr merged
  | result :: rest =>
      match merge_items merged result with
      | inl e => inl e
      | inr merged => merge_results merged rest
      end
  end.

Definition strip_cell (value : cell elem other) : cell elem other :=
  match value with
  | CStr s => CStr (strip s)
  | _ => value
  end.

Definition merge_chunks
    (chunk_results : list (list (str * cell elem other)))
    : merge_error + list (str * cell elem other) :=
  match chunk_results with
  | [] => inr []
  | first :: _ =>
      match merge_results (prod_map id blank <$> first) chunk_results with
      | inl e => inl e
      | inr merged => inr (prod_map id strip_cell <$> merged)
      end
  end.

(** What a result contributes under a key to a list, and to a
    string. *)
Definition list_part (key : str) (result : list (str * cell elem other))
    : list elem :=
  match dict_get key result with
  | Some (CList items) => items
  | _ => []
  end.

Definition str_part (key : str) (result : list (str * cell elem other))
    : str :=
  match dict_get key result with
  | Some (CStr s) => s ++ [SPACE]
  | _ => []
  end.

(** A result whose lists go where the first result has a list, and
    whose strings go where it has something else. *)
Definition fits (first result : list (str * cell elem other)) : Prop :=
  NoDup result.*1
  /\ forall key value,
       (key, value) ∈ result ->
       match value with
       | CList _ => exists items, dict_get key first = Some (CList items)
       | CStr _ =>
           exists v, dict_get key first = Some v
                     /\ forall items, v <> CList items
       | COther _ => True
       end.
(** A value that the loop does not skip: a list or a string. *)
Definition counted (value : cell elem other) : Prop :=
  match value with COther _ => False | _ => True end.

(** An accumulator after more has been appended to it. *)
Definition grown (value : option (cell elem other)) (items : list elem)
    (s : str) : option (cell elem other) :=
  match value with
  | Some (CList m) => Some (CList (m ++ items))
  | Some (CStr m) => Some (CStr (m ++ s))
  | other => other
  end.

(** An item whose accumulator is there and of its kind. *)
Definition accepts (merged : list (str * cell elem other))
    (item : str * cell elem other) : Prop :=
  match item.2 with
  | CList _ => exists m, dict_get item.1 merged = Some (CList m)
  | CStr _ => exists m, dict_get item.1 merged = Some (CStr m)
  | COther _ => True
  end.

(** The accumulators have the kinds that the first result gives
    them. *)
Definition kinds (first merged : list (str * cell elem other)) : Prop :=
  forall key,
    match dict_get key first with
    | None => dict_get key merged = None
    | Some (CList _) => exists m, dict_get key merged = Some (CList m)
    | Some _ => exists m, dict_get key merged = Some (CStr m)
    end.
End Merge.

End Utils.


(** ** [app/core/security.py]: [content_security_check] *)

Module Security.

(** The literal of the set [PROHIBITED_CONTENT]. *)
Definition PROHIBITED_CONTENT : list str :=
  map lit ["violencia"; "discriminación"; "odio"; "obscenidad"; "drogas";
           "suicidio"; "abuso"; "sexual"; "terrorismo"; "extremismo";
           "pornografía"; "blasfemia"]%string.

Definition MSG_PROHIBITED : str :=
  lit "El contenido contiene términos inapropiados: ".
Definition MSG_TOO_SHORT : str := lit "El contenido es demasiado corto".
Definition MSG_TOO_LONG : str :=
  lit "El contenido es demasiado largo para procesar".

(** [for word in PROHIBITED_CONTENT: if word in text_lower: return ...]:
    the first word, in iteration order, that occurs in the text. *)
Fixpoint first_prohibited (order : list str) (text_lower : str)
    : option str :=
  match order with
  | [] => None
  | word :: rest =>
      if contains word text_lower then Some word
      else first_prohibited rest text_lower
  end.

Section Check.
(** [str.lower], and the order in which the set is iterated (a
    Python set of strings has no fixed iteration order). *)
Variable lower : str -> str.
Variable order : list str.

Definition content_security_check (text : str) : bool * str :=
  let text_lower := lower text in
  match first_prohibited order text_lower with
  | Some word => (false, MSG_PROHIBITED ++ word)
  | None =>
      if len text <? 10 then (false, MSG_TOO_SHORT)
      else if len text >? 100000 then (false, MSG_TOO_LONG)
      else (true, [])
  end.
End Check.

(** *** [validate_file_type], [sanitize_filename] *)

Definition DOT : N := 46%N.
Definition SLASH : N := 47%N.
Definition HYPHEN : N := 45%N.
Definition UNDERSCORE : N := 95%N.

(** [filename.split('.')[-1]]: what follows the last dot, or the whole
    name when it has no dot. *)
Definition last_field (filename : str) : str :=
  let i := rfind filename [DOT] 0 (len filename) in
  if i =? -1 then filename else slice filename (i + 1) (len filename).

Definition ALLOWED_EXTENSIONS : list str :=
  map lit [".pdf"; ".txt"; ".docx"; ".md"]%string.

(** [s.split(sep)] for a separator of one character. *)
Fixpoint split_on (sep : N) (s : str) : list str :=
  match s with
  | [] => [[]]
  | c :: s' =>
      if (c =? sep)%N then [] :: split_on sep s'
      else
        match split_on sep s' with
        | field :: fields => (c :: field) :: fields
        | [] => [[c]]
        end
  end.

(** [Path(s).name] (POSIX): the last component of the path that is
    neither empty nor a single dot, or the empty string when there is
    none. *)
Definition path_name (s : str) : str :=
  default []
    (last (filter (fun part => part <> [] /\ part <> [DOT])
             (split_on SLASH s))).

Section Files.
(** [str.lower], and the class [\w] of the regular expressions (the
    alphanumeric characters of Unicode and the underscore). *)
Variable lower : str -> str.
Variable is_word : N -> bool.

Definition validate_file_type (filename : str) : bool :=
  let file_extension :=
    if contains [DOT] filename then DOT :: lower (last_field filename)
    else [] in
  existsb (text_eqb file_extension) ALLOWED_EXTENSIONS.

(** [re.sub(r'[^\w\-\.]', '_', filename)] *)
Definition substitute (filename : str) : str :=
  map (fun c =>
         if is_word c || (c =? HYPHEN)%N || (c =? DOT)%N then c
         else UNDERSCORE)
    filename.

Definition sanitize_filename (filename : str) : str :=
  let sanitized := substitute filename in
  path_name sanitized.
End Files.

End Security.

(** ** [app/services/nlp_service.py]: [NLPService.process_text] *)

Module NLPService.

Section Service.
(** The spaCy pipeline [self.nlp], the documents it returns and
    [len(doc)], the number of tokens of a document (a document with no
    token is falsy). *)
Variable Doc : Type.
Variable nlp : str -> Doc.
Variable doc_len : Doc -> Z.

(** The [for i, chunk in enumerate(chunks)] loop. The state is
    [combined_doc] and the list of the texts handed to [self.nlp] so
    far. *)
Fixpoint process_chunks (i : nat) (chunks : list str)
    (combined_doc : option Doc) (calls : list str)
    : option Doc * list str :=
  match chunks with
  | [] => (combined_doc, calls)
  | chunk :: rest =>
      let doc := nlp chunk in
      let combined_doc :=
        if Nat.eqb i 0 then Some doc else combined_doc in
      process_chunks (S i) rest combined_doc (calls ++ [chunk])
  end.

(** [combined_doc or self.nlp("")] *)
Definition or_empty (combined_doc : option Doc) (calls : list str)
    : Doc * list str :=
  match combined_doc with
  | Some doc =>
      if doc_len doc >? 0 then (doc, calls) else (nlp [], calls ++ [[]])
  | None => (nlp [], calls ++ [[]])
  end.

(** [process_text(text)]: the document returned and the texts the
    pipeline was run on, in order. *)
Definition process_text (text : str) : outcome (Doc * list str) :=
  if len text >? 100000 then
    match Utils.chunk_text text 100000 with
    | Some chunks =>
        let '(combined_doc, calls) := process_chunks 0 chunks None [] in
        Return (or_empty combined_doc calls)
    | None => Diverge
    end
  else Return (nlp text, [text]).
End Service.

(** *** [extract_entities_and_keywords], [_extract_keywords],
    [detect_language] *)

(** What the service reads of a token. *)
Record Token : Type := {
  token_text : str;
  pos_ : str;
  lemma_ : str;
  is_punct : bool;
  is_space : bool;
  is_digit : bool
}.

(** [Counter(candidates)]: each element is counted with
    [counter[x] = counter.get(x, 0) + 1], so the distinct candidates
    come in the order of their first occurrence. *)
Definition count_one (counter : list (str * nat)) (x : str)
    : list (str * nat) :=
  dict_set x (S (default 0%nat (dict_get x counter))) counter.

Definition Counter (candidates : list str) : list (str * nat) :=
  foldl count_one [] candidates.

(** The number of occurrences of [x] in [l]. *)
Definition occurrences (x : str) (l : list str) : nat :=
  length (filter (fun y => y = x) l).

(** [sorted(items, key=count, reverse=True)]: by decreasing count, the
    items of equal count in the order they had. *)
Fixpoint insert_by_count (item : str * nat) (sorted : list (str * nat))
    : list (str * nat) :=
  match sorted with
  | [] => [item]
  | other :: rest =>
      if (other.2 <=? item.2)%nat then item :: sorted
      else other :: insert_by_count item rest
  end.

Definition sort_by_count (items : list (str * nat)) : list (str * nat) :=
  foldr insert_by_count [] items.

(** The order of a list in which no count comes before a larger one. *)
Definition by_count (a b : str * nat) : Prop := (b.2 <= a.2)%nat.

(** [counter.most_common(n)] *)
Definition most_common (n : Z) (counter : list (str * nat))
    : list (str * nat) :=
  take (Z.to_nat n) (sort_by_count counter).

Definition POS_FILTER : list str := map lit ["NOUN"; "PROPN"; "ADJ"; "VERB"]%string.

Definition supported_languages : list (str * str) :=
  [(lit "es", lit "español"); (lit "en", lit "inglés");
   (lit "fr", lit "francés"); (lit "pt", lit "portugués");
   (lit "it", lit "italiano"); (lit "ca", lit "catalán");
   (lit "de", lit "alemán")].

Definition spanish_markers : list str :=
  map lit ["de"; "la"; "el"; "en"; "que"; "con"; "para"; "por"; "los";
           "las"]%string.
Definition english_markers : list str :=
  map lit ["the"; "of"; "and"; "to"; "in"; "is"; "that"; "for"; "with";
           "as"]%string.

(** [re.findall(r'\b\w+\b', s)]: the maximal runs of word characters.
    [run] holds the run being read, in reverse. *)
Fixpoint word_runs (is_word : N -> bool) (s : str) (run : str) : list str :=
  match s with
  | [] => if decide (run = []) then [] else [reverse run]
  | c :: s' =>
      if is_word c then word_runs is_word s' (c :: run)
      else if decide (run = []) then word_runs is_word s' []
      else reverse run :: word_runs is_word s' []
  end.

Section Annotation.
(** The pipeline and what is read of its documents: the entities
    ([label_], [text]) in document order, the tokens, and [lang_] (absent
    when the document has no such attribute); the stop words of the
    pipeline; [str.lower]; and the class [\w]. *)
Variable Doc : Type.
Variable nlp : str -> Doc.
Variable doc_len : Doc -> Z.
Variable ents : Doc -> list (str * str).
Variable tokens : Doc -> list Token.
Variable lang_ : Doc -> option str.
Variable stop_words : str -> bool.
Variable lower : str -> str.
Variable is_word : N -> bool.

(** One pass of [for ent in doc.ents]. *)
Definition add_entity (entities : list (str * list str)) (ent : str * str)
    : list (str * list str) :=
  let '(label_, text) := ent in
  let entities :=
    match dict_get label_ entities with
    | None => dict_set label_ [] entities
    | Some _ => entities
    end in
  let texts := default [] (dict_get label_ entities) in
  if decide (text ∈ texts) then entities
  else dict_set label_ (texts ++ [text]) entities.

Definition extract_entities (doc : Doc) : list (str * list str) :=
  foldl add_entity [] (ents doc).

(** The condition under which a token gives a candidate. *)
Definition relevant (token : Token) : bool :=
  bool_decide (pos_ token ∈ POS_FILTER)
  && negb (stop_words (lower (lemma_ token)))
  && (3 <=? len (lemma_ token))
  && negb (is_punct token) && negb (is_space token)
  && negb (is_digit token).

Definition candidates (doc : Doc) : list str :=
  (fun token => lower (lemma_ token)) <$> filter relevant (tokens doc).

Definition _extract_keywords (doc : Doc) (top_n : Z) : list str :=
  let counter := Counter (candidates doc) in
  (most_common top_n counter).*1.

(** The entities and keywords of a text, with the texts the pipeline
    was run on. *)
Definition extract_entities_and_keywords (text : str)
    : outcome ((list (str * list str) * list str) * list str) :=
  '(doc, calls) ← process_text Doc nlp doc_len text;
  Return ((extract_entities doc, _extract_keywords doc 20), calls).

(** [detect_language(text)]: the answer and the text the pipeline was
    run on. *)
Definition detect_language (text : str) : option str * str :=
  let sample := if len text >? 1000 then slice text 0 1000 else text in
  let doc := nlp sample in
  match lang_ doc with
  | Some lang_code =>
      (Some (default lang_code (dict_get lang_code supported_languages)),
       sample)
  | None =>
      let words := word_runs is_word (lower text) [] in
      let sp_count :=
        length (filter (fun word => word ∈ spanish_markers) words) in
      let en_count :=
        length (filter (fun word => word ∈ english_markers) words) in
      if (en_count <? sp_count)%nat then (Some (lit "español"), sample)
      else if (sp_count <? en_count)%nat then (Some (lit "inglés"), sample)
      else (None, sample)
  end.
End Annotation.

(** *** [extract_main_topics], [extract_educational_concepts] *)

(** What the service reads of a span (an entity, a noun chunk or a
    sentence): its text, the label of an entity, the part of speech of
    the root of a noun chunk, and the indices of its first token and of
    the token after its last. *)
Record Span : Type := {
  span_text : str;
  label_ : str;
  root_pos_ : str;
  span_start : Z;
  span_end : Z
}.

Definition NOUN_POS : list str := map lit ["NOUN"; "PROPN"]%string.
Definition CONCEPT_LABELS : list str :=
  map lit ["ORG"; "PERSON"; "EVENT"; "WORK_OF_ART"; "LAW"; "DATE"]%string.
Definition ENTITY : str := lit "entity".
Definition NOUN_PHRASE : str := lit "noun_phrase".

(** The dictionary [{"term": ..., "type": ..., "context": ...}]. *)
Record Concept : Type := {
  term : str;
  type_ : str;
  context : str
}.

Section Topics.
(** The pipeline, the noun chunks of a document (absent when the
    document has no attribute [noun_chunks]), its tokens, and
    [str.lower]. *)
Variable Doc : Type.
Variable nlp : str -> Doc.
Variable doc_len : Doc -> Z.
Variable noun_chunks : Doc -> option (list Span).
Variable tokens : Doc -> list Token.
Variable lower : str -> str.

(** The first loop: the cleaned noun chunks of more than three
    characters. *)
Definition clean_chunks (doc : Doc) : list str :=
  match noun_chunks doc with
  | Some chunks =>
      filter (fun clean_chunk => 3 < len clean_chunk)
        ((fun chunk => Utils.strip (lower (span_text chunk))) <$> chunks)
  | None => []
  end.

(** The second loop: the lemmas of the nouns whose text has more than
    three characters. *)
Definition noun_lemmas (doc : Doc) : list str :=
  (fun token => lower (lemma_ token))
    <$> filter (fun token => pos_ token ∈ NOUN_POS
                             /\ 3 < len (token_text token))
          (tokens doc).

Definition noun_phrases (doc : Doc) (num_topics : Z) : list str :=
  let noun_phrases := clean_chunks doc in
  if len noun_phrases <? num_topics
  then noun_phrases ++ noun_lemmas doc
  else noun_phrases.

Definition main_topics (doc : Doc) (num_topics : Z) : list str :=
  let counter := Counter (noun_phrases doc num_topics) in
  (most_common num_topics counter).*1.

(** The topics of a text, with the texts the pipeline was run on. *)
Definition extract_main_topics (text : str) (num_topics : Z)
    : outcome (list str * list str) :=
  '(doc, calls) ← process_text Doc nlp doc_len text;
  Return (main_topics doc num_topics, calls).
End Topics.

Section Concepts.
(** The pipeline, and the entities, the noun chunks and the sentences
    of a document, each in document order. *)
Variable Doc : Type.
Variable nlp : str -> Doc.
Variable doc_len : Doc -> Z.
Variable ents : Doc -> list Span.
Variable noun_chunks : Doc -> list Span.
Variable sents : Doc -> list Span.
Variable lower : str -> str.

(** A candidate: the tuple [(text, type, start, end)]. *)
Definition candidate : Type := str * str * Z * Z.

(** The first loop, over [doc.ents]. *)
Definition entity_candidates (doc : Doc) : list candidate :=
  (fun ent => (span_text ent, ENTITY, span_start ent, span_end ent))
    <$> filter (fun ent => label_ ent ∈ CONCEPT_LABELS) (ents doc).

(** [start >= outer.start and end <= outer.end] *)
Definition within (start end_ : Z) (outer_start outer_end : Z) : bool :=
  (outer_start <=? start) && (end_ <=? outer_end).

(** [any(chunk.start >= c[2] and chunk.end <= c[3]
         for c in candidates if c[1] == "entity")] *)
Definition in_entity (candidates : list candidate) (chunk : Span) : bool :=
  existsb (fun c : candidate =>
             within (span_start chunk) (span_end chunk) c.1.2 c.2)
    (filter (fun c : candidate => c.1.1.2 = ENTITY) candidates).

(** One pass of [for chunk in doc.noun_chunks]. *)
Definition add_chunk (candidates : list candidate) (chunk : Span)
    : list candidate :=
  if bool_decide (root_pos_ chunk ∈ NOUN_POS) && (3 <? len (span_text chunk))
  then
    if negb (in_entity candidates chunk)
    then candidates
         ++ [(span_text chunk, NOUN_PHRASE, span_start chunk, span_end chunk)]
    else candidates
  else candidates.

Definition concept_candidates (doc : Doc) : list candidate :=
  foldl add_chunk (entity_candidates doc) (noun_chunks doc).

(** The inner loop over [doc.sents]: the text of the first sentence
    that holds the span, [None] when no sentence does. *)
Definition context_sentence (doc : Doc) (start end_ : Z) : option str :=
  span_text
    <$> find (fun sent => within start end_ (span_start sent) (span_end sent))
          (sents doc).

(** One pass of [for concept, concept_type, start, end in candidates]. *)
Definition add_concept (doc : Doc) (concepts : list Concept) (c : candidate)
    : list Concept :=
  let '(concept, concept_type, start, end_) := c in
  let context_sentence := context_sentence doc start end_ in
  if truthy_str context_sentence
  then concepts ++ [{| term := concept; type_ := concept_type;
                       context := default [] context_sentence |}]
  else concepts.

(** One pass of the last loop; the state is [unique_concepts] and
    [seen_terms]. *)
Definition add_unique (state : list Concept * list str) (concept : Concept)
    : list Concept * list str :=
  let '(unique_concepts, seen_terms) := state in
  let term_norm := lower (term concept) in
  if decide (term_norm ∈ seen_terms) then state
  else (unique_concepts ++ [concept], term_norm :: seen_terms).

Definition educational_concepts (doc : Doc) : list Concept :=
  let candidates := concept_candidates doc in
  let concepts := foldl (add_concept doc) [] candidates in
  (foldl add_unique ([], []) concepts).1.

(** The concepts of a text, with the texts the pipeline was run on. *)
Definition extract_educational_concepts (text : str)
    : outcome (list Concept * list str) :=
  '(doc, calls) ← process_text Doc nlp doc_len text;
  Return (educational_concepts doc, calls).
End Concepts.

End NLPService.

(** ** [app/services/document_processor.py]: [process_upload] *)

Module DocumentProcessor.

Inductive DocumentType : Type := PDF | TEXT | DOCX | MARKDOWN.

Record UploadFile : Type := {
  filename : str;
  content : bytes;
  content_type : str
}.

Record DocumentMetadata : Type := {
  md_filename : str;
  file_size : Z;
  md_content_type : str;
  page_count : option Z;
  has_images : bool;
  language : option str
}.

Record DocumentChunk : Type := {
  chunk_id : str;
  chunk_body : str;
  page_number : option Z;
  position : nat
}.

Record ProcessedDocument (Entities : Type) : Type := {
  document_id : str;
  metadata : DocumentMetadata;
  full_text : str;
  chunks : list DocumentChunk;
  entities : Entities;
  keywords : list str
}.
Arguments document_id {Entities}.
Arguments metadata {Entities}.
Arguments full_text {Entities}.
Arguments chunks {Entities}.
Arguments entities {Entities}.
Arguments keywords {Entities}.

Definition SLASH : N := 47%N.
Definition DOT : N := 46%N.

(** [os.path.splitext(p)[1]] (POSIX): the extension starts at the last
    dot of the last path component, unless that component holds nothing
    but dots before it. *)
Definition splitext_ext (p : str) : str :=
  let sepIndex := rfind p [SLASH] 0 (len p) in
  let dotIndex := rfind p [DOT] 0 (len p) in
  if dotIndex >? sepIndex then
    if existsb (fun c => negb (c =? DOT)%N) (slice p (sepIndex + 1) dotIndex)
    then slice p dotIndex (len p)
    else []
  else [].

(** [extension_map.get(file_extension, DocumentType.TEXT)] *)
Definition _get_document_type (file_extension : str) : DocumentType :=
  if text_eqb file_extension (lit ".pdf") then PDF
  else if text_eqb file_extension (lit ".txt") then TEXT
  else if text_eqb file_extension (lit ".docx") then DOCX
  else if text_eqb file_extension (lit ".md") then MARKDOWN
  else TEXT.

Definition _create_basic_metadata (filename : str) (file_size : Z)
    (content_type : str) : DocumentMetadata :=
  {| md_filename := filename; file_size := file_size;
     md_content_type := content_type; page_count := None;
     has_images := false; language := None |}.

Definition set_language (m : DocumentMetadata) (l : option str)
    : DocumentMetadata :=
  {| md_filename := md_filename m; file_size := file_size m;
     md_content_type := md_content_type m; page_count := page_count m;
     has_images := has_images m; language := l |}.

(** [content.decode('utf-8')] *)
Definition decode (content : bytes) : outcome str :=
  match utf8_decode content with
  | Some s => Return s
  | None => Raise UnicodeDecodeError
  end.

Definition MSG_UNSUPPORTED : str :=
  lit "Formato de archivo no soportado o corrupto".
Definition MSG_INAPPROPRIATE : str := lit "Contenido inapropiado: ".

(** [enumerate(text_chunks)] turned into [DocumentChunk]s. *)
Fixpoint make_chunks (document_id : str) (i : nat) (text_chunks : list str)
    : list DocumentChunk :=
  match text_chunks with
  | [] => []
  | chunk_text :: rest =>
      {| chunk_id := document_id ++ lit "_" ++ str_N (N.of_nat i);
         chunk_body := chunk_text;
         page_number := None;
         position := i |} :: make_chunks document_id (S i) rest
  end.

Section Processor.
(** What [process_upload] reads from its surroundings: Unicode lower
    casing and the iteration order of the prohibited set (see
    [Security]), the configured [CHUNK_SIZE], the PDF branch
    [_process_pdf] (PyPDF2), the two calls into the NLP service, and
    the identifier that [generate_file_id] draws. *)
Variable lower : str -> str.
Variable order : list str.
Variable CHUNK_SIZE : Z.
Variable Entities : Type.
Variable _process_pdf : bytes -> bool -> outcome (str * DocumentMetadata).
Variable extract_entities_and_keywords : str -> outcome (Entities * list str).
Variable detect_language : str -> outcome (option str).
Variable generate_file_id : str.

Definition extract (file : UploadFile) (perform_ocr : bool)
    : outcome (str * DocumentMetadata) :=
  let content := content file in
  let file_ext := lower (splitext_ext (filename file)) in
  let doc_type := _get_document_type file_ext in
  match doc_type with
  | PDF => _process_pdf content perform_ocr
  | TEXT =>
      extracted_text ← decode content;
      Return (extracted_text,
              _create_basic_metadata (filename file) (len content)
                (content_type file))
  | _ =>
      match decode content with
      | Raise UnicodeDecodeError => Raise (HTTPException 415 MSG_UNSUPPORTED)
      | Raise e => Raise e
      | Diverge => Diverge
      | Return extracted_text =>
          Return (extracted_text,
                  _create_basic_metadata (filename file) (len content)
                    (content_type file))
      end
  end.

Definition process_upload (file : UploadFile) (perform_ocr : bool)
    : outcome (ProcessedDocument Entities) :=
  '(extracted_text, metadata) ← extract file perform_ocr;
  let '(is_safe, reason) :=
    Security.content_security_check lower order extracted_text in
  if negb is_safe
  then Raise (HTTPException 400 (MSG_INAPPROPRIATE ++ reason))
  else
    let document_id := generate_file_id in
    match Utils.chunk_text extracted_text CHUNK_SIZE with
    | None => Diverge
    | Some text_chunks =>
        let chunks := make_chunks document_id 0 text_chunks in
        '(entities, keywords) ← extract_entities_and_keywords extracted_text;
        language ← detect_language extracted_text;
        let metadata := set_language metadata language in
        Return {| document_id := document_id; metadata := metadata;
                  full_text := extracted_text; chunks := chunks;
                  entities := entities; keywords := keywords |}
    end.
End Processor.

(** *** The name [chunk_text] in [process_upload] and
    [text_to_document]

    Both bodies call [chunk_text(..., CHUNK_SIZE)] and, two lines below,
    loop with [for i, chunk_text in enumerate(text_chunks)]. A name that
    a function body assigns anywhere, a loop target included, is a local
    of the whole body. The call therefore reads the local [chunk_text],
    which nothing has bound yet when the call is reached, and raises
    [UnboundLocalError]; the function that the module imports from
    [app.core.utils] is not looked at. [process_upload] above reads the
    name as the imported function, which is the body with its loop
    variable renamed; [process_upload_scoped] and [text_to_document]
    below read it as the interpreter does. *)

(** What the name [chunk_text] can stand for: the function imported
    from [app.core.utils], or a chunk, once the loop has bound its
    target. *)
Inductive object : Type :=
  | Function (f : str -> Z -> option (list str))
  | Chunk (s : str).

(** How a body ends: as an [outcome], or with the [UnboundLocalError]
    of a local that is read before anything is bound to it. *)
Inductive ending (A : Type) : Type :=
  | Ends (o : outcome A)
  | UnboundLocalError (name : str).
Arguments Ends {A} o.
Arguments UnboundLocalError {A} name.

(** The locals of [process_upload]: its parameters and the targets of
    its assignments and of its loop, in the order of the body. *)
Definition process_upload_locals : list str :=
  [lit "self"; lit "file"; lit "perform_ocr"; lit "content"; lit "file_ext";
   lit "doc_type"; lit "extracted_text"; lit "metadata"; lit "is_safe";
   lit "reason"; lit "document_id"; lit "text_chunks"; lit "chunks"; lit "i";
   lit "chunk_text"; lit "entities"; lit "keywords"; lit "language";
   lit "processed_doc"].

(** The locals of [text_to_document]. *)
Definition text_to_document_locals : list str :=
  [lit "self"; lit "text"; lit "title"; lit "is_safe"; lit "reason";
   lit "document_id"; lit "filename"; lit "metadata"; lit "text_chunks";
   lit "chunks"; lit "i"; lit "chunk_text"; lit "entities"; lit "keywords";
   lit "language"].

(** Reading the name [chunk_text] in a body with the locals [locals],
    where [bound] is what the loop has bound to its target so far. A
    local is read from the frame alone; any other name is read from the
    module, where the import has bound it to [Utils.chunk_text]. *)
Definition load_chunk_text (locals : list str) (bound : option str)
    : str + object :=
  if existsb (text_eqb (lit "chunk_text")) locals then
    match bound with
    | Some chunk => inr (Chunk chunk)
    | None => inl (lit "chunk_text")
    end
  else inr (Function Utils.chunk_text).

(** Calling what was read with a text and a size; a string is not
    callable. *)
Definition call_object (callee : object) (text : str) (chunk_size : Z)
    : outcome (list str) :=
  match callee with
  | Function f =>
      match f text chunk_size with
      | Some text_chunks => Return text_chunks
      | None => Diverge
      end
  | Chunk _ => Raise TypeError
  end.

Section Scoped.
Variable lower : str -> str.
Variable order : list str.
Variable CHUNK_SIZE : Z.
Variable Entities : Type.
Variable _process_pdf : bytes -> bool -> outcome (str * DocumentMetadata).
Variable extract_entities_and_keywords : str -> outcome (Entities * list str).
Variable detect_language : str -> outcome (option str).
Variable generate_file_id : str.

(** Both bodies from the call of [chunk_text] on: the chunks, the two
    calls into the NLP service, and the document. *)
Definition document_of (locals : list str) (document_id : str)
    (metadata : DocumentMetadata) (text : str)
    : ending (ProcessedDocument Entities) :=
  match load_chunk_text locals None with
  | inl name => UnboundLocalError name
  | inr callee =>
      Ends (text_chunks ← call_object callee text CHUNK_SIZE;
            let chunks := make_chunks document_id 0 text_chunks in
            '(entities, keywords) ← extract_entities_and_keywords text;
            language ← detect_language text;
            let metadata := set_language metadata language in
            Return {| document_id := document_id; metadata := metadata;
                      full_text := text; chunks := chunks;
                      entities := entities; keywords := keywords |})
  end.

(** [process_upload], with its names read as the interpreter reads
    them. *)
Definition process_upload_scoped (file : UploadFile) (perform_ocr : bool)
    : ending (ProcessedDocument Entities) :=
  match extract lower _process_pdf file perform_ocr with
  | Raise e => Ends (Raise e)
  | Diverge => Ends Diverge
  | Return (extracted_text, metadata) =>
      let '(is_safe, reason) :=
        Security.content_security_check lower order extracted_text in
      if negb is_safe
      then Ends (Raise (HTTPException 400 (MSG_INAPPROPRIATE ++ reason)))
      else
        let document_id := generate_file_id in
        document_of process_upload_locals document_id metadata extracted_text
  end.

(** [text_to_document(text, title)] *)
Definition text_to_document (text : str) (title : option str)
    : ending (ProcessedDocument Entities) :=
  let '(is_safe, reason) :=
    Security.content_security_check lower order text in
  if negb is_safe
  then Ends (Raise (HTTPException 400 (MSG_INAPPROPRIATE ++ reason)))
  else
    let document_id := generate_file_id in
    let filename :=
      (if truthy_str title then default [] title else lit "document")
      ++ lit ".txt" in
    match utf8_encode text with
    | None => Ends (Raise UnicodeEncodeError)
    | Some encoded =>
        let metadata :=
          {| md_filename := filename; file_size := len encoded;
             md_content_type := lit "text/plain"; page_count := None;
             has_images := false; language := None |} in
        document_of text_to_document_locals document_id metadata text
    end.
End Scoped.

End DocumentProcessor.

(** ** [app/api/endpoints/summary.py]: [create_summary] *)

Module Summary.

(** The schemas of the endpoints. [SummaryResponse] and
    [VisualizationType] are classes of [app/shemas/summary.py]. The
    request schema [CreateSummaryRequest] and the response schema
    [VisualizationResponse], which the endpoints import from the same
    place, are not among the classes of the repository: the endpoints
    are modelled over any type of requests with the five attributes that
    [create_summary] reads, whatever the schema validates before the
    body runs, and over any constructor of visualization responses. *)

(** The fields of [SummaryResponse] that have no default. *)
Definition REQUIRED_FIELDS : list str :=
  map lit ["document_id"; "summary"; "key_concepts";
           "estimated_reading_time"; "original_text_length";
           "compression_ratio"]%string.

(** The value of a keyword argument. *)
Inductive argument : Type :=
  | Text (s : str)
  | OptionalText (o : option str)
  | Texts (l : list str).

(** The required fields that are not among the keyword arguments. *)
Definition missing_fields (kwargs : list (str * argument)) : list str :=
  filter (fun field => field ∉ kwargs.*1) REQUIRED_FIELDS.

Inductive VisualizationType : Type :=
  | WORDCLOUD | FLOW_DIAGRAM | TIMELINE | BAR_CHART | PIE_CHART
  | NETWORK_GRAPH | CONCEPT_MAP.

Definition MSG_NOT_FOUND : str := lit "Documento no encontrado: ".
Definition MSG_REQUIRED : str := lit "Se debe proporcionar texto o document_id".
Definition MSG_FAILED : str := lit "Error al generar el resumen: ".
Definition MSG_VISUALIZATION_FAILED : str :=
  lit "Error al generar la visualización: ".

Section Endpoint.
(** The requests and the attributes that [create_summary] reads of
    them. *)
Variable CreateSummaryRequest : Type.
Variable document_id : CreateSummaryRequest -> option str.
Variable text : CreateSummaryRequest -> option str.
Variable preprocess : CreateSummaryRequest -> bool.
Variable length : CreateSummaryRequest -> str.
Variable include_keywords : CreateSummaryRequest -> bool.
(** The instances of [SummaryResponse]: what a validation that finds
    every required field builds from the keyword arguments, and the
    text of the error that a failed validation of them raises. *)
Variable SummaryResponse : Type.
Variable validated : list (str * argument) -> SummaryResponse.
Variable validation_message : list (str * argument) -> str.
(** The collaborators of the endpoint: the document registry
    ([doc_processor.get_document] and the [text] of a document), the
    NLP service, the generation service and the identifier drawn by
    [uuid.uuid4]. *)
Variable Document : Type.
Variable document_text_of : Document -> str.
Variable get_document : str -> outcome (option Document).
Variable preprocess_text : str -> outcome str.
Variable generate_summary : str -> str -> outcome str.
Variable extract_keywords : str -> Z -> outcome (list str).
Variable uuid4 : str.

(** The call of [SummaryResponse] with keyword arguments, as far as
    the required fields go: the validation raises [ValidationError]
    when a required field is not among the keyword arguments, and
    ignores the keyword arguments that name no field. (The values of
    the fields that are given are not looked at: the call of the
    endpoint fails on the fields that it leaves out.) *)
Definition new_SummaryResponse (kwargs : list (str * argument))
    : outcome SummaryResponse :=
  match missing_fields kwargs with
  | [] => Return (validated kwargs)
  | _ :: _ => Raise (ValidationError (validation_message kwargs))
  end.

(** The statements up to the check of [document_text]. *)
Definition resolve_text (request : CreateSummaryRequest)
    : outcome (option str) :=
  if truthy_str (document_id request) then
    let id := default [] (document_id request) in
    document ← get_document id;
    match document with
    | None => Raise (HTTPException 404 (MSG_NOT_FOUND ++ id))
    | Some document => Return (Some (document_text_of document))
    end
  else Return (text request).

(** The body of the [try] block. *)
Definition summary_body (request : CreateSummaryRequest)
    : outcome SummaryResponse :=
  document_text ← resolve_text request;
  if negb (truthy_str document_text)
  then Raise (HTTPException 400 MSG_REQUIRED)
  else
    let document_text := default [] document_text in
    document_text ←
      (if preprocess request then preprocess_text document_text
       else Return document_text);
    summary_text ← generate_summary document_text (length request);
    keywords ←
      (if include_keywords request then extract_keywords document_text 10
       else Return []);
    let summary_id := uuid4 in
    new_SummaryResponse
      [(lit "summary_id", Text summary_id);
       (lit "document_id", OptionalText (document_id request));
       (lit "text", Text summary_text);
       (lit "length", Text (length request));
       (lit "keywords", Texts keywords);
       (lit "created_at", Text (lit "2023-11-01T12:00:00Z"))].

(** [except HTTPException: raise] and
    [except Exception as e: raise HTTPException(500, ...)]. *)
Definition create_summary (request : CreateSummaryRequest)
    : outcome SummaryResponse :=
  match summary_body request with
  | Raise (HTTPException status_code detail) =>
      Raise (HTTPException status_code detail)
  | Raise e => Raise (HTTPException 500 (MSG_FAILED ++ str_exn e))
  | r => r
  end.
End Endpoint.

(** *** [create_visualization] *)

Section Visualization.
(** The document registry, the visualization service, the constructor
    of [VisualizationResponse] and the identifier drawn by
    [uuid.uuid4]. A document reference is a UUID, given here as [str]
    writes it; an object of the class is truthy. *)
Variable Document : Type.
Variable document_text_of : Document -> str.
Variable get_document : str -> outcome (option Document).
Variable Data : Type.
Variable generate_visualization : str -> VisualizationType -> outcome Data.
Variable VisualizationResponse : Type.
Variable new_VisualizationResponse :
  str -> option str -> VisualizationType -> Data ->
  outcome VisualizationResponse.
Variable uuid4 : str.

(** The [if document_id: ... elif text: ... else: ...] statement. *)
Definition source_text (document_id text : option str) : outcome str :=
  match document_id with
  | Some id =>
      document ← get_document id;
      match document with
      | None => Raise (HTTPException 404 (MSG_NOT_FOUND ++ id))
      | Some document => Return (document_text_of document)
      end
  | None =>
      if truthy_str text then Return (default [] text)
      else Raise (HTTPException 400 MSG_REQUIRED)
  end.

(** The body of the [try] block. *)
Definition visualization_body (document_id text : option str)
    (viz_type : VisualizationType) : outcome VisualizationResponse :=
  source_text ← source_text document_id text;
  viz_data ← generate_visualization source_text viz_type;
  new_VisualizationResponse uuid4 document_id viz_type viz_data.

Definition create_visualization (document_id text : option str)
    (viz_type : VisualizationType) : outcome VisualizationResponse :=
  match visualization_body document_id text viz_type with
  | Raise (HTTPException status_code detail) =>
      Raise (HTTPException status_code detail)
  | Raise e =>
      Raise (HTTPException 500 (MSG_VISUALIZATION_FAILED ++ str_exn e))
  | r => r
  end.
End Visualization.

End Summary.

(** ** [hashlib.md5] *)

Module MD5.

Definition mask32 (x : Z) : Z := x mod 2 ^ 32.
Definition rotl32 (x c : Z) : Z :=
  mask32 (Z.lor (Z.shiftl x c) (Z.shiftr (mask32 x) (32 - c))).
Definition not32 (x : Z) : Z := Z.lxor x 0xffffffff.

Definition S : list Z :=
  [7; 12; 17; 22; 7; 12; 17; 22; 7; 12; 17; 22; 7; 12; 17; 22;
   5; 9; 14; 20; 5; 9; 14; 20; 5; 9; 14; 20; 5; 9; 14; 20;
   4; 11; 16; 23; 4; 11; 16; 23; 4; 11; 16; 23; 4; 11; 16; 23;
   6; 10; 15; 21; 6; 10; 15; 21; 6; 10; 15; 21; 6; 10; 15; 21].

Definition K : list Z :=
  [0xd76aa478; 0xe8c7b756; 0x242070db; 0xc1bdceee;
   0xf57c0faf; 0x4787c62a; 0xa8304613; 0xfd469501;
   0x698098d8; 0x8b44f7af; 0xffff5bb1; 0x895cd7be;
   0x6b901122; 0xfd987193; 0xa679438e; 0x49b40821;
   0xf61e2562; 0xc040b340; 0x265e5a51; 0xe9b6c7aa;
   0xd62f105d; 0x02441453; 0xd8a1e681; 0xe7d3fbc8;
   0x21e1cde6; 0xc33707d6; 0xf4d50d87; 0x455a14ed;
   0xa9e3e905; 0xfcefa3f8; 0x676f02d9; 0x8d2a4c8a;
   0xfffa3942; 0x8771f681; 0x6d9d6122; 0xfde5380c;
   0xa4beea44; 0x4bdecfa9; 0xf6bb4b60; 0xbebfbc70;
   0x289b7ec6; 0xeaa127fa; 0xd4ef3085; 0x04881d05;
   0xd9d4d039; 0xe6db99e5; 0x1fa27cf8; 0xc4ac5665;
   0xf4292244; 0x432aff97; 0xab9423a7; 0xfc93a039;
   0x655b59c3; 0x8f0ccc92; 0xffeff47d; 0x85845dd1;
   0x6fa87e4f; 0xfe2ce6e0; 0xa3014314; 0x4e0811a1;
   0xf7537e82; 0xbd3af235; 0x2ad7d2bb; 0xeb86d391].

Definition nth_word (l : list Z) (i : Z) : Z := default 0 (l !! Z.to_nat i).

(** Little-endian words and bytes. *)
Fixpoint words_of (bs : list Z) : list Z :=
  match bs with
  | b0 :: b1 :: b2 :: b3 :: rest =>
      (b0 + 2 ^ 8 * b1 + 2 ^ 16 * b2 + 2 ^ 24 * b3) :: words_of rest
  | _ => []
  end.

Fixpoint le_bytes (n : nat) (x : Z) : list Z :=
  match n with
  | O => []
  | Datatypes.S n' => x mod 256 :: le_bytes n' (x / 256)
  end.

(** The message followed by the bit [1], zeros up to 56 modulo 64, and
    its length in bits on 64 bits. *)
Definition pad (msg : list Z) : list Z :=
  let n := len msg in
  let zeros := (55 - n) mod 64 in
  msg ++ [0x80] ++ replicate (Z.to_nat zeros) 0 ++ le_bytes 8 ((8 * n) mod 2 ^ 64).

Definition round (M : list Z) (st : Z * Z * Z * Z) (i : Z) : Z * Z * Z * Z :=
  let '(A, B, C, D) := st in
  let '(F, g) :=
    if i <? 16 then (Z.lor (Z.land B C) (Z.land (not32 B) D), i)
    else if i <? 32 then
      (Z.lor (Z.land D B) (Z.land (not32 D) C), (5 * i + 1) mod 16)
    else if i <? 48 then (Z.lxor B (Z.lxor C D), (3 * i + 5) mod 16)
    else (Z.lxor C (Z.lor B (not32 D)), (7 * i) mod 16) in
  let F := mask32 (F + A + nth_word K i + nth_word M g) in
  (D, mask32 (B + rotl32 F (nth_word S i)), B, C).

Definition block (st : Z * Z * Z * Z) (M : list Z) : Z * Z * Z * Z :=
  let '(a0, b0, c0, d0) := st in
  let '(A, B, C, D) := foldl (round M) st (map Z.of_nat (seq 0 64)) in
  (mask32 (a0 + A), mask32 (b0 + B), mask32 (c0 + C), mask32 (d0 + D)).

Fixpoint blocks (n : nat) (ws : list Z) : list (list Z) :=
  match n with
  | O => []
  | Datatypes.S n' =>
      match ws with
      | [] => []
      | _ => take 16 ws :: blocks n' (drop 16 ws)
      end
  end.

Definition digest (msg : bytes) : list Z :=
  let ws := words_of (pad (map (fun b => Z.of_N (Byte.to_N b)) msg)) in
  let '(a, b, c, d) :=
    foldl block (0x67452301, 0xefcdab89, 0x98badcfe, 0x10325476)
      (blocks (length ws) ws) in
  le_bytes 4 a ++ le_bytes 4 b ++ le_bytes 4 c ++ le_bytes 4 d.

Definition hex_digit (x : Z) : N :=
  if x <? 10 then Z.to_N (48 + x) else Z.to_N (87 + x).

(** [hashlib.md5(msg).hexdigest()] *)
Definition hexdigest (msg : bytes) : str :=
  flat_map (fun b => [hex_digit (b / 16); hex_digit (b mod 16)]) (digest msg).

(** A digit of lower-case hexadecimal: [0-9a-f]. *)
Definition is_hex (c : N) : bool := between 48 57 c || between 97 102 c.

End MD5.

(** ** [app/core/cache.py] *)

Module Cache.

(** What the cache needs of the values that flow through a wrapped
    function: [str(args)] of the tuple of positional arguments,
    [json.dumps] of a value, [json.dumps] of a dictionary whose items
    are written in the order given, and [json.loads]. *)
Class Codec (value : Type) : Type := {
  str_args : list value -> str;
  json_dumps : value -> outcome str;
  json_dumps_items : list (str * value) -> outcome str;
  json_loads : str -> outcome value
}.

(** The two commands of the Redis client that the wrapper issues:
    [get] (with [decode_responses=True]: a string or [None]) and
    [setex]. *)
Class RedisClient (store : Type) : Type := {
  get : store -> str -> outcome (option str);
  setex : store -> str -> Z -> str -> outcome store
}.

(** Order of Python strings: lexicographic on code points. *)
Fixpoint str_leb (s t : str) : bool :=
  match s, t with
  | [], _ => true
  | _ :: _, [] => false
  | c :: s', d :: t' => (c <? d)%N || ((c =? d)%N && str_leb s' t')
  end.

Definition key_le {value} (x y : str * value) : Prop := str_leb x.1 y.1.

Global Instance key_le_dec {value} (x y : str * value)
  : Decision (key_le x y) := Is_true_dec _.

(** [sort_keys=True]: the items of the dictionary in the order of their
    keys. [kwargs] lists the keyword arguments in the order of the
    call. *)
Definition sort_keys {value} (kwargs : list (str * value))
    : list (str * value) :=
  merge_sort key_le kwargs.

Record world (store : Type) : Type := {
  redis : store;
  invocations : nat;
  stdout : list str
}.
Arguments redis {store}.
Arguments invocations {store}.
Arguments stdout {store}.

Definition MSG_CACHE_ERROR : str := lit "Error al cachear resultado: ".

Section Wrapper.
Context {value : Type} `{Codec value}.
Context {store : Type} `{RedisClient store}.
(** The configuration constant of [app/config.py]. *)
Variable REDIS_ENABLED : bool.

Definition get_redis_connection (w : world store) : option store :=
  if negb REDIS_ENABLED then None else Some (redis w).

Definition generate_cache_key (prefix : str) (args : list value)
    (kwargs : list (str * value)) : outcome str :=
  let args_str := str_args args in
  kwargs_str ← json_dumps_items (sort_keys kwargs);
  let key_str := prefix ++ lit ":" ++ args_str ++ lit ":" ++ kwargs_str in
  match utf8_encode key_str with
  | Some encoded => Return (MD5.hexdigest encoded)
  | None => Raise UnicodeEncodeError
  end.

(** The wrapped function: what a call returns; each call is counted. *)
Definition wrapped : Type := list value -> list (str * value) -> outcome value.

Definition invoke (func : wrapped) (args : list value)
    (kwargs : list (str * value)) (w : world store)
    : outcome value * world store :=
  (func args kwargs,
   {| redis := redis w; invocations := Datatypes.S (invocations w);
      stdout := stdout w |}).

(** The [try: redis_client.setex(...) except Exception as e: print(...)]
    statement. *)
Definition store_result (redis_client : store) (cache_key : str) (ttl : Z)
    (result : value) (w : world store) : outcome (world store) :=
  match s ← json_dumps result; setex redis_client cache_key ttl s with
  | Return redis' =>
      Return {| redis := redis'; invocations := invocations w;
                stdout := stdout w |}
  | Raise e =>
      Return {| redis := redis w; invocations := invocations w;
                stdout := stdout w ++ [MSG_CACHE_ERROR ++ str_exn e] |}
  | Diverge => Diverge
  end.

(** "Ejecutar función y cachear resultado": the path taken when the
    lookup gave nothing usable. *)
Definition compute_and_store (ttl : Z) (func : wrapped)
    (redis_client : store) (cache_key : str) (args : list value)
    (kwargs : list (str * value)) (w : world store)
    : outcome value * world store :=
  match invoke func args kwargs w with
  | (Return result, w1) =>
      match store_result redis_client cache_key ttl result w1 with
      | Return w2 => (Return result, w2)
      | Raise e => (Raise e, w1)
      | Diverge => (Diverge, w1)
      end
  | r => r
  end.

(** [if cached_result: try: return json.loads(cached_result)
    except Exception: pass]: [Some] when the statement returns. *)
Definition try_cached (cached_result : option str) : option (outcome value) :=
  if truthy_str cached_result then
    match json_loads (default [] cached_result) with
    | Return v => Some (Return v)
    | Raise _ => None
    | Diverge => Some Diverge
    end
  else None.

(** The [wrapper] that [cache_result(prefix, ttl)] puts around [func],
    called with positional arguments [args] and keyword arguments
    [kwargs]. *)
Definition cache_result (prefix : str) (ttl : Z) (func : wrapped)
    (args : list value) (kwargs : list (str * value)) (w : world store)
    : outcome value * world store :=
  if negb REDIS_ENABLED then invoke func args kwargs w
  else
    match get_redis_connection w with
    | None => invoke func args kwargs w
    | Some redis_client =>
        match generate_cache_key prefix args kwargs with
        | Return cache_key =>
            match get redis_client cache_key with
            | Return cached_result =>
                match try_cached cached_result with
                | Some r => (r, w)
                | None =>
                    compute_and_store ttl func redis_client cache_key
                      args kwargs w
                end
            | Raise e => (Raise e, w)
            | Diverge => (Diverge, w)
            end
        | Raise e => (Raise e, w)
        | Diverge => (Diverge, w)
        end
    end.
End Wrapper.

(** *** [invalidate_cache] *)

(** The command of the client that [invalidate_cache] issues:
    [delete], with the keys to remove. *)
Class RedisKeys (store : Type) : Type := {
  delete : store -> list str -> outcome store
}.

Section Invalidation.
Context {value : Type} `{Codec value}.
Context {store : Type} `{RedisKeys store}.
Variable REDIS_ENABLED : bool.

Definition invalidate_cache (prefix : str) (args : list value)
    (kwargs : list (str * value)) (w : world store) : outcome (world store) :=
  if negb REDIS_ENABLED then Return w
  else
    match get_redis_connection REDIS_ENABLED w with
    | None => Return w
    | Some redis_client =>
        cache_key ← generate_cache_key prefix args kwargs;
        redis' ← delete redis_client [cache_key];
        Return {| redis := redis'; invocations := invocations w;
                  stdout := stdout w |}
    end.
End Invalidation.

End Cache.

(** ** A fragment of Python values and an in-memory store

    Instances of the two interfaces of [Cache], to run the wrapper on
    concrete calls: the values [None], booleans, integers, lists and
    tuples with their [repr] and their JSON spelling, and a store that
    keeps the entries in a finite map and can be unreachable or
    read-only. *)

Module Py.

Inductive value : Type :=
  | PNone
  | PBool (b : bool)
  | PInt (z : Z)
  | PList (items : list value)
  | PTuple (items : list value).

Fixpoint repr (v : value) : str :=
  match v with
  | PNone => lit "None"
  | PBool true => lit "True"
  | PBool false => lit "False"
  | PInt z => str_Z z
  | PList items => lit "[" ++ join (lit ", ") (map repr items) ++ lit "]"
  | PTuple [item] => lit "(" ++ repr item ++ lit ",)"
  | PTuple items => lit "(" ++ join (lit ", ") (map repr items) ++ lit ")"
  end.

(** [json.dumps(v)]: a tuple is written as an array, like a list. *)
Fixpoint dumps (v : value) : str :=
  match v with
  | PNone => lit "null"
  | PBool true => lit "true"
  | PBool false => lit "false"
  | PInt z => str_Z z
  | PList items | PTuple items =>
      lit "[" ++ join (lit ", ") (map dumps items) ++ lit "]"
  end.

Definition hex4 (c : N) : str :=
  map (fun k => MD5.hex_digit (Z.of_N (N.shiftr c k mod 16)))
    [12; 8; 4; 0]%N.

(** The escapes of a JSON string under [ensure_ascii=True]. *)
Definition BACKSLASH : N := 92%N.
Definition QUOTE : N := 34%N.

Definition escape_char (c : N) : str :=
  if (c =? QUOTE)%N then [BACKSLASH; QUOTE]
  else if (c =? BACKSLASH)%N then [BACKSLASH; BACKSLASH]
  else if (c =? 10)%N then BACKSLASH :: lit "n"
  else if (c =? 13)%N then BACKSLASH :: lit "r"
  else if (c =? 9)%N then BACKSLASH :: lit "t"
  else if (c =? 8)%N then BACKSLASH :: lit "b"
  else if (c =? 12)%N then BACKSLASH :: lit "f"
  else if between 32 126 c then [c]
  else if (c <? 0x10000)%N then BACKSLASH :: lit "u" ++ hex4 c
  else
    let v := (c - 0x10000)%N in
    BACKSLASH :: lit "u" ++ hex4 (N.lor 0xD800 (N.shiftr v 10))
    ++ BACKSLASH :: lit "u" ++ hex4 (N.lor 0xDC00 (N.land v 0x3FF)).

Definition dumps_key (k : str) : str :=
  [QUOTE] ++ flat_map escape_char k ++ [QUOTE].

Definition dumps_items (items : list (str * value)) : str :=
  lit "{"
  ++ join (lit ", ")
       (map (fun kv => dumps_key kv.1 ++ lit ": " ++ dumps kv.2) items)
  ++ lit "}".

(** *** [json.loads] on the spellings of the fragment *)

Definition is_ws (c : N) : bool :=
  (c =? 32)%N || (c =? 9)%N || (c =? 10)%N || (c =? 13)%N.
Definition is_digit (c : N) : bool := between 48 57 c.

Fixpoint skip_ws (s : str) : str :=
  match s with
  | c :: s' => if is_ws c then skip_ws s' else s
  | [] => []
  end.

(** [s] without the prefix [p], when it starts with it. *)
Fixpoint strip_prefix (p s : str) : option str :=
  match p, s with
  | [], _ => Some s
  | c :: p', d :: s' => if (c =? d)%N then strip_prefix p' s' else None
  | _ :: _, [] => None
  end.

Fixpoint scan_digits (s : str) (acc : N) : N * str :=
  match s with
  | c :: s' =>
      if is_digit c then scan_digits s' (10 * acc + (c - 48))%N else (acc, s)
  | [] => (acc, [])
  end.

(** A JSON integer: an optional minus sign, then a single zero or a
    run of digits that does not start with zero; not followed by a
    fraction or an exponent. *)
Definition scan_int (s : str) : option (Z * str) :=
  let '(negative, s1) :=
    match s with
    | 45%N :: s' => (true, s')
    | _ => (false, s)
    end in
  match s1 with
  | c :: s2 =>
      if is_digit c then
        let '(n, rest) :=
          if (c =? 48)%N then (0%N, s2) else scan_digits s1 0 in
        match rest with
        | d :: _ =>
            if is_digit d || (d =? 46)%N || (d =? 101)%N || (d =? 69)%N
            then None
            else Some (if negative then - Z.of_N n else Z.of_N n, rest)
        | [] => Some (if negative then - Z.of_N n else Z.of_N n, rest)
        end
      else None
  | [] => None
  end.

(** A value at the head of [s] and what follows it. Arrays are read as
    lists. [fuel] bounds the nesting and the number of items. A spelling
    outside the fragment (a string, a float, an object) is not read. *)
Fixpoint scan_value (fuel : nat) (s : str) : option (value * str) :=
  match fuel with
  | O => None
  | S fuel' =>
      match strip_prefix (lit "null") s with
      | Some rest => Some (PNone, rest)
      | None =>
      match strip_prefix (lit "true") s with
      | Some rest => Some (PBool true, rest)
      | None =>
      match strip_prefix (lit "false") s with
      | Some rest => Some (PBool false, rest)
      | None =>
      match s with
      | 91%N :: s1 =>
          match skip_ws s1 with
          | 93%N :: rest => Some (PList [], rest)
          | s2 =>
              (fix scan_items (n : nat) (s : str) (acc : list value)
                   : option (value * str) :=
                 match n with
                 | O => None
                 | S n' =>
                     match scan_value fuel' s with
                     | Some (v, rest) =>
                         match skip_ws rest with
                         | 44%N :: rest' =>
                             scan_items n' (skip_ws rest') (acc ++ [v])
                         | 93%N :: rest' => Some (PList (acc ++ [v]), rest')
                         | _ => None
                         end
                     | None => None
                     end
                 end) fuel' s2 []
          end
      | _ =>
          match scan_int s with
          | Some (z, rest) => Some (PInt z, rest)
          | None => None
          end
      end end end end
  end.

(** [json.loads] on the texts of the fragment: [null], [true],
    [false], integers, and arrays of these. A JSON text outside the
    fragment (a string, a number with a fraction or an exponent, an
    object) is refused here although [json.loads] reads it: [loads] is
    run below only on texts of the fragment and on texts that are not
    JSON at all. *)
Definition loads (s : str) : outcome value :=
  match scan_value (S (length s)) (skip_ws s) with
  | Some (v, rest) =>
      match skip_ws rest with
      | [] => Return v
      | _ => Raise JSONDecodeError
      end
  | None => Raise JSONDecodeError
  end.

Global Instance codec : Cache.Codec value := {|
  Cache.str_args := fun args => repr (PTuple args);
  Cache.json_dumps := fun v => Return (dumps v);
  Cache.json_dumps_items := fun items => Return (dumps_items items);
  Cache.json_loads := loads
|}.

(** The store: whether it answers at all, whether it accepts writes,
    and the entries with their time to live. *)
Record memory : Type := {
  reachable : bool;
  writable : bool;
  entries : gmap str (str * Z)
}.

Global Instance client : Cache.RedisClient memory := {|
  Cache.get := fun m key =>
    if reachable m then Return (fst <$> entries m !! key)
    else Raise ConnectionError;
  Cache.setex := fun m key ttl v =>
    if negb (reachable m) then Raise ConnectionError
    else if negb (writable m) then Raise ResponseError
    else Return {| reachable := true; writable := true;
                   entries := <[key := (v, ttl)]> (entries m) |}
|}.

Global Instance keys : Cache.RedisKeys memory := {|
  Cache.delete := fun m ks =>
    if negb (reachable m) then Raise ConnectionError
    else if negb (writable m) then Raise ResponseError
    else Return {| reachable := true; writable := true;
                   entries := foldr (fun k e => base.delete k e) (entries m) ks |}
|}.

End Py.

(** ** Sample calls

    Concrete requests, calls and stores on which the definitions above
    are run. *)

Module Samples.

(** A request given by the values of the five attributes that
    [create_summary] reads. *)
Record request : Type := {
  given_document_id : option str;
  given_text : option str;
  given_preprocess : bool;
  given_length : str;
  given_include_keywords : bool
}.

(** A text for the validation error of a response: the required fields
    that are missing. *)
Definition fields_listed (kwargs : list (str * Summary.argument)) : str :=
  join (lit ", ") (Summary.missing_fields kwargs).

(** [create_summary] on such requests, with a generation service that
    answers; an instance of [SummaryResponse] is given by its keyword
    arguments. *)
Definition sample_endpoint (get_document : str -> outcome (option str))
    : request -> outcome (list (str * Summary.argument)) :=
  Summary.create_summary request given_document_id given_text
    given_preprocess given_length given_include_keywords
    (list (str * Summary.argument)) id
    fields_listed str id get_document Return
    (fun document_text _ => Return (lit "Resumen: " ++ document_text))
    (fun _ _ => Return [])
    (lit "00000000-0000-4000-8000-000000000000").

(** A registry that knows every identifier, one that knows none, and
    the registry of the repository: [DocumentProcessor] has no method
    [get_document], so that looking it up raises. *)
Definition knows_all : str -> outcome (option str) :=
  fun _ => Return (Some (lit "Texto del documento registrado")).
Definition knows_none : str -> outcome (option str) :=
  fun _ => Return None.
Definition MSG_NO_GET_DOCUMENT : str :=
  lit "'DocumentProcessor' object has no attribute 'get_document'".
Definition no_get_document : str -> outcome (option str) :=
  fun _ => Raise (AttributeError MSG_NO_GET_DOCUMENT).

Definition both_present : request :=
  {| given_document_id := Some (lit "doc-1");
     given_text := Some (lit "Texto libre enviado junto a la referencia");
     given_preprocess := false; given_length := lit "medium";
     given_include_keywords := false |}.

Definition document_only : request :=
  {| given_document_id := Some (lit "doc-1"); given_text := None;
     given_preprocess := false; given_length := lit "medium";
     given_include_keywords := false |}.

Definition text_only : request :=
  {| given_document_id := None;
     given_text := Some (lit "Las plantas producen oxígeno");
     given_preprocess := false; given_length := lit "medium";
     given_include_keywords := false |}.

(** The fields that the validation of the response reports, as
    [fields_listed] writes them. *)
Definition MSG_FIELDS_MISSING : str :=
  join (lit ", ")
    (map lit ["summary"; "key_concepts"; "estimated_reading_time";
              "original_text_length"; "compression_ratio"]%string).

Definition neither_present : request :=
  {| given_document_id := None; given_text := None;
     given_preprocess := false; given_length := lit "medium";
     given_include_keywords := false |}.

(** [create_visualization] with a visualization service that answers
    and a constructor of responses that keeps its arguments. *)
Definition sample_visualization (get_document : str -> outcome (option str))
    : option str -> option str -> Summary.VisualizationType ->
      outcome (str * option str * Summary.VisualizationType * str) :=
  Summary.create_visualization str id get_document str
    (fun source_text _ => Return source_text)
    (str * option str * Summary.VisualizationType * str)
    (fun visualization_id document_id viz_type viz_data =>
       Return (visualization_id, document_id, viz_type, viz_data))
    (lit "00000000-0000-4000-8000-000000000000").

Definition sample_uuid : str := lit "6f1c2a9e-3b7d-4c5e-8a21-0d9e4b7c1f35".
Definition free_text : option str :=
  Some (lit "Texto libre enviado junto a la referencia").

Definition fresh (m : Py.memory) : Cache.world Py.memory :=
  {| Cache.redis := m; Cache.invocations := 0; Cache.stdout := [] |}.

Definition empty_store : Py.memory :=
  {| Py.reachable := true; Py.writable := true; Py.entries := ∅ |}.

Definition unreachable_store : Py.memory :=
  {| Py.reachable := false; Py.writable := true; Py.entries := ∅ |}.

(** A function that returns the tuple [(1, 2)], one that returns [42],
    and two spellings of the same keyword arguments. *)
Definition returns_pair : Cache.wrapped (value := Py.value) :=
  fun _ _ => Return (Py.PTuple [Py.PInt 1; Py.PInt 2]).
Definition returns_42 : Cache.wrapped (value := Py.value) :=
  fun _ _ => Return (Py.PInt 42).
Definition length_then_topic : list (str * Py.value) :=
  [(lit "length", Py.PInt 3); (lit "topic", Py.PInt 5)].
Definition topic_then_length : list (str * Py.value) :=
  [(lit "topic", Py.PInt 5); (lit "length", Py.PInt 3)].

(** The key of the call [f(7, length=3, topic=5)] under the prefix
    [summary], and the store and the world after a result was stored
    under a key. *)
Definition sample_key : str := lit "e9e6615059b585767ce95ce619c209cd".
Definition store_with (key s : str) (ttl : Z) : Py.memory :=
  {| Py.reachable := true; Py.writable := true;
     Py.entries := <[key := (s, ttl)]> ∅ |}.
Definition stored_42 : Cache.world Py.memory :=
  {| Cache.redis := store_with sample_key (lit "42") 86400;
     Cache.invocations := 1; Cache.stdout := [] |}.
Definition stored_pair : Cache.world Py.memory :=
  {| Cache.redis := store_with sample_key (lit "[1, 2]") 86400;
     Cache.invocations := 1; Cache.stdout := [] |}.

(** A store whose entry under the sample key is not JSON, a store that
    answers reads and refuses writes, a function that fails, and the
    worlds after one invocation. *)
Definition corrupt_store : Py.memory :=
  store_with sample_key (lit "{not json") 86400.
Definition read_only_store : Py.memory :=
  {| Py.reachable := true; Py.writable := false; Py.entries := ∅ |}.
Definition fails : Cache.wrapped (value := Py.value) :=
  fun _ _ => Raise (RuntimeError (lit "sin respuesta")).
Definition invoked_once (m : Py.memory) (printed : list str)
    : Cache.world Py.memory :=
  {| Cache.redis := m; Cache.invocations := 1; Cache.stdout := printed |}.

(** An upload of a short lesson. *)
Definition lesson : str := lit "Las plantas producen oxígeno con la luz".
Definition lesson_file : DocumentProcessor.UploadFile :=
  {| DocumentProcessor.filename := lit "leccion.txt";
     DocumentProcessor.content :=
       list_byte_of_string "Las plantas producen oxígeno con la luz";
     DocumentProcessor.content_type := lit "text/plain" |}.

(** A processor with a chunk size of 16, no PDF reader and a fixed
    answer of the NLP service; its names are read as the interpreter
    reads them. *)
Definition sample_upload_scoped
    : DocumentProcessor.UploadFile -> bool ->
      DocumentProcessor.ending (DocumentProcessor.ProcessedDocument unit) :=
  DocumentProcessor.process_upload_scoped lower_latin1
    Security.PROHIBITED_CONTENT 16 unit
    (fun _ _ => Raise (HTTPException 400 (lit "Error procesando PDF: ")))
    (fun _ => Return (tt, [])) (fun _ => Return (Some (lit "español")))
    (lit "doc").
Definition sample_text_to_document
    : str -> option str ->
      DocumentProcessor.ending (DocumentProcessor.ProcessedDocument unit) :=
  DocumentProcessor.text_to_document lower_latin1
    Security.PROHIBITED_CONTENT 16 unit
    (fun _ => Return (tt, [])) (fun _ => Return (Some (lit "español")))
    (lit "doc").

(** The results of two chunks, with a summary and a list of pages. *)
Definition first_result : list (str * Utils.cell N unit) :=
  [(lit "summary", Utils.CStr (lit "Las plantas"));
   (lit "pages", Utils.CList [1%N; 2%N])].
Definition second_result : list (str * Utils.cell N unit) :=
  [(lit "pages", Utils.CList [3%N]);
   (lit "summary", Utils.CStr (lit "producen oxígeno"))].
Definition stray_result : list (str * Utils.cell N unit) :=
  [(lit "title", Utils.CStr (lit "Fotosíntesis"))].

(** A document of three sentences, the second of them empty, with its
    entities, noun chunks and tokens. *)
Definition span (text label root_pos : string) (start end_ : Z)
    : NLPService.Span :=
  {| NLPService.span_text := lit text; NLPService.label_ := lit label;
     NLPService.root_pos_ := lit root_pos;
     NLPService.span_start := start; NLPService.span_end := end_ |}.
Definition noun (text pos lemma : string) : NLPService.Token :=
  {| NLPService.token_text := lit text; NLPService.pos_ := lit pos;
     NLPService.lemma_ := lit lemma; NLPService.is_punct := false;
     NLPService.is_space := false; NLPService.is_digit := false |}.
Definition sample_ents : list NLPService.Span :=
  [span "ONU" "ORG" "" 0 1; span "Madrid" "LOC" "" 5 6;
   span "onu" "ORG" "" 8 9; span "1990" "DATE" "" 20 21].
Definition sample_chunks : list NLPService.Span :=
  [span "La ONU" "" "PROPN" 0 1; span "las plantas" "" "NOUN" 2 4;
   span "Las Plantas" "" "NOUN" 10 12; span "sol" "" "NOUN" 6 7;
   span "ellos mismos" "" "PRON" 12 14; span "  Luz Solar " "" "NOUN" 14 16].
Definition sample_sents : list NLPService.Span :=
  [span "Primera frase." "" "" 0 7; span "" "" "" 7 10;
   span "Tercera frase." "" "" 10 18].
Definition sample_tokens : list NLPService.Token :=
  [noun "plantas" "NOUN" "planta"; noun "sol" "NOUN" "sol";
   noun "Madrid" "PROPN" "Madrid"; noun "crecen" "VERB" "crecer";
   noun "plantas" "NOUN" "planta"].
Definition sample_concepts : list NLPService.Concept :=
  NLPService.educational_concepts unit (fun _ => sample_ents)
    (fun _ => sample_chunks) (fun _ => sample_sents) lower_latin1 tt.
Definition sample_topics (num_topics : Z) : list str :=
  NLPService.main_topics unit (fun _ => Some sample_chunks)
    (fun _ => sample_tokens) lower_latin1 tt num_topics.

End Samples.

(** * Properties *)

(** ** Slices and [rfind] *)

Section Strings.
Context {A : Type}.
Implicit Types s : list A.

Lemma len_nonneg s : 0 <= len s.
Proof. unfold len. lia. Qed.

Lemma len_app s t : len (s ++ t) = len s + len t.
Proof. unfold len. rewrite length_app. lia. Qed.

Lemma clamp_index_id n i : 0 <= i <= n -> clamp_index n i = i.
Proof.
  intros Hi. unfold clamp_index.
  destruct (Z.ltb_spec i 0); lia.
Qed.

Lemma slice_in_range s a b :
  0 <= a <= b -> b <= len s ->
  slice s a b = take (Z.to_nat (b - a)) (drop (Z.to_nat a) s).
Proof.
  intros Ha Hb. unfold slice.
  rewrite !clamp_index_id by lia. reflexivity.
Qed.

Lemma slice_len s a b :
  0 <= a <= b -> b <= len s -> len (slice s a b) = b - a.
Proof.
  intros Ha Hb. rewrite slice_in_range by assumption.
  unfold len in *. rewrite length_take, length_drop. lia.
Qed.

(** A slice followed by the rest of the sequence. *)
Lemma slice_drop s a b :
  0 <= a <= b -> b <= len s ->
  slice s a b ++ drop (Z.to_nat b) s = drop (Z.to_nat a) s.
Proof.
  intros Ha Hb. rewrite slice_in_range by assumption.
  replace (Z.to_nat b) with (Z.to_nat a + Z.to_nat (b - a))%nat by lia.
  rewrite <- drop_drop. apply take_drop.
Qed.
End Strings.

Lemma rfind_from_bounds s sub start k :
  rfind_from s sub start k = -1
  \/ start <= rfind_from s sub start k < start + Z.of_nat k.
Proof.
  induction k as [|k IH]; simpl; [now left|].
  destruct (occurs_at s sub (start + Z.of_nat k)); [right; lia|].
  destruct IH as [-> | IH]; [now left | right; lia].
Qed.

(** Within [0 <= start] and [0 <= stop <= len s], a match lies wholly
    between [start] and [stop]. *)
Lemma rfind_bounds s sub start stop :
  0 <= start -> 0 <= stop <= len s ->
  rfind s sub start stop = -1
  \/ (start <= rfind s sub start stop
      /\ rfind s sub start stop + len sub <= stop).
Proof.
  intros Hstart Hstop. unfold rfind.
  destruct (Z.gtb_spec stop (len s)); [lia|].
  destruct (Z.ltb_spec stop 0); [lia|].
  destruct (Z.ltb_spec start 0); [lia|].
  destruct (rfind_from_bounds s sub start
              (Z.to_nat (stop - len sub - start + 1))) as [-> | Hb];
    [now left | right; lia].
Qed.

Lemma text_eqb_eq s : forall t, text_eqb s t = true <-> s = t.
Proof.
  induction s as [|c s IH]; intros [|d t]; simpl; try (split; congruence).
  rewrite andb_true_iff, N.eqb_eq, IH. split; [intros [-> ->]|intros [= -> ->]]; auto.
Qed.

Section Slices.
Context {A : Type}.
Implicit Types s : list A.

Lemma slice_split s a b c :
  0 <= a <= b -> b <= c <= len s ->
  slice s a c = slice s a b ++ slice s b c.
Proof.
  intros Hab Hbc. rewrite !slice_in_range by lia.
  replace (Z.to_nat (c - a)) with (Z.to_nat (b - a) + Z.to_nat (c - b))%nat
    by lia.
  rewrite <- take_take_drop, drop_drop. do 3 f_equal. lia.
Qed.

Lemma slice_whole s : slice s 0 (len s) = s.
Proof.
  rewrite slice_in_range by (pose proof (len_nonneg s); lia).
  simpl. apply take_ge. unfold len. lia.
Qed.

Lemma len_concat (l : list (list A)) :
  len (concat l) = foldr (fun c n => len c + n) 0 l.
Proof.
  induction l as [|c l IH]; simpl; [reflexivity|].
  now rewrite len_app, IH.
Qed.
End Slices.

(** An occurrence is a slice equal to the pattern. *)
Lemma occurs_at_slice s sub i :
  0 <= i -> i + len sub <= len s -> occurs_at s sub i = true ->
  slice s i (i + len sub) = sub.
Proof.
  intros Hi Hlen Hocc. unfold occurs_at in Hocc. apply text_eqb_eq in Hocc.
  rewrite slice_in_range by (pose proof (len_nonneg sub); lia).
  etransitivity; [|exact Hocc]. f_equal. unfold len. lia.
Qed.

Lemma slice_occurs_at s sub i :
  0 <= i -> i + len sub <= len s -> slice s i (i + len sub) = sub ->
  occurs_at s sub i = true.
Proof.
  intros Hi Hlen Hslice. unfold occurs_at. apply text_eqb_eq.
  rewrite slice_in_range in Hslice by (pose proof (len_nonneg sub); lia).
  etransitivity; [|exact Hslice]. f_equal. unfold len. lia.
Qed.

(** [rfind_from] returns the highest candidate at which the pattern
    occurs. *)
Lemma rfind_from_spec s sub start k :
  0 <= start ->
  (rfind_from s sub start k = -1
   /\ forall j, start <= j < start + Z.of_nat k -> occurs_at s sub j = false)
  \/ (start <= rfind_from s sub start k < start + Z.of_nat k
      /\ occurs_at s sub (rfind_from s sub start k) = true
      /\ forall j, rfind_from s sub start k < j < start + Z.of_nat k ->
                   occurs_at s sub j = false).
Proof.
  intros Hstart. induction k as [|k IH]; simpl.
  - left. split; [reflexivity|]. intros j Hj. lia.
  - destruct (occurs_at s sub (start + Z.of_nat k)) eqn:Hocc.
    + right. split; [lia|]. split; [assumption|]. intros j Hj. lia.
    + destruct IH as [[Hnone Hall] | (Hrange & Hfound & Hall)].
      * left. split; [assumption|]. intros j Hj.
        destruct (Z.eq_dec j (start + Z.of_nat k)) as [->|]; [assumption|].
        apply Hall. lia.
      * right. split; [lia|]. split; [assumption|]. intros j Hj.
        destruct (Z.eq_dec j (start + Z.of_nat k)) as [->|]; [assumption|].
        apply Hall. lia.
Qed.

(** [s.rfind(sub, start, stop)] within [0 <= start] and
    [0 <= stop <= len(s)]: [-1] when [sub] does not occur between
    [start] and [stop], and otherwise the highest index at which it
    does. *)
Lemma rfind_spec s sub start stop :
  0 <= start -> 0 <= stop <= len s ->
  (rfind s sub start stop = -1
   /\ forall j, start <= j -> j + len sub <= stop -> occurs_at s sub j = false)
  \/ (start <= rfind s sub start stop
      /\ rfind s sub start stop + len sub <= stop
      /\ occurs_at s sub (rfind s sub start stop) = true
      /\ forall j, rfind s sub start stop < j -> j + len sub <= stop ->
                   occurs_at s sub j = false).
Proof.
  intros Hstart Hstop. unfold rfind.
  destruct (Z.gtb_spec stop (len s)); [lia|].
  destruct (Z.ltb_spec stop 0); [lia|].
  destruct (Z.ltb_spec start 0); [lia|].
  destruct (rfind_from_spec s sub start
              (Z.to_nat (stop - len sub - start + 1)) Hstart)
    as [[Hnone Hall] | (Hrange & Hfound & Hall)].
  - left. split; [assumption|]. intros j Hj1 Hj2. apply Hall. lia.
  - right. split; [lia|]. split; [lia|]. split; [assumption|].
    intros j Hj1 Hj2. apply Hall. lia.
Qed.

(** ** UTF-8 *)

(** One unfolding of the decoder. *)
Lemma utf8_decode_cons b0 r0 :
  utf8_decode (b0 :: r0)
  = let n0 := Byte.to_N b0 in
    if (n0 <? 0x80)%N then cons n0 <$> utf8_decode r0
    else if between 0xC2 0xDF n0 then
      match r0 with
      | b1 :: r1 =>
          let n1 := Byte.to_N b1 in
          if continuation n1
          then cons (N.lor (N.shiftl (N.land n0 0x1F) 6) (low6 n1))
                 <$> utf8_decode r1
          else None
      | _ => None
      end
    else if between 0xE0 0xEF n0 then
      match r0 with
      | b1 :: b2 :: r2 =>
          let n1 := Byte.to_N b1 in
          let n2 := Byte.to_N b2 in
          let lo := if (n0 =? 0xE0)%N then 0xA0%N else 0x80%N in
          let hi := if (n0 =? 0xED)%N then 0x9F%N else 0xBF%N in
          if between lo hi n1 && continuation n2
          then cons (N.lor (N.shiftl (N.land n0 0x0F) 12)
                       (N.lor (N.shiftl (low6 n1) 6) (low6 n2)))
                 <$> utf8_decode r2
          else None
      | _ => None
      end
    else if between 0xF0 0xF4 n0 then
      match r0 with
      | b1 :: b2 :: b3 :: r3 =>
          let n1 := Byte.to_N b1 in
          let n2 := Byte.to_N b2 in
          let n3 := Byte.to_N b3 in
          let lo := if (n0 =? 0xF0)%N then 0x90%N else 0x80%N in
          let hi := if (n0 =? 0xF4)%N then 0x8F%N else 0xBF%N in
          if between lo hi n1 && continuation n2 && continuation n3
          then cons (N.lor (N.shiftl (N.land n0 0x07) 18)
                       (N.lor (N.shiftl (low6 n1) 12)
                          (N.lor (N.shiftl (low6 n2) 6) (low6 n3))))
                 <$> utf8_decode r3
          else None
      | _ => None
      end
    else None.
Proof. reflexivity. Qed.

Lemma fmap_cons_one {A} (x c : A) (o : option (list A)) :
  cons x <$> o = Some [c] -> x = c /\ o = Some [].
Proof. destruct o as [l|]; simpl; [|discriminate]. intros [= -> ->]. auto. Qed.

(** Nothing but the empty sequence decodes to the empty string. *)
Lemma utf8_decode_empty bs : utf8_decode bs = Some [] -> bs = [].
Proof.
  destruct bs as [|b0 r0]; [reflexivity|]. rewrite utf8_decode_cons. cbv zeta.
  intros Hdec. exfalso.
  repeat (match type of Hdec with
          | context [if ?b then _ else _] => destruct b
          | context [match ?l with [] => _ | _ :: _ => _ end] => destruct l
          end; try discriminate);
    match type of Hdec with
    | context [utf8_decode ?l] => destruct (utf8_decode l); discriminate
    end.
Qed.

(** The encoding of one character, followed by anything: the decoder
    reads the character and goes on with what follows. *)
Lemma utf8_decode_char encoded c rest :
  utf8_decode encoded = Some [c] ->
  utf8_decode (encoded ++ rest) = cons c <$> utf8_decode rest.
Proof.
  destruct encoded as [|b0 r0]; [discriminate|].
  rewrite <- app_comm_cons, !utf8_decode_cons. cbv zeta.
  destruct (Byte.to_N b0 <? 0x80)%N.
  { intros Hdec. apply fmap_cons_one in Hdec as [-> Hdec].
    apply utf8_decode_empty in Hdec as ->. reflexivity. }
  destruct (between 0xC2 0xDF (Byte.to_N b0)).
  { destruct r0 as [|b1 r1]; [discriminate|]. simpl.
    destruct (continuation (Byte.to_N b1)); [|discriminate].
    intros Hdec. apply fmap_cons_one in Hdec as [-> Hdec].
    apply utf8_decode_empty in Hdec as ->. reflexivity. }
  destruct (between 0xE0 0xEF (Byte.to_N b0)).
  { destruct r0 as [|b1 [|b2 r2]]; try discriminate. simpl.
    destruct (between _ _ (Byte.to_N b1) && continuation (Byte.to_N b2));
      [|discriminate].
    intros Hdec. apply fmap_cons_one in Hdec as [-> Hdec].
    apply utf8_decode_empty in Hdec as ->. reflexivity. }
  destruct (between 0xF0 0xF4 (Byte.to_N b0)); [|discriminate].
  destruct r0 as [|b1 [|b2 [|b3 r3]]]; try discriminate. simpl.
  destruct (between _ _ (Byte.to_N b1) && continuation (Byte.to_N b2)
            && continuation (Byte.to_N b3)); [|discriminate].
  intros Hdec. apply fmap_cons_one in Hdec as [-> Hdec].
  apply utf8_decode_empty in Hdec as ->. reflexivity.
Qed.

Lemma all_below_spec n P :
  all_below n P = true -> forall i, (i < n)%N -> P i = true.
Proof.
  unfold all_below.
  assert (Hiter : forall m,
            let r := N.iter m (fun '(i, ok) => ((i + 1)%N, ok && P i))
                       (0%N, true) in
            r.1 = m
            /\ (r.2 = true -> forall i, (i < m)%N -> P i = true)).
  { induction m as [|m IH] using N.peano_ind.
    - simpl. split; [reflexivity|]. intros _ i Hi. lia.
    - rewrite N.iter_succ. cbv zeta in *.
      destruct (N.iter m _ _) as [j ok]. simpl in *.
      destruct IH as [-> IH]. split; [lia|].
      intros Hok i Hi. apply andb_true_iff in Hok as [Hok HP].
      destruct (N.eq_dec i m) as [->|]; [assumption|].
      apply IH; [assumption|lia]. }
  intros Hall. apply (Hiter n). exact Hall.
Qed.

(** The code points of the Basic Multilingual Plane, tried one by
    one. *)
Lemma reads_back_low : all_below 0x10000 reads_back = true.
Proof. vm_cast_no_check (eq_refl true). Qed.

Lemma lor_shiftl_add a k b :
  (b < 2 ^ k)%N -> N.lor (N.shiftl a k) b = (a * 2 ^ k + b)%N.
Proof.
  intros Hb.
  assert (Hland : N.land (N.shiftl a k) b = 0%N).
  { apply N.bits_inj. intros n. rewrite N.land_spec, N.bits_0.
    destruct (N.lt_ge_cases n k) as [Hlow|Hhigh].
    - now rewrite N.shiftl_spec_low.
    - destruct (N.eq_dec b 0%N) as [->|Hpos].
      + rewrite N.bits_0. apply andb_false_r.
      + rewrite (N.bits_above_log2 b n); [apply andb_false_r|].
        apply N.lt_le_trans with k; [|assumption].
        apply N.log2_lt_pow2; lia. }
  rewrite <- N.lxor_lor, <- N.add_nocarry_lxor, N.shiftl_mul_pow2 by assumption.
  reflexivity.
Qed.

Lemma between_spec lo hi n :
  between lo hi n = true <-> (lo <= n <= hi)%N.
Proof.
  unfold between. rewrite andb_true_iff, !N.leb_le. reflexivity.
Qed.

Lemma lead4_back_all : all_below 8 lead4_back = true.
Proof. vm_compute. reflexivity. Qed.

Lemma continuation_back_all : all_below 64 continuation_back = true.
Proof. vm_compute. reflexivity. Qed.

Lemma continuation_read y :
  (y < 64)%N ->
  let n := Byte.to_N (octet (N.lor 0x80 y)) in
  n = (0x80 + y)%N /\ low6 n = y.
Proof.
  intros Hy. pose proof (all_below_spec _ _ continuation_back_all y Hy) as H.
  unfold continuation_back in H. cbv zeta in *.
  apply andb_true_iff in H as [H1 H2].
  apply N.eqb_eq in H1, H2. auto.
Qed.

Lemma low6_mod n : low6 n = (n mod 64)%N.
Proof. unfold low6. exact (N.land_ones n 6). Qed.

(** The code points of the supplementary planes are read back from
    their four bytes. *)
Lemma reads_back_high c encoded :
  (0x10000 <= c < 0x110000)%N ->
  utf8_encode_char c = Some encoded -> utf8_decode encoded = Some [c].
Proof.
  intros Hc. unfold utf8_encode_char.
  destruct (N.ltb_spec c 0x80); [lia|].
  destruct (N.ltb_spec c 0x800); [lia|].
  destruct (between 0xD800 0xDFFF c) eqn:Hsur.
  { apply between_spec in Hsur. lia. }
  destruct (N.ltb_spec c 0x10000); [lia|].
  destruct (N.ltb_spec c 0x110000); [|lia].
  intros [= <-].
  rewrite !low6_mod, !N.shiftr_div_pow2.
  change (2 ^ 18)%N with 262144%N. change (2 ^ 12)%N with 4096%N.
  change (2 ^ 6)%N with 64%N.
  set (a := (c / 262144)%N). set (b := ((c / 4096) mod 64)%N).
  set (d := ((c / 64) mod 64)%N). set (e := (c mod 64)%N).
  assert (Hb : (b < 64)%N) by (apply N.mod_lt; lia).
  assert (Hd : (d < 64)%N) by (apply N.mod_lt; lia).
  assert (He : (e < 64)%N) by (apply N.mod_lt; lia).
  assert (Hsum : c = (a * 262144 + (b * 4096 + (d * 64 + e)))%N).
  { unfold a, b, d, e.
    pose proof (N.div_mod c 64 ltac:(lia)).
    pose proof (N.div_mod (c / 64) 64 ltac:(lia)).
    pose proof (N.div_mod (c / 4096) 64 ltac:(lia)).
    assert (c / 4096 = c / 64 / 64)%N as H64
      by (rewrite N.Div0.div_div; reflexivity).
    assert (c / 262144 = c / 4096 / 64)%N as H4096
      by (rewrite N.Div0.div_div; reflexivity).
    lia. }
  assert (Ha : (a < 8)%N) by lia.
  pose proof (all_below_spec _ _ lead4_back_all a Ha) as Hlead.
  unfold lead4_back in Hlead. cbv zeta in Hlead.
  apply andb_true_iff in Hlead as [Hn0 Hmask].
  apply N.eqb_eq in Hn0, Hmask.
  destruct (continuation_read b Hb) as [Hn1 Hb6].
  destruct (continuation_read d Hd) as [Hn2 Hd6].
  destruct (continuation_read e He) as [Hn3 He6].
  rewrite utf8_decode_cons. cbv zeta.
  rewrite Hmask, Hb6, Hd6, He6. rewrite Hn0, Hn1, Hn2, Hn3.
  destruct (N.ltb_spec (0xF0 + a) 0x80); [lia|].
  destruct (between 0xC2 0xDF (0xF0 + a)) eqn:Hb2.
  { apply between_spec in Hb2. lia. }
  destruct (between 0xE0 0xEF (0xF0 + a)) eqn:Hb3.
  { apply between_spec in Hb3. lia. }
  destruct (between 0xF0 0xF4 (0xF0 + a)) eqn:Hb4.
  2:{ exfalso. apply not_true_iff_false in Hb4. apply Hb4.
      apply between_spec. lia. }
  assert (Hlo : between (if (0xF0 + a =? 0xF0)%N then 0x90 else 0x80)%N
                  (if (0xF0 + a =? 0xF4)%N then 0x8F else 0xBF)%N
                  (0x80 + b) = true).
  { apply between_spec.
    destruct (N.eqb_spec (0xF0 + a) 0xF0), (N.eqb_spec (0xF0 + a) 0xF4); lia. }
  rewrite Hlo.
  assert (Hcd : continuation (0x80 + d) = true)
    by (apply between_spec; lia).
  assert (Hce : continuation (0x80 + e) = true)
    by (apply between_spec; lia).
  rewrite Hcd, Hce. simpl.
  f_equal. f_equal.
  rewrite (lor_shiftl_add d 6 e) by (change (2 ^ 6)%N with 64%N; lia).
  change (2 ^ 6)%N with 64%N.
  rewrite (lor_shiftl_add b 12) by (change (2 ^ 12)%N with 4096%N; lia).
  change (2 ^ 12)%N with 4096%N.
  rewrite (lor_shiftl_add a 18) by (change (2 ^ 18)%N with 262144%N; lia).
  change (2 ^ 18)%N with 262144%N.
  lia.
Qed.

(** Every code point that has an encoding is read back from it. *)
Lemma utf8_encode_char_decode c encoded :
  utf8_encode_char c = Some encoded -> utf8_decode encoded = Some [c].
Proof.
  intros Henc.
  destruct (N.ltb_spec c 0x10000) as [Hlow|Hhigh].
  - pose proof (all_below_spec _ _ reads_back_low c Hlow) as Hback.
    unfold reads_back in Hback. rewrite Henc in Hback.
    destruct (utf8_decode encoded) as [[|c' [|]]|]; try discriminate.
    apply N.eqb_eq in Hback. now subst.
  - apply reads_back_high; [|assumption]. split; [assumption|].
    unfold utf8_encode_char in Henc.
    destruct (N.ltb_spec c 0x80); [lia|].
    destruct (N.ltb_spec c 0x800); [lia|].
    destruct (between 0xD800 0xDFFF c); [discriminate|].
    destruct (N.ltb_spec c 0x10000); [lia|].
    destruct (N.ltb_spec c 0x110000); [assumption|discriminate].
Qed.

(** What [str.encode] produces, [bytes.decode('utf-8')] reads back. *)
Lemma utf8_encode_decode s encoded :
  utf8_encode s = Some encoded -> utf8_decode encoded = Some s.
Proof.
  revert encoded. induction s as [|c s IH]; intros encoded; simpl.
  - intros [= <-]. reflexivity.
  - destruct (utf8_encode_char c) as [b|] eqn:Hc; [|discriminate].
    destruct (utf8_encode s) as [bs|]; [|discriminate].
    intros [= <-].
    rewrite (utf8_decode_char b c bs) by now apply utf8_encode_char_decode.
    now rewrite (IH bs).
Qed.

(** X15. The UTF-8 round trip: a string that [str.encode] can encode
    (one without surrogates, all code points up to U+10FFFF) is read
    back by [bytes.decode('utf-8')] from its encoding, and no other
    string has the same encoding. *)
Theorem utf8_round_trip s encoded :
  utf8_encode s = Some encoded ->
  utf8_decode encoded = Some s
  /\ forall s', utf8_encode s' = Some encoded -> s' = s.
Proof.
  intros Henc. split; [now apply utf8_encode_decode|].
  intros s' Henc'.
  apply utf8_encode_decode in Henc, Henc'. congruence.
Qed.

Lemma utf8_round_trip_witness :
  utf8_encode (lit "oxígeno 🌱") = Some (list_byte_of_string "oxígeno 🌱")
  /\ utf8_decode (list_byte_of_string "oxígeno 🌱") = Some (lit "oxígeno 🌱").
Proof.
  assert (Henc : utf8_encode (lit "oxígeno 🌱")
                 = Some (list_byte_of_string "oxígeno 🌱"))
    by (vm_compute; reflexivity).
  split; [exact Henc|]. exact (proj1 (utf8_round_trip _ _ Henc)).
Defined.

(** ** Dictionaries *)

Section DictProps.
Context {V : Type}.
Implicit Types (d : list (str * V)) (k : str) (v : V).

Lemma dict_get_set d k k' v :
  dict_get k' (dict_set k v d)
  = if decide (k' = k) then Some v else dict_get k' d.
Proof.
  induction d as [|[k0 v0] d IH]; simpl.
  - destruct (decide (k = k')), (decide (k' = k)); congruence.
  - destruct (decide (k0 = k)) as [->|Hne]; simpl.
    + destruct (decide (k = k')), (decide (k' = k)); congruence.
    + rewrite IH. destruct (decide (k0 = k')), (decide (k' = k)); congruence.
Qed.

Lemma dict_set_keys d k v x :
  x ∈ (dict_set k v d).*1 <-> x = k \/ x ∈ d.*1.
Proof.
  induction d as [|[k0 v0] d IH]; simpl.
  - rewrite list_elem_of_singleton, elem_of_nil. tauto.
  - destruct (decide (k0 = k)) as [->|Hne]; simpl;
      rewrite !elem_of_cons; [tauto|]. rewrite IH. tauto.
Qed.

Lemma dict_set_NoDup d k v : NoDup d.*1 -> NoDup (dict_set k v d).*1.
Proof.
  induction d as [|[k0 v0] d IH]; simpl; intros Hnd.
  - repeat constructor. apply not_elem_of_nil.
  - apply NoDup_cons in Hnd as [Hk0 Hnd].
    destruct (decide (k0 = k)) as [->|Hne]; simpl.
    + now apply NoDup_cons.
    + apply NoDup_cons. split; [|auto].
      rewrite dict_set_keys. intros [?|?]; [congruence|contradiction].
Qed.

Lemma dict_get_Some d k v : dict_get k d = Some v -> (k, v) ∈ d.
Proof.
  induction d as [|[k0 v0] d IH]; simpl; [discriminate|].
  destruct (decide (k0 = k)) as [->|Hne].
  - intros [= ->]. constructor.
  - intros Hget. constructor. auto.
Qed.

Lemma dict_get_elem d k v : NoDup d.*1 -> (k, v) ∈ d -> dict_get k d = Some v.
Proof.
  induction d as [|[k0 v0] d IH]; simpl; intros Hnd Hin.
  - inversion Hin.
  - apply NoDup_cons in Hnd as [Hk0 Hnd].
    apply elem_of_cons in Hin as [[= -> ->]|Hin].
    + now destruct (decide (k0 = k0)).
    + destruct (decide (k0 = k)) as [->|Hne]; [|auto].
      exfalso. apply Hk0. now apply (list_elem_of_fmap_2 fst _ (k, v)).
Qed.
Lemma dict_get_None d k : k ∉ d.*1 <-> dict_get k d = None.
Proof.
  induction d as [|[k0 v0] d IH]; simpl.
  - split; [reflexivity|]. intros _. apply not_elem_of_nil.
  - rewrite not_elem_of_cons, IH. destruct (decide (k0 = k)) as [->|Hne].
    + split; [intros [? _]; congruence|discriminate].
    + split; [tauto|]. intros ?. split; [congruence|assumption].
Qed.

Lemma dict_set_present d k v :
  k ∈ d.*1 -> (dict_set k v d).*1 = d.*1.
Proof.
  induction d as [|[k0 v0] d IH]; intros Hin.
  - inversion Hin.
  - cbn [dict_set]. destruct (decide (k0 = k)) as [->|Hne];
      rewrite !fmap_cons; [reflexivity|].
    rewrite fmap_cons in Hin.
    apply elem_of_cons in Hin as [?|Hin]; [simpl in *; congruence|].
    now rewrite IH.
Qed.

Lemma dict_get_is_Some d k v : dict_get k d = Some v -> k ∈ d.*1.
Proof.
  intros Hget. destruct (decide (k ∈ d.*1)) as [|Hnot]; [assumption|].
  apply dict_get_None in Hnot. congruence.
Qed.

Lemma dict_get_fmap {W} (f : V -> W) d k :
  dict_get k (prod_map id f <$> d) = f <$> dict_get k d.
Proof.
  induction d as [|[k0 v0] d IH]; [reflexivity|].
  rewrite fmap_cons. cbn [prod_map dict_get fst snd id].
  destruct (decide (k0 = k)); [reflexivity|assumption].
Qed.

Lemma dict_fmap_keys {W} (f : V -> W) d : (prod_map id f <$> d).*1 = d.*1.
Proof.
  induction d as [|[k0 v0] d IH]; [reflexivity|].
  rewrite !fmap_cons, IH. reflexivity.
Qed.
End DictProps.

(** ** [chunk_text] *)

Module UtilsProps.
Import Utils Samples.

(** Every pass of the loop cuts strictly after [current_pos], and never
    further than [chunk_size] characters or the end of the text
    away. *)
Lemma split_point_bounds text chunk_size current_pos :
  1 <= chunk_size -> 0 <= current_pos < len text ->
  current_pos < split_point text chunk_size current_pos
  /\ split_point text chunk_size current_pos
     <= Z.min (current_pos + chunk_size) (len text).
Proof.
  intros Hsize Hpos. unfold split_point.
  set (end_pos := Z.min (current_pos + chunk_size) (len text)).
  assert (Hend : current_pos < end_pos <= len text) by (unfold end_pos; lia).
  destruct (Z.ltb_spec end_pos (len text)) as [Hlt|]; [|lia].
  pose proof (rfind_bounds text [NEWLINE; NEWLINE] current_pos end_pos) as Hp.
  pose proof (rfind_bounds text [PERIOD; SPACE] current_pos end_pos) as Hs.
  pose proof (rfind_bounds text [SPACE] current_pos end_pos) as Hb.
  change (len [NEWLINE; NEWLINE]) with 2 in Hp.
  change (len [PERIOD; SPACE]) with 2 in Hs.
  change (len [SPACE]) with 1 in Hb.
  destruct (Z.gtb_spec (rfind text [NEWLINE; NEWLINE] current_pos end_pos)
              current_pos); [lia|].
  destruct (Z.gtb_spec (rfind text [PERIOD; SPACE] current_pos end_pos)
              current_pos); [lia|].
  destruct (Z.gtb_spec (rfind text [SPACE] current_pos end_pos)
              current_pos); lia.
Qed.

(** The loop, started anywhere in the text with fuel for the characters
    that remain: it ends at the end of the text, having appended chunks
    that spell out exactly what remained. *)
Lemma chunk_loop_spec fuel : forall text chunk_size chunks current_pos,
  1 <= chunk_size -> 0 <= current_pos <= len text ->
  len text - current_pos <= Z.of_nat fuel ->
  exists new,
    chunk_loop fuel text chunk_size chunks current_pos
      = Some (chunks ++ new, len text)
    /\ concat new = drop (Z.to_nat current_pos) text
    /\ Forall (bounded chunk_size) new
    /\ (current_pos < len text -> new <> []).
Proof.
  induction fuel as [|fuel IH]; intros text chunk_size chunks current_pos
    Hsize Hpos Hfuel.
  - assert (current_pos = len text) as -> by lia.
    exists []. simpl. rewrite Z.ltb_irrefl, app_nil_r.
    repeat split; [|constructor|lia].
    symmetry. apply drop_ge. unfold len. lia.
  - simpl. destruct (Z.ltb_spec current_pos (len text)) as [Hlt|Hge].
    + destruct (split_point_bounds text chunk_size current_pos) as [Hadv Hmax];
        [lia..|].
      set (end_pos := split_point text chunk_size current_pos) in *.
      destruct (IH text chunk_size
                  (chunks ++ [slice text current_pos end_pos]) end_pos)
        as (new & Hrun & Hcat & Hall & _); [lia..|].
      exists (slice text current_pos end_pos :: new).
      rewrite Hrun, <- app_assoc. simpl.
      repeat split; [|constructor; [|assumption]|discriminate].
      * rewrite Hcat. apply slice_drop; lia.
      * unfold bounded. rewrite slice_len by lia. lia.
    + assert (current_pos = len text) as -> by lia.
      exists []. rewrite app_nil_r.
      repeat split; [|constructor|lia].
      symmetry. apply drop_ge. unfold len. lia.
Qed.

(** More fuel does not change the result of a loop that ended. *)
Lemma chunk_loop_fuel_mono fuel : forall fuel' text chunk_size chunks pos r,
  chunk_loop fuel text chunk_size chunks pos = Some r ->
  (fuel <= fuel')%nat ->
  chunk_loop fuel' text chunk_size chunks pos = Some r.
Proof.
  induction fuel as [|fuel IH]; intros fuel' text chunk_size chunks pos r;
    simpl; intros Hrun Hle.
  - destruct fuel'; simpl; destruct (pos <? len text); congruence.
  - destruct fuel' as [|fuel']; [lia|]. simpl.
    destruct (pos <? len text); [|assumption].
    apply IH; [assumption|lia].
Qed.

Lemma chunk_loop_fuel_enough text chunk_size :
  1 <= chunk_size ->
  exists chunks,
    chunk_loop (length text) text chunk_size [] 0 = Some (chunks, len text)
    /\ concat chunks = text
    /\ Forall (bounded chunk_size) chunks
    /\ (text <> [] -> chunks <> []).
Proof.
  intros Hsize.
  destruct (chunk_loop_spec (length text) text chunk_size [] 0)
    as (new & Hrun & Hcat & Hall & Hne);
    [assumption|pose proof (len_nonneg text); lia|unfold len; lia|].
  exists new. repeat split; try assumption.
  intros Htext. apply Hne. destruct text; [congruence|].
  unfold len. simpl. lia.
Qed.

(** What [chunk_text] returns for a chunk size of at least one. *)
Lemma chunk_text_spec text chunk_size :
  1 <= chunk_size ->
  exists chunks,
    chunk_text text chunk_size = Some chunks
    /\ concat chunks = text
    /\ Forall (fun chunk => len chunk <= chunk_size) chunks
    /\ chunks <> []
    /\ (len text <= chunk_size -> chunks = [text])
    /\ (chunk_size < len text -> Forall (fun chunk => chunk <> []) chunks).
Proof.
  intros Hsize. unfold chunk_text, chunk_text_fuel.
  destruct (Z.leb_spec (len text) chunk_size) as [Hshort|Hlong].
  - exists [text]. simpl. rewrite app_nil_r.
    repeat split; [repeat constructor; assumption|discriminate|lia].
  - destruct (chunk_loop_fuel_enough text chunk_size Hsize)
      as (chunks & Hrun & Hcat & Hall & Hne).
    exists chunks. rewrite Hrun. simpl.
    repeat split; try assumption.
    + eapply Forall_impl; [exact Hall|]. unfold bounded. simpl. lia.
    + apply Hne. intros ->. unfold len in Hlong. simpl in Hlong. lia.
    + lia.
    + intros _. eapply Forall_impl; [exact Hall|].
      unfold bounded. intros chunk Hb ->. unfold len in Hb. simpl in Hb. lia.
Qed.

(** C1. Chunk reconstruction: for every text and every chunk size of at
    least one, [chunk_text] returns, and the chunks it returns,
    concatenated in order, are the text itself. *)
Theorem chunk_text_concat text chunk_size :
  1 <= chunk_size ->
  exists chunks,
    chunk_text text chunk_size = Some chunks /\ concat chunks = text.
Proof.
  intros Hsize.
  destruct (chunk_text_spec text chunk_size Hsize) as (chunks & Hrun & Hcat & _).
  exists chunks. split; assumption.
Qed.

Lemma chunk_text_concat_witness :
  1 <= 12
  /\ exists chunks,
       chunk_text (lit "Uno dos. Tres cuatro cinco seis") 12 = Some chunks
       /\ concat chunks = lit "Uno dos. Tres cuatro cinco seis".
Proof.
  split; [lia|].
  apply (chunk_text_concat (lit "Uno dos. Tres cuatro cinco seis") 12). lia.
Defined.

(** C2. Chunk boundedness: for every text and every chunk size of at
    least one, every chunk that [chunk_text] returns has at most
    [chunk_size] characters. The bound holds for every chunk: where no
    break is found the text is cut at the budget, in the middle of a
    token, so the exception the claim allows for a long unbroken token is
    never taken. *)
Theorem chunk_text_bounded text chunk_size :
  1 <= chunk_size ->
  exists chunks,
    chunk_text text chunk_size = Some chunks
    /\ Forall (fun chunk => len chunk <= chunk_size) chunks.
Proof.
  intros Hsize.
  destruct (chunk_text_spec text chunk_size Hsize)
    as (chunks & Hrun & _ & Hall & _).
  exists chunks. split; assumption.
Qed.

Lemma chunk_text_bounded_witness :
  1 <= 4
  /\ exists chunks,
       chunk_text (lit "Supercalifragilistico") 4 = Some chunks
       /\ Forall (fun chunk => len chunk <= 4) chunks.
Proof.
  split; [lia|].
  apply (chunk_text_bounded (lit "Supercalifragilistico") 4). lia.
Defined.

(** C3. Termination: for every text and every chunk size of at least
    one, (a) a pass of the loop started at any position inside the text
    ends strictly further, and not beyond the end of the text; (b) the
    loop started at position 0 ends, within as many passes as the text
    has characters, at the end of the text, and with the same chunks
    whatever larger bound is put on the number of passes; (c)
    [chunk_text] returns, and for a non-empty text it returns at least
    one chunk. *)
Theorem chunk_text_terminates text chunk_size :
  1 <= chunk_size ->
  (forall current_pos,
     0 <= current_pos < len text ->
     current_pos < split_point text chunk_size current_pos <= len text)
  /\ (exists chunks,
        forall fuel,
          (length text <= fuel)%nat ->
          chunk_loop fuel text chunk_size [] 0 = Some (chunks, len text))
  /\ (exists chunks,
        chunk_text text chunk_size = Some chunks
        /\ (text <> [] -> chunks <> [])).
Proof.
  intros Hsize. split; [|split].
  - intros current_pos Hpos.
    destruct (split_point_bounds text chunk_size current_pos Hsize Hpos). lia.
  - destruct (chunk_loop_fuel_enough text chunk_size Hsize)
      as (chunks & Hrun & _).
    exists chunks. intros fuel Hfuel.
    eapply chunk_loop_fuel_mono; eassumption.
  - destruct (chunk_text_spec text chunk_size Hsize)
      as (chunks & Hrun & _ & _ & Hne & _).
    exists chunks. split; [assumption|]. intros _. exact Hne.
Qed.

Lemma chunk_text_terminates_witness :
  1 <= 1
  /\ exists chunks,
       chunk_text (lit "abc") 1 = Some chunks
       /\ (lit "abc" <> [] -> chunks <> []).
Proof.
  split; [lia|].
  apply (chunk_text_terminates (lit "abc") 1). lia.
Defined.

(** *** Further properties of [chunk_text] *)

Lemma suffix_of_slice text sub current_pos i :
  0 <= current_pos <= i -> i + len sub <= len text ->
  occurs_at text sub i = true ->
  sub `suffix_of` slice text current_pos (i + len sub).
Proof.
  intros Hpos Hlen Hocc. pose proof (len_nonneg sub).
  rewrite (slice_split text current_pos i) by lia.
  rewrite (occurs_at_slice text sub i) by (assumption || lia).
  now apply suffix_app_r.
Qed.

(** A cut placed after the match that [rfind] found: the chunk ends
    with the pattern. *)
Lemma cut_after_match text sub current_pos end_pos :
  0 <= current_pos -> 0 <= end_pos <= len text ->
  (rfind text sub current_pos end_pos >? current_pos) = true ->
  sub `suffix_of`
    slice text current_pos (rfind text sub current_pos end_pos + len sub).
Proof.
  intros Hpos Hend Hfound. apply Z.gtb_lt in Hfound.
  destruct (rfind_spec text sub current_pos end_pos Hpos Hend)
    as [[Hnone _] | (Hr1 & Hr2 & Hr3 & _)]; [lia|].
  apply suffix_of_slice; [lia|lia|assumption].
Qed.

(** A pass of the loop either reaches the end of the text or cuts a
    chunk that fills the budget or ends at a break. *)
Lemma split_point_natural text chunk_size current_pos :
  1 <= chunk_size -> 0 <= current_pos < len text ->
  split_point text chunk_size current_pos = len text
  \/ natural_cut chunk_size
       (slice text current_pos (split_point text chunk_size current_pos)).
Proof.
  intros Hsize Hpos. unfold split_point.
  set (end_pos := Z.min (current_pos + chunk_size) (len text)).
  destruct (Z.ltb_spec end_pos (len text)) as [Hlt|]; [|left; lia].
  right. unfold natural_cut.
  assert (Hend : 0 <= end_pos <= len text) by lia.
  destruct (rfind text [NEWLINE; NEWLINE] current_pos end_pos >? current_pos)
    eqn:Hparagraph.
  { right. right.
    apply (cut_after_match text [NEWLINE; NEWLINE]); [lia|lia|assumption]. }
  destruct (rfind text [PERIOD; SPACE] current_pos end_pos >? current_pos)
    eqn:Hsentence.
  { right. left. transitivity [PERIOD; SPACE]; [now exists [PERIOD]|].
    apply (cut_after_match text [PERIOD; SPACE]); [lia|lia|assumption]. }
  destruct (rfind text [SPACE] current_pos end_pos >? current_pos) eqn:Hspace.
  { right. left.
    apply (cut_after_match text [SPACE]); [lia|lia|assumption]. }
  left. rewrite slice_len by lia. lia.
Qed.

(** The loop again, with what it says about the cuts. *)
Lemma chunk_loop_cuts fuel : forall text chunk_size chunks current_pos,
  1 <= chunk_size -> 0 <= current_pos <= len text ->
  len text - current_pos <= Z.of_nat fuel ->
  exists new,
    chunk_loop fuel text chunk_size chunks current_pos
      = Some (chunks ++ new, len text)
    /\ all_but_last (natural_cut chunk_size) new.
Proof.
  induction fuel as [|fuel IH]; intros text chunk_size chunks current_pos
    Hsize Hpos Hfuel.
  - assert (current_pos = len text) as -> by lia.
    exists []. simpl. rewrite Z.ltb_irrefl, app_nil_r.
    split; [reflexivity|]. intros [|x init] last Heq; discriminate.
  - simpl. destruct (Z.ltb_spec current_pos (len text)) as [Hlt|Hge].
    + destruct (split_point_bounds text chunk_size current_pos) as [Hadv Hmax];
        [lia..|].
      pose proof (split_point_natural text chunk_size current_pos Hsize
                    (conj (proj1 Hpos) Hlt)) as Hcut.
      set (end_pos := split_point text chunk_size current_pos) in *.
      destruct (IH text chunk_size
                  (chunks ++ [slice text current_pos end_pos]) end_pos)
        as (new & Hrun & Hnew); [lia..|].
      exists (slice text current_pos end_pos :: new).
      rewrite Hrun, <- app_assoc. split; [reflexivity|].
      intros init last Heq. destruct init as [|x init]; [constructor|].
      simpl in Heq. injection Heq as Hx Hrest. subst x.
      constructor; [|now apply (Hnew init last)].
      destruct Hcut as [Hend|Hcut]; [|assumption]. exfalso.
      (* at the end of the text the loop stops: nothing follows *)
      destruct fuel; simpl in Hrun;
        rewrite Hend, Z.ltb_irrefl in Hrun;
        injection Hrun as Hrun; apply (f_equal length) in Hrun;
        rewrite Hrest, !length_app in Hrun; simpl in Hrun; lia.
    + exists []. rewrite app_nil_r. assert (current_pos = len text) as -> by lia.
      split; [reflexivity|]. intros [|x init] last Heq; discriminate.
Qed.

Lemma len_concat_le (chunks : list str) chunk_size :
  Forall (fun chunk => len chunk <= chunk_size) chunks ->
  len (concat chunks) <= chunk_size * len chunks.
Proof.
  induction 1 as [|c l Hc _ IH]; simpl.
  - unfold len. simpl. lia.
  - rewrite len_app. change (len (c :: l)) with (Z.of_nat (S (length l))).
    unfold len in *. lia.
Qed.

Lemma len_concat_ge (chunks : list str) :
  Forall (fun chunk => chunk <> []) chunks ->
  len chunks <= len (concat chunks).
Proof.
  induction 1 as [|c l Hc _ IH]; simpl.
  - unfold len. simpl. lia.
  - rewrite len_app. change (len (c :: l)) with (Z.of_nat (S (length l))).
    assert (0 < len c) by (destruct c; [congruence|unfold len; simpl; lia]).
    unfold len in *. lia.
Qed.

(** X1. The number of chunks: for a chunk size of at least one there
    are at least [len(text) / chunk_size] chunks, and for a text longer
    than the chunk size there are at most [len(text)] of them (no chunk
    is empty). *)
Theorem chunk_text_count text chunk_size :
  1 <= chunk_size ->
  exists chunks,
    chunk_text text chunk_size = Some chunks
    /\ len text <= chunk_size * len chunks
    /\ (chunk_size < len text -> len chunks <= len text).
Proof.
  intros Hsize.
  destruct (chunk_text_spec text chunk_size Hsize)
    as (chunks & Hrun & Hcat & Hall & _ & _ & Hfull).
  exists chunks. split; [assumption|]. split.
  - rewrite <- Hcat at 1. now apply len_concat_le.
  - intros Hlong. rewrite <- Hcat at 1. apply len_concat_ge. auto.
Qed.

Lemma chunk_text_count_witness :
  1 <= 4
  /\ exists chunks,
       chunk_text (lit "uno dos tres") 4 = Some chunks
       /\ len (lit "uno dos tres") <= 4 * len chunks
       /\ (4 < len (lit "uno dos tres") ->
           len chunks <= len (lit "uno dos tres")).
Proof.
  split; [lia|]. apply (chunk_text_count (lit "uno dos tres") 4). lia.
Defined.

(** X2. Natural boundaries: for a chunk size of at least one, every
    chunk but the last either has exactly [chunk_size] characters or
    ends with a space or with a blank line (two newlines). *)
Theorem chunk_text_natural_cuts text chunk_size :
  1 <= chunk_size ->
  exists chunks,
    chunk_text text chunk_size = Some chunks
    /\ all_but_last (natural_cut chunk_size) chunks.
Proof.
  intros Hsize. unfold chunk_text, chunk_text_fuel.
  destruct (Z.leb_spec (len text) chunk_size) as [Hshort|Hlong].
  - exists [text]. split; [reflexivity|].
    intros [|x [|y init]] last Heq; try discriminate. constructor.
  - destruct (chunk_loop_cuts (length text) text chunk_size [] 0)
      as (new & Hrun & Hnew);
      [assumption|pose proof (len_nonneg text); lia|unfold len; lia|].
    exists new. rewrite Hrun. split; [reflexivity|assumption].
Qed.

Lemma chunk_text_natural_cuts_witness :
  1 <= 6
  /\ exists chunks,
       chunk_text (lit "uno dos. tres cuatro") 6 = Some chunks
       /\ all_but_last (natural_cut 6) chunks.
Proof.
  split; [lia|].
  apply (chunk_text_natural_cuts (lit "uno dos. tres cuatro") 6). lia.
Defined.

(** X3. Paragraph breaks come first: when the budget does not reach
    the end of the text and a blank line lies in the window after the
    current position, the chunk is cut right after the last blank line
    of the window, whatever sentence ends or spaces follow it. *)
Theorem split_point_paragraph text chunk_size current_pos break :
  1 <= chunk_size -> 0 <= current_pos ->
  current_pos + chunk_size < len text ->
  current_pos < break -> break + 2 <= current_pos + chunk_size ->
  occurs_at text [NEWLINE; NEWLINE] break = true ->
  (forall j, break < j -> j + 2 <= current_pos + chunk_size ->
             occurs_at text [NEWLINE; NEWLINE] j = false) ->
  split_point text chunk_size current_pos = break + 2.
Proof.
  intros Hsize Hpos Hwin Hafter Hfits Hocc Hlast. unfold split_point.
  replace (Z.min (current_pos + chunk_size) (len text))
    with (current_pos + chunk_size) by lia.
  destruct (Z.ltb_spec (current_pos + chunk_size) (len text)); [|lia].
  destruct (rfind_spec text [NEWLINE; NEWLINE] current_pos
              (current_pos + chunk_size))
    as [[_ Hnone] | (Hr1 & Hr2 & Hr3 & Hr4)]; [lia|lia| |].
  - rewrite (Hnone break) in Hocc; [discriminate|lia|].
    change (len [NEWLINE; NEWLINE]) with 2. lia.
  - change (len [NEWLINE; NEWLINE]) with 2 in *.
    set (r := rfind text [NEWLINE; NEWLINE] current_pos
                (current_pos + chunk_size)) in *.
    assert (r = break) as ->.
    { destruct (Z.lt_trichotomy r break) as [Hlt | [Heq | Hgt]];
        [|assumption|].
      - rewrite (Hr4 break) in Hocc; [discriminate|lia|lia].
      - rewrite (Hlast r) in Hr3; [discriminate|lia|lia]. }
    destruct (Z.gtb_spec break current_pos); [reflexivity|lia].
Qed.

Lemma split_point_paragraph_witness :
  split_point (lit "uno

dos tres cuatro cinco") 12 0 = 5.
Proof.
  apply (split_point_paragraph (lit "uno

dos tres cuatro cinco") 12 0 3); try (vm_compute; congruence).
  intros j Hj1 Hj2.
  assert (j = 4 \/ j = 5 \/ j = 6 \/ j = 7 \/ j = 8 \/ j = 9 \/ j = 10)
    as [-> | [-> | [-> | [-> | [-> | [-> | ->]]]]]] by lia;
    reflexivity.
Defined.

(** X4. A chunk size of zero: for every non-empty text the loop makes
    no progress (each pass appends an empty chunk and leaves the
    position where it was), so [chunk_text] does not return, whatever
    the number of passes allowed. *)
Theorem chunk_text_zero_size text :
  text <> [] ->
  (forall current_pos,
     0 <= current_pos < len text -> split_point text 0 current_pos = current_pos)
  /\ forall fuel, chunk_text_fuel fuel text 0 = None.
Proof.
  intros Htext.
  assert (Hlen : 0 < len text).
  { destruct text; [congruence|]. unfold len. simpl. lia. }
  assert (Hstay : forall current_pos,
             0 <= current_pos < len text ->
             split_point text 0 current_pos = current_pos).
  { intros current_pos Hpos. unfold split_point.
    replace (Z.min (current_pos + 0) (len text)) with current_pos by lia.
    destruct (Z.ltb_spec current_pos (len text)); [|lia].
    assert (Hnone : forall sub, 0 < len sub ->
              rfind text sub current_pos current_pos = -1).
    { intros sub Hsub.
      destruct (rfind_bounds text sub current_pos current_pos); lia. }
    rewrite !Hnone by (unfold len; simpl; lia).
    destruct (Z.gtb_spec (-1) current_pos); [lia|reflexivity]. }
  split; [exact Hstay|].
  intros fuel. unfold chunk_text_fuel.
  destruct (Z.leb_spec (len text) 0); [lia|].
  assert (Hloop : forall chunks, chunk_loop fuel text 0 chunks 0 = None).
  { induction fuel as [|fuel IH]; intros chunks; simpl;
      destruct (Z.ltb_spec 0 (len text)); try lia; [reflexivity|].
    rewrite Hstay by lia. apply IH. }
  now rewrite Hloop.
Qed.

Lemma chunk_text_zero_size_witness :
  lit "abc" <> [] /\ forall fuel, chunk_text_fuel fuel (lit "abc") 0 = None.
Proof.
  split; [discriminate|].
  apply (chunk_text_zero_size (lit "abc")). discriminate.
Defined.

(** *** [merge_chunks] *)

Section MergeProps.
Variable elem : Type.
Variable other : Type.
Variable char_elem : N -> elem.
Local Abbreviation dict := (list (str * cell elem other)).
Local Abbreviation merge_item := (merge_item elem other char_elem).
Local Abbreviation merge_items := (merge_items elem other char_elem).
Local Abbreviation merge_results := (merge_results elem other char_elem).
Local Abbreviation merge_chunks := (merge_chunks elem other char_elem).
Local Abbreviation counted := (counted elem other).
Local Abbreviation grown := (grown elem other).
Local Abbreviation accepts := (accepts elem other).
Local Abbreviation kinds := (kinds elem other).

Lemma merge_item_keys merged item merged' :
  merge_item merged item = inr merged' -> merged'.*1 = merged.*1.
Proof.
  destruct item as [key [items|s|o]]; simpl.
  - destruct (dict_get key merged) as [[m|m|o]|] eqn:Hget; try discriminate.
    intros [= <-]. apply dict_set_present. eapply dict_get_is_Some; eauto.
  - destruct (dict_get key merged) as [[m|m|o]|] eqn:Hget; try discriminate;
      intros [= <-]; apply dict_set_present; eapply dict_get_is_Some; eauto.
  - intros [= <-]. reflexivity.
Qed.

Lemma merge_items_keys items : forall merged merged',
  merge_items merged items = inr merged' -> merged'.*1 = merged.*1.
Proof.
  induction items as [|item items IH]; intros merged merged'; simpl.
  - intros [= <-]. reflexivity.
  - destruct (merge_item merged item) as [e|merged1] eqn:Hitem;
      [discriminate|].
    intros Hrest. rewrite (IH _ _ Hrest). eapply merge_item_keys; eauto.
Qed.

Lemma merge_results_keys results : forall merged merged',
  merge_results merged results = inr merged' -> merged'.*1 = merged.*1.
Proof.
  induction results as [|result results IH]; intros merged merged'; simpl.
  - intros [= <-]. reflexivity.
  - destruct (merge_items merged result) as [e|merged1] eqn:Hitems;
      [discriminate|].
    intros Hrest. rewrite (IH _ _ Hrest). eapply merge_items_keys; eauto.
Qed.

Lemma merge_items_missing items : forall merged key value,
  (key, value) ∈ items -> counted value -> key ∉ merged.*1 ->
  exists e, merge_items merged items = inl e.
Proof.
  induction items as [|item items IH]; intros merged key value Hin Hv Hkey.
  - inversion Hin.
  - simpl. destruct (merge_item merged item) as [e|merged1] eqn:Hitem;
      [eauto|].
    apply elem_of_cons in Hin as [<-|Hin].
    + exfalso. apply dict_get_None in Hkey. simpl in Hitem.
      destruct value; simpl in Hv; [| |contradiction];
        rewrite Hkey in Hitem; discriminate.
    + apply (IH merged1 key value Hin Hv).
      now rewrite (merge_item_keys _ _ _ Hitem).
Qed.

Lemma merge_results_missing results : forall merged result key value,
  result ∈ results -> (key, value) ∈ result -> counted value ->
  key ∉ merged.*1 ->
  exists e, merge_results merged results = inl e.
Proof.
  induction results as [|r results IH];
    intros merged result key value Hr Hin Hv Hkey.
  - inversion Hr.
  - simpl. destruct (merge_items merged r) as [e|merged1] eqn:Hitems;
      [eauto|].
    apply elem_of_cons in Hr as [<-|Hr].
    + destruct (merge_items_missing result merged key value Hin Hv Hkey)
        as [e He]. congruence.
    + apply (IH merged1 result key value Hr Hin Hv).
      now rewrite (merge_items_keys _ _ _ Hitems).
Qed.

(** X22. [merge_chunks], keys and errors: when it returns, the
    merged dictionary has the keys of the first result, in the same
    order; and when some result holds a list or a string under a key
    that the first result does not have, it does not return but
    raises. *)
Theorem merge_chunks_keys first rest :
  (forall merged,
     merge_chunks (first :: rest) = inr merged -> merged.*1 = first.*1)
  /\ (forall result key value,
        result ∈ first :: rest -> (key, value) ∈ result ->
        counted value -> key ∉ first.*1 ->
        exists e, merge_chunks (first :: rest) = inl e).
Proof.
  unfold merge_chunks. split.
  - intros merged.
    destruct (merge_results _ _) as [e|merged'] eqn:Hrun; [discriminate|].
    intros [= <-]. rewrite dict_fmap_keys.
    rewrite (merge_results_keys _ _ _ Hrun). apply dict_fmap_keys.
  - intros result key value Hr Hin Hv Hkey.
    destruct (merge_results_missing (first :: rest)
                (prod_map id (blank elem other) <$> first)
                result key value Hr Hin Hv) as [e He].
    + now rewrite dict_fmap_keys.
    + rewrite He. eauto.
Qed.

Lemma merge_items_spec items : forall merged,
  NoDup items.*1 ->
  Forall (accepts merged) items ->
  exists merged',
    merge_items merged items = inr merged'
    /\ forall key,
         dict_get key merged'
         = grown (dict_get key merged)
             (list_part elem other key items) (str_part elem other key items).
Proof.
  induction items as [|[k0 v0] items IH]; intros merged Hnd Hacc.
  - exists merged. split; [reflexivity|]. intros key.
    unfold grown, list_part, str_part. simpl.
    destruct (dict_get key merged) as [[m|m|o]|]; now rewrite ?app_nil_r.
  - rewrite fmap_cons in Hnd. apply NoDup_cons in Hnd as [Hk0 Hnd].
    apply Forall_cons in Hacc as [Hhead Hacc].
    assert (Hrest0 : dict_get k0 items = None) by now apply dict_get_None.
    assert (Hstep : exists merged1,
               merge_item merged (k0, v0) = inr merged1
               /\ (forall key, key <> k0 ->
                     dict_get key merged1 = dict_get key merged)
               /\ dict_get k0 merged1
                  = grown (dict_get k0 merged)
                      (list_part elem other k0 [(k0, v0)])
                      (str_part elem other k0 [(k0, v0)])).
    { unfold accepts in Hhead. simpl in Hhead.
      unfold list_part, str_part. simpl.
      destruct (decide (k0 = k0)); [|congruence].
      destruct v0 as [l|s|o]; simpl.
      - destruct Hhead as [m Hm]. rewrite Hm. eexists. split; [reflexivity|].
        split; intros; rewrite dict_get_set.
        + destruct (decide _); [congruence|reflexivity].
        + destruct (decide _); [reflexivity|congruence].
      - destruct Hhead as [m Hm]. rewrite Hm. eexists. split; [reflexivity|].
        split; intros; rewrite dict_get_set.
        + destruct (decide _); [congruence|reflexivity].
        + destruct (decide _); [reflexivity|congruence].
      - exists merged. split; [reflexivity|]. split; [reflexivity|].
        unfold grown. destruct (dict_get k0 merged) as [[m|m|o']|];
          now rewrite ?app_nil_r. }
    destruct Hstep as (merged1 & Hitem & Hother & Hsame).
    destruct (IH merged1 Hnd) as (merged' & Hrun & Hget).
    { rewrite Forall_forall in *. intros [k v] Hin.
      assert (k <> k0).
      { intros ->. apply Hk0. now apply (list_elem_of_fmap_2 fst _ (k0, v)). }
      specialize (Hacc _ Hin). unfold accepts in *. simpl in *.
      now rewrite Hother. }
    exists merged'. cbn [Utils.merge_items]. rewrite Hitem.
    split; [exact Hrun|].
    intros key. rewrite Hget.
    destruct (decide (key = k0)) as [->|Hne].
    + rewrite Hsame. unfold list_part, str_part. rewrite Hrest0. simpl.
      destruct (decide (k0 = k0)); [|congruence].
      unfold grown. destruct (dict_get k0 merged) as [[m|m|o]|];
        now rewrite ?app_nil_r.
    + rewrite Hother by assumption. unfold list_part, str_part. simpl.
      destruct (decide (k0 = key)); [congruence|reflexivity].
Qed.

Lemma fits_accepts first merged result :
  fits elem other first result -> kinds first merged ->
  Forall (accepts merged) result.
Proof.
  intros [Hnd Hfit] Hkinds. apply Forall_forall. intros [k v] Hin.
  specialize (Hfit k v Hin). specialize (Hkinds k).
  unfold accepts. simpl. destruct v as [l|s|o]; [| |exact I].
  - destruct Hfit as [items Hfirst]. now rewrite Hfirst in Hkinds.
  - destruct Hfit as (v & Hfirst & Hnot). rewrite Hfirst in Hkinds.
    destruct v; [exfalso; eapply Hnot; eauto|assumption..].
Qed.

Lemma merge_results_spec first results : forall merged,
  Forall (fits elem other first) results ->
  kinds first merged ->
  exists merged',
    merge_results merged results = inr merged'
    /\ forall key,
         dict_get key merged'
         = grown (dict_get key merged)
             (concat (list_part elem other key <$> results))
             (concat (str_part elem other key <$> results)).
Proof.
  induction results as [|result results IH]; intros merged Hfits Hkinds.
  - exists merged. split; [reflexivity|]. intros key. simpl.
    unfold grown. destruct (dict_get key merged) as [[m|m|o]|];
      now rewrite ?app_nil_r.
  - apply Forall_cons in Hfits as [Hfit Hfits].
    destruct (merge_items_spec result merged (proj1 Hfit)
                (fits_accepts first merged result Hfit Hkinds))
      as (merged1 & Hitems & Hget1).
    destruct (IH merged1 Hfits) as (merged' & Hrun & Hget).
    { intros key. specialize (Hkinds key). rewrite Hget1.
      destruct (dict_get key first) as [[l|s|o]|].
      - destruct Hkinds as [m ->]. simpl. eauto.
      - destruct Hkinds as [m ->]. simpl. eauto.
      - destruct Hkinds as [m ->]. simpl. eauto.
      - now rewrite Hkinds. }
    exists merged'. cbn [Utils.merge_results]. rewrite Hitems.
    split; [exact Hrun|].
    intros key. rewrite Hget, Hget1. unfold grown.
    destruct (dict_get key merged) as [[m|m|o]|];
      rewrite ?fmap_cons; simpl; now rewrite ?app_assoc.
Qed.

(** X23. [merge_chunks], contents: when every result has its lists
    under keys where the first result has a list, and its strings under
    keys where the first result has something else, the merge returns;
    under a key where the first result has a list it holds the lists of
    all the results, concatenated in order, and under any other key the
    strings of all the results, each followed by a space, concatenated
    in order and stripped. *)
Theorem merge_chunks_content first rest :
  Forall (fits elem other first) (first :: rest) ->
  exists merged,
    merge_chunks (first :: rest) = inr merged
    /\ merged.*1 = first.*1
    /\ forall key,
         dict_get key merged
         = match dict_get key first with
           | None => None
           | Some (CList _) =>
               Some (CList (concat (list_part elem other key
                                      <$> first :: rest)))
           | Some _ =>
               Some (CStr (strip (concat (str_part elem other key
                                            <$> first :: rest))))
           end.
Proof.
  intros Hfits.
  destruct (merge_results_spec first (first :: rest)
              (prod_map id (blank elem other) <$> first) Hfits)
    as (merged' & Hrun & Hget).
  { intros key. rewrite dict_get_fmap.
    destruct (dict_get key first) as [[l|s|o]|]; simpl; eauto. }
  unfold merge_chunks. rewrite Hrun. eexists. split; [reflexivity|]. split.
  - rewrite dict_fmap_keys, (merge_results_keys _ _ _ Hrun).
    apply dict_fmap_keys.
  - intros key. rewrite dict_get_fmap, Hget, dict_get_fmap.
    destruct (dict_get key first) as [[l|s|o]|]; reflexivity.
Qed.
End MergeProps.

Lemma merge_chunks_keys_witness :
  (exists e,
     merge_chunks N unit id [first_result; second_result; stray_result]
     = inl e)
  /\ forall merged,
       merge_chunks N unit id [first_result; second_result] = inr merged ->
       merged.*1 = first_result.*1.
Proof.
  split.
  - apply (merge_chunks_keys N unit id first_result
             [second_result; stray_result])
      with (result := stray_result) (key := lit "title")
           (value := CStr (lit "Fotosíntesis")).
    + do 2 apply list_elem_of_further. constructor.
    + constructor.
    + exact I.
    + apply (bool_decide_unpack _). vm_compute. reflexivity.
  - apply (merge_chunks_keys N unit id first_result [second_result]).
Defined.

Lemma merge_chunks_content_witness :
  exists merged,
    merge_chunks N unit id [first_result; second_result] = inr merged
    /\ dict_get (lit "pages") merged = Some (CList [1%N; 2%N; 3%N])
    /\ dict_get (lit "summary") merged
       = Some (CStr (lit "Las plantas producen oxígeno")).
Proof.
  destruct (merge_chunks_content N unit id first_result [second_result])
    as (merged & Hrun & _ & Hget).
  - repeat constructor;
      try (apply (bool_decide_unpack _); vm_compute; reflexivity);
      intros key value Hin;
      repeat (apply elem_of_cons in Hin as [Heq|Hin];
              [injection Heq as -> ->; simpl;
               eexists; (reflexivity || (split; [reflexivity|discriminate]))
              |]);
      inversion Hin.
  - exists merged. split; [exact Hrun|].
    split; rewrite Hget; vm_compute; reflexivity.
Defined.

End UtilsProps.

(** ** [content_security_check] *)

Module SecurityProps.
Import Security.

Lemma first_prohibited_None order text_lower :
  first_prohibited order text_lower = None
  <-> forall word, word ∈ order -> contains word text_lower = false.
Proof.
  induction order as [|w order IH]; simpl.
  - split; [intros _ word Hin; inversion Hin|reflexivity].
  - destruct (contains w text_lower) eqn:Hw.
    + split; [discriminate|]. intros Hall.
      specialize (Hall w (list_elem_of_here _ _)). congruence.
    + rewrite IH. split.
      * intros Hall word Hin. inversion Hin; subst; auto.
      * intros Hall word Hin. apply Hall. now constructor.
Qed.

Lemma first_prohibited_Some order text_lower word :
  first_prohibited order text_lower = Some word ->
  word ∈ order /\ contains word text_lower = true.
Proof.
  induction order as [|w order IH]; simpl; [discriminate|].
  destruct (contains w text_lower) eqn:Hw.
  - intros [= <-]. split; [constructor|assumption].
  - intros Hfound. destruct (IH Hfound). split; [now constructor|assumption].
Qed.

(** C5, as the code has it. For every text of fewer than 10 characters
    the check returns not-safe, whatever the Unicode lower-casing and
    the order in which the set of prohibited terms is iterated. The
    reason is the too-short message when no prohibited term occurs in
    the lower-cased text; when one occurs, the reason names a prohibited
    term that occurs in it. *)
Theorem short_text_rejected lower order text :
  order ≡ₚ PROHIBITED_CONTENT ->
  len text < 10 ->
  (content_security_check lower order text).1 = false
  /\ ((forall word, word ∈ PROHIBITED_CONTENT ->
                   contains word (lower text) = false) ->
      (content_security_check lower order text).2 = MSG_TOO_SHORT)
  /\ ((exists word, word ∈ PROHIBITED_CONTENT
                   /\ contains word (lower text) = true) ->
      exists word,
        word ∈ PROHIBITED_CONTENT
        /\ contains word (lower text) = true
        /\ (content_security_check lower order text).2
           = MSG_PROHIBITED ++ word).
Proof.
  intros Horder Hshort. unfold content_security_check.
  destruct (first_prohibited order (lower text)) as [word|] eqn:Hfound.
  - apply first_prohibited_Some in Hfound as [Hin Hocc].
    rewrite Horder in Hin. simpl. split; [reflexivity|]. split.
    + intros Hnone. rewrite (Hnone word Hin) in Hocc. discriminate.
    + intros _. exists word. auto.
  - destruct (Z.ltb_spec (len text) 10); [|lia]. simpl.
    split; [reflexivity|]. split; [reflexivity|].
    intros (word & Hin & Hocc).
    rewrite first_prohibited_None in Hfound.
    rewrite <- Horder in Hin. rewrite (Hfound word Hin) in Hocc. discriminate.
Qed.

Lemma short_text_rejected_witness :
  PROHIBITED_CONTENT ≡ₚ PROHIBITED_CONTENT
  /\ len (lit "Hola") < 10
  /\ (content_security_check lower_latin1 PROHIBITED_CONTENT (lit "Hola")).1
     = false.
Proof.
  split; [reflexivity|]. split; [vm_compute; reflexivity|].
  apply (short_text_rejected lower_latin1 PROHIBITED_CONTENT (lit "Hola")).
  - reflexivity.
  - vm_compute. reflexivity.
Defined.

(** C5 as stated fails: a text of nine characters in which a prohibited
    term occurs is rejected for the term, not for its length. *)
Lemma short_text_reason_counterexample :
  len (lit "odio odio") = 9
  /\ content_security_check lower_latin1 PROHIBITED_CONTENT (lit "odio odio")
     = (false, MSG_PROHIBITED ++ lit "odio")
  /\ MSG_PROHIBITED ++ lit "odio" <> MSG_TOO_SHORT.
Proof.
  split; [reflexivity|]. split; [vm_compute; reflexivity|].
  vm_compute. discriminate.
Qed.

(** *** The whole verdict, and the checks on file names *)

Lemma messages_not_empty word :
  MSG_PROHIBITED ++ word <> [] /\ MSG_TOO_SHORT <> [] /\ MSG_TOO_LONG <> [].
Proof.
  repeat split; vm_compute; discriminate.
Qed.

(** X5. The verdict of the guard: a text is declared safe exactly when
    no prohibited term occurs in its lower-cased form and it has between
    10 and 100,000 characters; the reason is empty exactly when the text
    is declared safe; and a text of more than 100,000 characters in
    which no prohibited term occurs is rejected as too long. *)
Theorem verdict lower order text :
  order ≡ₚ PROHIBITED_CONTENT ->
  ((content_security_check lower order text).1 = true
   <-> (forall word, word ∈ PROHIBITED_CONTENT ->
                     contains word (lower text) = false)
       /\ 10 <= len text <= 100000)
  /\ ((content_security_check lower order text).2 = []
      <-> (content_security_check lower order text).1 = true)
  /\ ((forall word, word ∈ PROHIBITED_CONTENT ->
                    contains word (lower text) = false) ->
      100000 < len text ->
      content_security_check lower order text = (false, MSG_TOO_LONG)).
Proof.
  intros Horder. unfold content_security_check.
  destruct (messages_not_empty []) as (_ & Hshort & Hlong).
  destruct (first_prohibited order (lower text)) as [word|] eqn:Hfound.
  - apply first_prohibited_Some in Hfound as [Hin Hocc].
    rewrite Horder in Hin. simpl.
    destruct (messages_not_empty word) as (Hword & _).
    assert (Hsome : ~ forall w, w ∈ PROHIBITED_CONTENT ->
                         contains w (lower text) = false).
    { intros Hnone. rewrite (Hnone word Hin) in Hocc. discriminate. }
    split; [|split].
    + split; [discriminate|]. intros [Hnone _]. contradiction.
    + split; [contradiction|discriminate].
    + intros Hnone. contradiction.
  - rewrite first_prohibited_None in Hfound.
    assert (Hnone : forall word, word ∈ PROHIBITED_CONTENT ->
                      contains word (lower text) = false).
    { intros word Hin. apply Hfound. now rewrite Horder. }
    destruct (Z.ltb_spec (len text) 10); simpl.
    { split; [|split].
      - split; [discriminate|]. intros [_ ?]. lia.
      - split; [contradiction|discriminate].
      - intros _ ?. lia. }
    destruct (Z.gtb_spec (len text) 100000); simpl.
    { split; [|split].
      - split; [discriminate|]. intros [_ ?]. lia.
      - split; [contradiction|discriminate].
      - reflexivity. }
    split; [|split].
    + split; [|reflexivity]. intros _. split; [assumption|lia].
    + split; reflexivity.
    + intros _ ?. lia.
Qed.

Lemma verdict_witness :
  PROHIBITED_CONTENT ≡ₚ PROHIBITED_CONTENT
  /\ ((content_security_check lower_latin1 PROHIBITED_CONTENT
         (lit "Las plantas producen oxígeno")).2 = []
      <-> (content_security_check lower_latin1 PROHIBITED_CONTENT
             (lit "Las plantas producen oxígeno")).1 = true).
Proof.
  split; [reflexivity|].
  apply (verdict lower_latin1 PROHIBITED_CONTENT
           (lit "Las plantas producen oxígeno")).
  reflexivity.
Defined.

(** A one-character pattern occurs where the character is. *)
Lemma occurs_at_char s c i :
  0 <= i -> occurs_at s [c] i = true <-> s !! Z.to_nat i = Some c.
Proof.
  intros Hi. unfold occurs_at. rewrite text_eqb_eq. simpl.
  assert (Hhead : s !! Z.to_nat i = drop (Z.to_nat i) s !! 0%nat)
    by (rewrite lookup_drop; f_equal; lia).
  rewrite Hhead.
  destruct (drop (Z.to_nat i) s) as [|d rest]; simpl.
  - split; discriminate.
  - rewrite take_0. split; congruence.
Qed.

Lemma rfind_last_char stem c suffix :
  c ∉ suffix ->
  rfind (stem ++ c :: suffix) [c] 0 (len (stem ++ c :: suffix)) = len stem.
Proof.
  intros Hnot. set (s := stem ++ c :: suffix).
  assert (Hlen : len s = len stem + 1 + len suffix).
  { unfold s, len. rewrite length_app. simpl. lia. }
  pose proof (len_nonneg stem). pose proof (len_nonneg suffix).
  assert (Hhere : occurs_at s [c] (len stem) = true).
  { apply occurs_at_char; [lia|]. unfold s, len. rewrite Nat2Z.id.
    now rewrite list_lookup_middle. }
  change (len [c]) with 1 in *.
  destruct (rfind_spec s [c] 0 (len s)) as [[_ Hnone] | (Hr1 & Hr2 & Hr3 & Hr4)];
    [lia|lia| |].
  - rewrite Hnone in Hhere; [discriminate|lia|]. change (len [c]) with 1. lia.
  - change (len [c]) with 1 in *.
    set (r := rfind s [c] 0 (len s)) in *.
    destruct (Z.lt_trichotomy r (len stem)) as [Hlt | [Heq | Hgt]];
      [|assumption|].
    + rewrite (Hr4 (len stem)) in Hhere; [discriminate|lia|lia].
    + exfalso. apply Hnot. apply occurs_at_char in Hr3; [|lia].
      unfold s in Hr3. rewrite lookup_app_r in Hr3 by (unfold len in *; lia).
      replace (Z.to_nat r - length stem)%nat
        with (S (Z.to_nat r - length stem - 1)) in Hr3
        by (unfold len in *; lia).
      simpl in Hr3. eapply list_elem_of_lookup_2. exact Hr3.
Qed.

Lemma rfind_absent_char s c start stop :
  0 <= start -> 0 <= stop <= len s -> c ∉ s -> rfind s [c] start stop = -1.
Proof.
  intros Hstart Hstop Hnot.
  destruct (rfind_spec s [c] start stop Hstart Hstop)
    as [[Hnone _] | (Hr1 & _ & Hr3 & _)]; [assumption|].
  exfalso. apply Hnot. apply occurs_at_char in Hr3; [|lia].
  eapply list_elem_of_lookup_2. exact Hr3.
Qed.

(** X6. [validate_file_type] looks only at what follows the last dot
    of the name: a name without a dot is refused, and a name
    [stem.suffix] whose suffix holds no dot is accepted exactly when the
    lower-cased suffix is [pdf], [txt], [docx] or [md], whatever the
    stem. *)
Theorem validate_file_type_suffix lower stem suffix filename :
  (DOT ∉ filename -> validate_file_type lower filename = false)
  /\ (DOT ∉ suffix ->
      validate_file_type lower (stem ++ DOT :: suffix)
      = existsb (text_eqb (DOT :: lower suffix)) ALLOWED_EXTENSIONS).
Proof.
  split.
  - intros Hnot. unfold validate_file_type, contains.
    rewrite rfind_absent_char;
      [reflexivity|lia|pose proof (len_nonneg filename); lia|assumption].
  - intros Hnot. unfold validate_file_type, contains, last_field.
    rewrite rfind_last_char by assumption.
    pose proof (len_nonneg stem).
    destruct (Z.eqb_spec (len stem) (-1)); [lia|]. simpl negb. cbv iota.
    replace (slice (stem ++ DOT :: suffix) (len stem + 1)
               (len (stem ++ DOT :: suffix))) with suffix; [reflexivity|].
    rewrite slice_in_range.
    + replace (Z.to_nat (len stem + 1)) with (length (stem ++ [DOT]))
        by (rewrite length_app; unfold len; simpl; lia).
      replace (stem ++ DOT :: suffix) with ((stem ++ [DOT]) ++ suffix)
        by now rewrite <- app_assoc.
      rewrite drop_app_length. symmetry. apply take_ge.
      unfold len. rewrite !length_app. simpl. lia.
    + unfold len. rewrite length_app. simpl. lia.
    + lia.
Qed.

Lemma validate_file_type_suffix_witness :
  (DOT ∉ lit "PDF")
  /\ validate_file_type lower_latin1 (lit "apuntes.v2" ++ DOT :: lit "PDF")
     = existsb (text_eqb (DOT :: lower_latin1 (lit "PDF"))) ALLOWED_EXTENSIONS.
Proof.
  assert (Hnot : DOT ∉ lit "PDF").
  { apply (bool_decide_unpack _). vm_compute. reflexivity. }
  split; [exact Hnot|].
  apply (validate_file_type_suffix lower_latin1 (lit "apuntes.v2") (lit "PDF")
           []). exact Hnot.
Defined.

Lemma split_on_absent sep s : sep ∉ s -> split_on sep s = [s].
Proof.
  induction s as [|c s IH]; intros Hnot; simpl; [reflexivity|].
  apply not_elem_of_cons in Hnot as [Hc Hs].
  destruct (N.eqb_spec c sep); [congruence|]. now rewrite IH.
Qed.

Lemma path_name_plain s :
  SLASH ∉ s -> path_name s = if decide (s = [DOT]) then [] else s.
Proof.
  intros Hnot. unfold path_name. rewrite split_on_absent by assumption.
  rewrite filter_cons, filter_nil.
  destruct (decide (s = [DOT])) as [->|Hdot].
  - destruct (decide _) as [[_ H]|_]; [congruence|reflexivity].
  - destruct (decide _) as [_|H]; [reflexivity|].
    destruct s; [reflexivity|]. exfalso. apply H. split; [discriminate|assumption].
Qed.

Section Sanitize.
Variable is_word : N -> bool.
Hypothesis slash_not_word : is_word SLASH = false.

Lemma substitute_no_slash filename : SLASH ∉ substitute is_word filename.
Proof.
  unfold substitute. intros Hin. apply list_elem_of_fmap in Hin as (c & Hc & _).
  destruct (is_word c) eqn:Hw; simpl in Hc.
  - subst c. congruence.
  - destruct (N.eqb_spec c HYPHEN); simpl in Hc;
      [subst c; discriminate|].
    destruct (N.eqb_spec c DOT); simpl in Hc; [subst c|]; discriminate.
Qed.

Lemma substitute_idempotent filename :
  substitute is_word (substitute is_word filename) = substitute is_word filename.
Proof.
  unfold substitute. rewrite <- list_fmap_compose. apply list_fmap_ext.
  intros _ c _. simpl.
  destruct (is_word c || (c =? HYPHEN)%N || (c =? DOT)%N) eqn:Hkeep.
  - now rewrite Hkeep.
  - now destruct (is_word UNDERSCORE || _ || _).
Qed.

(** X7. [sanitize_filename], for a class [\w] that does not hold the
    slash: the result is the name with every character outside [\w],
    [-] and [.] replaced by an underscore, except that the name [.]
    gives the empty string; it holds no slash; and sanitizing it again
    changes nothing. A name such as [..] is returned as it is. *)
Theorem sanitize_filename_result filename :
  sanitize_filename is_word filename
  = (if decide (substitute is_word filename = [DOT]) then []
     else substitute is_word filename)
  /\ (SLASH ∉ sanitize_filename is_word filename)
  /\ sanitize_filename is_word (sanitize_filename is_word filename)
     = sanitize_filename is_word filename.
Proof.
  assert (Hresult : forall name,
            sanitize_filename is_word name
            = if decide (substitute is_word name = [DOT]) then []
              else substitute is_word name).
  { intros name. unfold sanitize_filename.
    apply path_name_plain, substitute_no_slash. }
  split; [apply Hresult|]. split.
  - rewrite Hresult. destruct (decide _); [apply not_elem_of_nil|].
    apply substitute_no_slash.
  - rewrite (Hresult (sanitize_filename is_word filename)), (Hresult filename).
    destruct (decide (substitute is_word filename = [DOT])) as [Hdot|Hdot].
    + reflexivity.
    + rewrite substitute_idempotent.
      destruct (decide _); [contradiction|reflexivity].
Qed.
End Sanitize.

(** The letters, digits and underscore of ASCII: the part of [\w] that
    the examples use. *)
Lemma sanitize_filename_result_witness :
  sanitize_filename
    (fun c => between 48 57 c || between 65 90 c || between 97 122 c
              || (c =? UNDERSCORE)%N)
    (lit "../notas finales.txt")
  = lit ".._notas_finales.txt".
Proof.
  etransitivity;
    [apply (sanitize_filename_result
              (fun c => between 48 57 c || between 65 90 c
                        || between 97 122 c || (c =? UNDERSCORE)%N));
     reflexivity|].
  vm_compute. reflexivity.
Defined.

End SecurityProps.

(** ** [NLPService.process_text] *)

Module NLPServiceProps.
Import NLPService Samples.

Section Service.
Variable Doc : Type.
Variable nlp : str -> Doc.
Variable doc_len : Doc -> Z.

(** After the first pass the loop only records the calls. *)
Lemma process_chunks_later chunks : forall i combined_doc calls,
  process_chunks Doc nlp (S i) chunks combined_doc calls
  = (combined_doc, calls ++ chunks).
Proof.
  induction chunks as [|chunk chunks IH]; intros i combined_doc calls; simpl.
  - now rewrite app_nil_r.
  - rewrite IH, <- app_assoc. reflexivity.
Qed.

Lemma process_chunks_first chunk chunks :
  process_chunks Doc nlp 0 (chunk :: chunks) None []
  = (Some (nlp chunk), chunk :: chunks).
Proof. simpl. now rewrite process_chunks_later. Qed.

(** What [process_text] does with a text of more than 100,000
    characters, whatever the pipeline. *)
Lemma process_text_oversized text :
  100000 < len text ->
  exists window windows,
    Utils.chunk_text text 100000 = Some (window :: windows)
    /\ concat (window :: windows) = text
    /\ Forall (fun w => w <> [] /\ len w <= 100000) (window :: windows)
    /\ process_text Doc nlp doc_len text
       = Return (or_empty Doc nlp doc_len
                   (Some (nlp window)) (window :: windows)).
Proof.
  intros Hlong.
  destruct (UtilsProps.chunk_text_spec text 100000)
    as (chunks & Hrun & Hcat & Hall & Hne & _ & Hfull); [lia|].
  destruct chunks as [|window windows]; [congruence|].
  exists window, windows. repeat split; try assumption.
  - specialize (Hfull Hlong). rewrite Forall_forall in *.
    intros w Hw. split; auto.
  - unfold process_text.
    destruct (Z.gtb_spec (len text) 100000); [|lia].
    rewrite Hrun, process_chunks_first. reflexivity.
Qed.

(** C9. For every text of more than 100,000 characters, and a
    pipeline that gives a document with at least one token for a
    non-empty text, [process_text] splits the text with
    [chunk_text(text, 100000)], runs the pipeline once on each window,
    in order, and on nothing else; every window has at most 100,000
    characters, so none of the calls is on the whole text; and the
    document returned is the one computed from the first window. *)
Theorem oversized_text_first_window text :
  (forall t, t <> [] -> 0 < doc_len (nlp t)) ->
  100000 < len text ->
  exists window windows,
    Utils.chunk_text text 100000 = Some (window :: windows)
    /\ process_text Doc nlp doc_len text
       = Return (nlp window, window :: windows)
    /\ Forall (fun call => len call <= 100000) (window :: windows)
    /\ text ∉ window :: windows.
Proof.
  intros Htokens Hlong.
  destruct (process_text_oversized text Hlong)
    as (window & windows & Hrun & Hcat & Hall & Hproc).
  exists window, windows. split; [assumption|].
  assert (Hbound : Forall (fun call => len call <= 100000) (window :: windows)).
  { eapply Forall_impl; [exact Hall|]. simpl. tauto. }
  repeat split; [|assumption|].
  - rewrite Hproc. unfold or_empty.
    apply Forall_inv in Hall as [Hw _].
    specialize (Htokens window Hw).
    destruct (Z.gtb_spec (doc_len (nlp window)) 0); [reflexivity|lia].
  - intros Hin. rewrite Forall_forall in Hbound.
    specialize (Hbound text Hin). lia.
Qed.
End Service.

Lemma oversized_text_first_window_witness :
  (forall t : str, t <> [] -> 0 < len (id t))
  /\ 100000 < len (replicate (Z.to_nat 100001) 97%N)
  /\ exists window windows,
       Utils.chunk_text (replicate (Z.to_nat 100001) 97%N) 100000
       = Some (window :: windows)
       /\ process_text str id len (replicate (Z.to_nat 100001) 97%N)
          = Return (id window, window :: windows)
       /\ Forall (fun call => len call <= 100000) (window :: windows)
       /\ replicate (Z.to_nat 100001) 97%N ∉ window :: windows.
Proof.
  assert (Htokens : forall t : str, t <> [] -> 0 < len (id t)).
  { intros [|c t] Ht; [congruence|]. unfold len. simpl. lia. }
  assert (Hlong : 100000 < len (replicate (Z.to_nat 100001) 97%N)).
  { unfold len. rewrite length_replicate. lia. }
  split; [exact Htokens|]. split; [exact Hlong|].
  exact (oversized_text_first_window str id len
           (replicate (Z.to_nat 100001) 97%N) Htokens Hlong).
Defined.

(** *** Entities, keywords and language *)

Lemma occurrences_app x l1 l2 :
  occurrences x (l1 ++ l2) = (occurrences x l1 + occurrences x l2)%nat.
Proof. unfold occurrences. now rewrite filter_app, length_app. Qed.

Lemma occurrences_pos x l : x ∈ l <-> (0 < occurrences x l)%nat.
Proof.
  unfold occurrences. split.
  - intros Hin. assert (Hx : x ∈ filter (fun y => y = x) l)
      by (apply list_elem_of_filter; auto).
    destruct (filter _ l); [inversion Hx|simpl; lia].
  - intros Hpos. destruct (filter (fun y => y = x) l) as [|y rest] eqn:Hf;
      [simpl in Hpos; lia|].
    assert (Hy : y ∈ filter (fun y => y = x) l) by (rewrite Hf; constructor).
    apply list_elem_of_filter in Hy as [-> Hy]. assumption.
Qed.

Lemma occurrences_snoc x l y :
  occurrences x (l ++ [y])
  = (occurrences x l + if decide (y = x) then 1 else 0)%nat.
Proof.
  rewrite occurrences_app. f_equal. unfold occurrences.
  rewrite filter_cons, filter_nil. now destruct (decide (y = x)).
Qed.

(** What a [Counter] holds: every element that occurs, once, with the
    number of its occurrences. *)
Lemma Counter_spec l :
  NoDup (Counter l).*1
  /\ forall x,
       dict_get x (Counter l)
       = if decide (occurrences x l = 0%nat) then None
         else Some (occurrences x l).
Proof.
  unfold Counter. induction l as [|y l IH] using rev_ind.
  - split; [constructor|]. intros x. reflexivity.
  - destruct IH as [Hnd Hget]. rewrite foldl_app. simpl. split.
    + now apply dict_set_NoDup.
    + intros x. unfold count_one at 1. rewrite dict_get_set.
      rewrite occurrences_snoc, !Hget.
      destruct (decide (x = y)) as [->|Hne].
      * destruct (decide (y = y)); [|congruence].
        destruct (decide (occurrences y l = 0%nat)) as [->|];
          destruct (decide _); simpl; try lia; f_equal; lia.
      * destruct (decide (y = x)); [congruence|].
        rewrite Nat.add_0_r. reflexivity.
Qed.

Lemma StronglySorted_lookup_lt {A} (R : A -> A -> Prop) l :
  StronglySorted R l ->
  forall i j x y, (i < j)%nat -> l !! i = Some x -> l !! j = Some y -> R x y.
Proof.
  induction 1 as [|z l _ IH Hz]; intros i j x y Hij Hi Hj.
  - discriminate.
  - destruct j as [|j]; [lia|]. simpl in Hj. destruct i as [|i]; simpl in Hi.
    + injection Hi as <-. rewrite Forall_forall in Hz. apply Hz.
      eapply list_elem_of_lookup_2. exact Hj.
    + apply (IH i j); [lia|assumption..].
Qed.

Lemma insert_by_count_perm item sorted :
  insert_by_count item sorted ≡ₚ item :: sorted.
Proof.
  induction sorted as [|other rest IH]; simpl; [reflexivity|].
  destruct (other.2 <=? item.2)%nat; [reflexivity|].
  rewrite IH. apply perm_swap.
Qed.

Lemma sort_by_count_perm items : sort_by_count items ≡ₚ items.
Proof.
  induction items as [|item items IH]; simpl; [reflexivity|].
  now rewrite insert_by_count_perm, IH.
Qed.

Lemma insert_by_count_sorted item sorted :
  StronglySorted by_count sorted ->
  StronglySorted by_count (insert_by_count item sorted).
Proof.
  induction 1 as [|other rest Hrest IH Hother]; simpl.
  - repeat constructor.
  - destruct (Nat.leb_spec other.2 item.2) as [Hle|Hgt].
    + constructor; [now constructor|].
      constructor; [exact Hle|].
      eapply Forall_impl; [exact Hother|]. unfold by_count. simpl. lia.
    + constructor; [assumption|].
      rewrite insert_by_count_perm. constructor; [|assumption].
      unfold by_count. lia.
Qed.

Lemma sort_by_count_sorted items : StronglySorted by_count (sort_by_count items).
Proof.
  induction items as [|item items IH]; simpl; [constructor|].
  now apply insert_by_count_sorted.
Qed.

(** What [Counter(l).most_common(n)] lists. *)
Lemma most_common_ranked (l : list str) (n : Z) :
  let ranked := (most_common n (Counter l)).*1 in
  len ranked <= Z.max 0 n
  /\ NoDup ranked
  /\ (forall k, k ∈ ranked -> k ∈ l)
  /\ (forall i j ki kj,
        (i < j)%nat -> ranked !! i = Some ki -> ranked !! j = Some kj ->
        (occurrences kj l <= occurrences ki l)%nat)
  /\ (forall k c,
        k ∈ ranked -> c ∈ l -> c ∉ ranked ->
        (occurrences c l <= occurrences k l)%nat).
Proof.
  intros ranked. unfold ranked, most_common.
  destruct (Counter_spec l) as [Hkeys Hget].
  set (sorted := sort_by_count (Counter l)).
  assert (Hperm : sorted ≡ₚ Counter l) by apply sort_by_count_perm.
  assert (Hsorted : StronglySorted by_count sorted)
    by apply sort_by_count_sorted.
  assert (Hnd : NoDup sorted.*1) by now rewrite Hperm.
  assert (Hcount : forall k n, (k, n) ∈ sorted ->
                     n = occurrences k l /\ k ∈ l).
  { intros k m Hin. rewrite Hperm in Hin.
    apply (dict_get_elem _ _ _ Hkeys) in Hin. rewrite Hget in Hin.
    destruct (decide (occurrences k l = 0%nat)); [discriminate|].
    injection Hin as <-. split; [reflexivity|]. apply occurrences_pos. lia. }
  set (m := Z.to_nat n).
  assert (Hsplit : sorted = take m sorted ++ drop m sorted)
    by now rewrite take_drop.
  assert (Htake : forall k c, (k, c) ∈ take m sorted -> (k, c) ∈ sorted).
  { intros k c Hin. rewrite Hsplit. apply elem_of_app. now left. }
  split; [|split; [|split; [|split]]].
  - unfold len. rewrite length_fmap, length_take. lia.
  - rewrite fmap_take. rewrite <- (take_drop m sorted.*1) in Hnd.
    now apply NoDup_app in Hnd as [Hnd _].
  - intros k Hin. apply list_elem_of_fmap in Hin as ([k' c] & -> & Hin).
    simpl. now apply Htake, Hcount in Hin as [_ Hin].
  - intros i j ki kj Hij Hi Hj.
    rewrite list_lookup_fmap in Hi, Hj.
    destruct (take m sorted !! i) as [[ki' ni]|] eqn:Hi'; [|discriminate].
    destruct (take m sorted !! j) as [[kj' nj]|] eqn:Hj'; [|discriminate].
    simpl in Hi, Hj. injection Hi as ->. injection Hj as ->.
    assert (Hsi : sorted !! i = Some (ki, ni)).
    { rewrite lookup_take_Some in Hi'. tauto. }
    assert (Hsj : sorted !! j = Some (kj, nj)).
    { rewrite lookup_take_Some in Hj'. tauto. }
    destruct (Hcount ki ni) as [-> _]; [eapply list_elem_of_lookup_2; eauto|].
    destruct (Hcount kj nj) as [-> _]; [eapply list_elem_of_lookup_2; eauto|].
    exact (StronglySorted_lookup_lt by_count sorted Hsorted
             i j _ _ Hij Hsi Hsj).
  - intros k c Hk Hc Hnot.
    apply list_elem_of_fmap in Hk as ([k' c'] & -> & Hk). simpl.
    assert (Hcin : (c, occurrences c l) ∈ sorted).
    { rewrite Hperm. apply dict_get_Some. rewrite Hget.
      destruct (decide _) as [Hz|]; [|reflexivity].
      apply occurrences_pos in Hc. lia. }
    rewrite Hsplit in Hcin. apply elem_of_app in Hcin as [Hcin|Hcin].
    { exfalso. apply Hnot.
      now apply (list_elem_of_fmap_2 fst _ (c, occurrences c l)). }
    destruct (Hcount k' c' (Htake _ _ Hk)) as [-> _].
    rewrite Hsplit in Hsorted.
    exact (StronglySorted_app_1_elem_of by_count _ _ _ _ Hsorted Hk Hcin).
Qed.

Section Annotation.
Variable Doc : Type.
Variable nlp : str -> Doc.
Variable ents : Doc -> list (str * str).
Variable tokens : Doc -> list Token.
Variable lang_ : Doc -> option str.
Variable stop_words : str -> bool.
Variable lower : str -> str.
Variable is_word : N -> bool.

Lemma add_entity_get entities label text label' :
  dict_get label' (add_entity entities (label, text))
  = if decide (label' = label)
    then Some (let texts := default [] (dict_get label entities) in
               if decide (text ∈ texts) then texts else texts ++ [text])
    else dict_get label' entities.
Proof.
  unfold add_entity.
  destruct (dict_get label entities) as [texts|] eqn:Hget; simpl.
  - rewrite Hget. simpl. destruct (decide (text ∈ texts)).
    + destruct (decide (label' = label)) as [->|]; [assumption|reflexivity].
    + now rewrite dict_get_set.
  - rewrite !dict_get_set. destruct (decide (label = label)); [|congruence].
    simpl. destruct (decide (text ∈ [])) as [Hin|_]; [inversion Hin|].
    rewrite !dict_get_set. destruct (decide (label' = label)); reflexivity.
Qed.

Lemma add_entity_NoDup entities ent :
  NoDup entities.*1 -> NoDup (add_entity entities ent).*1.
Proof.
  intros Hnd. destruct ent as [label text]. unfold add_entity.
  destruct (dict_get label entities); simpl;
    destruct (decide _); auto using dict_set_NoDup.
Qed.

(** X13. The entities of a document: in the dictionary that
    [extract_entities_and_keywords] builds no label comes twice and no
    text comes twice under a label, and a text is listed under a label
    exactly when the document has an entity with that label and that
    text. *)
Theorem extract_entities_grouped doc :
  NoDup (extract_entities Doc ents doc).*1
  /\ (forall label texts,
        dict_get label (extract_entities Doc ents doc) = Some texts ->
        NoDup texts)
  /\ (forall label text,
        (exists texts,
           dict_get label (extract_entities Doc ents doc) = Some texts
           /\ text ∈ texts)
        <-> (label, text) ∈ ents doc).
Proof.
  unfold extract_entities.
  induction (ents doc) as [|[label0 text0] seen IH] using rev_ind.
  - simpl. split; [constructor|]. split; [discriminate|].
    intros label text. split; [intros (? & [=] & _)|intros Hin; inversion Hin].
  - destruct IH as (Hkeys & Htexts & Hiff). rewrite foldl_app. cbn [foldl].
    set (entities := foldl add_entity [] seen) in *.
    split; [now apply add_entity_NoDup|]. split.
    + intros label texts. rewrite add_entity_get.
      destruct (decide (label = label0)) as [->|]; [|apply Htexts].
      intros [= <-]. simpl.
      destruct (dict_get label0 entities) as [texts0|] eqn:Hget; simpl.
      * specialize (Htexts _ _ Hget).
        destruct (decide (text0 ∈ texts0)); [assumption|].
        apply NoDup_app. split; [assumption|].
        split; [|apply NoDup_singleton].
        intros x Hx Hx'. apply list_elem_of_singleton in Hx'. congruence.
      * destruct (decide (text0 ∈ [])) as [Hnil|_];
          [inversion Hnil|apply NoDup_singleton].
    + intros label text. rewrite add_entity_get, elem_of_app,
        list_elem_of_singleton, <- Hiff.
      destruct (decide (label = label0)) as [->|Hne].
      * split.
        -- intros (texts & [= <-] & Hin). simpl in Hin.
           destruct (dict_get label0 entities) as [texts0|] eqn:Hget;
             simpl in Hin.
           ++ destruct (decide (text0 ∈ texts0)); [left; eauto|].
              apply elem_of_app in Hin as [Hin|Hin]; [left; eauto|].
              apply list_elem_of_singleton in Hin. right. congruence.
           ++ destruct (decide (text0 ∈ [])) as [Hnil|_]; [inversion Hnil|].
              apply list_elem_of_singleton in Hin. right. congruence.
        -- intros [(texts & Hget & Hin)|[= ->]].
           ++ rewrite Hget. simpl. eexists. split; [reflexivity|].
              destruct (decide (text0 ∈ texts)); [assumption|].
              apply elem_of_app. now left.
           ++ eexists. split; [reflexivity|]. simpl.
              destruct (decide (text0 ∈ _)); [assumption|].
              apply elem_of_app. right. constructor.
      * split; [intros (texts & Hget & Hin); left; eauto|].
        intros [Hex|[= ? _]]; [assumption|congruence].
Qed.

(** X14. The keywords of a document: at most [top_n] of them, none
    twice; each is the lower-cased lemma of a token that passes the
    filter; they come by decreasing number of occurrences among the
    candidates; and no candidate that was left out occurs more often
    than one that was kept. *)
Theorem extract_keywords_ranked doc top_n :
  let cands := candidates Doc tokens stop_words lower doc in
  let keywords := _extract_keywords Doc tokens stop_words lower doc top_n in
  len keywords <= Z.max 0 top_n
  /\ NoDup keywords
  /\ (forall k, k ∈ keywords ->
        exists token,
          token ∈ tokens doc
          /\ relevant stop_words lower token = true
          /\ k = lower (lemma_ token))
  /\ (forall i j ki kj,
        (i < j)%nat -> keywords !! i = Some ki -> keywords !! j = Some kj ->
        (occurrences kj cands <= occurrences ki cands)%nat)
  /\ (forall k c,
        k ∈ keywords -> c ∈ cands -> c ∉ keywords ->
        (occurrences c cands <= occurrences k cands)%nat).
Proof.
  intros cands keywords.
  destruct (most_common_ranked cands top_n)
    as (Hlen & Hnd & Hin & Hsorted & Hout).
  split; [exact Hlen|]. split; [exact Hnd|].
  split; [|split; [exact Hsorted|exact Hout]].
  intros k Hk. apply Hin in Hk. unfold cands, candidates in Hk.
  apply list_elem_of_fmap in Hk as (token & -> & Hk).
  apply list_elem_of_filter in Hk as [Hrel Hk].
  exists token. split; [assumption|]. split; [|reflexivity].
  now apply Is_true_true.
Qed.
End Annotation.

(** X16. [detect_language] runs the pipeline on the first 1000
    characters of the text at most. When the document carries a
    language code the answer is never [None]: it is the name listed for
    the code, or the code itself when it is not listed. *)
Theorem detect_language_sample (Doc : Type) (nlp : str -> Doc)
    (lang_ : Doc -> option str) lower is_word text :
  let result := detect_language Doc nlp lang_ lower is_word text in
  result.2 = take 1000 text
  /\ len result.2 <= 1000
  /\ (forall code,
        lang_ (nlp result.2) = Some code ->
        result.1 = Some (default code (dict_get code supported_languages)))
  /\ (result.1 = None -> lang_ (nlp result.2) = None).
Proof.
  cbv zeta. unfold detect_language.
  set (sample := if len text >? 1000 then slice text 0 1000 else text).
  assert (Hsample : sample = take 1000 text).
  { unfold sample. destruct (Z.gtb_spec (len text) 1000).
    - rewrite slice_in_range by lia. reflexivity.
    - symmetry. apply take_ge. unfold len in *. lia. }
  assert (Hlen : len sample <= 1000).
  { rewrite Hsample. unfold len. rewrite length_take. lia. }
  destruct (lang_ (nlp sample)) as [code|] eqn:Hlang; cbn [fst snd].
  - repeat split; try assumption; [|discriminate].
    intros code' Heq. rewrite Hlang in Heq. injection Heq as <-. reflexivity.
  - destruct (_ <? _)%nat; [|destruct (_ <? _)%nat]; cbn [fst snd];
      repeat split; try assumption; try discriminate; try reflexivity;
      try (intros _; exact Hlang);
      intros code' Heq; rewrite Hlang in Heq; discriminate.
Qed.

(** *** Topics and concepts *)

Section Topics.
Variable Doc : Type.
Variable noun_chunks : Doc -> option (list Span).
Variable tokens : Doc -> list Token.
Variable lower : str -> str.

Local Abbreviation clean_chunks := (clean_chunks Doc noun_chunks lower).
Local Abbreviation noun_lemmas := (noun_lemmas Doc tokens lower).
Local Abbreviation noun_phrases := (noun_phrases Doc noun_chunks tokens lower).
Local Abbreviation main_topics := (main_topics Doc noun_chunks tokens lower).

(** X24. The topics of a document: at most [num_topics] of them,
    none twice. Each is a noun chunk, lower-cased and stripped, of more
    than three characters, or, only when there are fewer than
    [num_topics] such chunks (counted with their repetitions), the
    lower-cased lemma of a noun or proper noun whose text has more than
    three characters. They come by decreasing number of occurrences,
    and nothing that was left out occurs more often than a topic. *)
Theorem main_topics_ranked doc num_topics :
  let phrases := noun_phrases doc num_topics in
  let topics := main_topics doc num_topics in
  len topics <= Z.max 0 num_topics
  /\ NoDup topics
  /\ (forall topic, topic ∈ topics ->
        (exists chunks chunk,
           noun_chunks doc = Some chunks /\ chunk ∈ chunks
           /\ topic = Utils.strip (lower (span_text chunk))
           /\ 3 < len topic)
        \/ (len (clean_chunks doc) < num_topics
            /\ exists token,
                 token ∈ tokens doc
                 /\ pos_ token ∈ NOUN_POS
                 /\ 3 < len (token_text token)
                 /\ topic = lower (lemma_ token)))
  /\ (forall i j ti tj,
        (i < j)%nat -> topics !! i = Some ti -> topics !! j = Some tj ->
        (occurrences tj phrases <= occurrences ti phrases)%nat)
  /\ (forall topic phrase,
        topic ∈ topics -> phrase ∈ phrases -> phrase ∉ topics ->
        (occurrences phrase phrases <= occurrences topic phrases)%nat).
Proof.
  intros phrases topics.
  destruct (most_common_ranked phrases num_topics)
    as (Hlen & Hnd & Hin & Hsorted & Hout).
  split; [exact Hlen|]. split; [exact Hnd|].
  split; [|split; [exact Hsorted|exact Hout]].
  intros topic Htopic. apply Hin in Htopic.
  assert (Hclean : topic ∈ clean_chunks doc ->
            exists chunks chunk,
              noun_chunks doc = Some chunks /\ chunk ∈ chunks
              /\ topic = Utils.strip (lower (span_text chunk))
              /\ 3 < len topic).
  { unfold NLPService.clean_chunks.
    destruct (noun_chunks doc) as [chunks|]; [|intros H; inversion H].
    intros H. apply list_elem_of_filter in H as [Hlong H].
    apply list_elem_of_fmap in H as (chunk & -> & H).
    exists chunks, chunk. auto. }
  unfold phrases, NLPService.noun_phrases in Htopic.
  destruct (Z.ltb_spec (len (clean_chunks doc)) num_topics) as [Hfew|Hmany].
  - apply elem_of_app in Htopic as [Htopic|Htopic]; [left; auto|].
    right. split; [assumption|].
    unfold NLPService.noun_lemmas in Htopic.
    apply list_elem_of_fmap in Htopic as (token & -> & Htopic).
    apply list_elem_of_filter in Htopic as [[Hpos Hlong] Htoken].
    exists token. auto.
  - left. auto.
Qed.
End Topics.

Lemma main_topics_ranked_witness :
  NoDup (sample_topics 6)
  /\ sample_topics 6
     = map lit ["las plantas"; "planta"; "la onu"; "ellos mismos";
                "luz solar"; "madrid"]%string
  /\ sample_topics 5
     = map lit ["las plantas"; "la onu"; "ellos mismos"; "luz solar"]%string.
Proof.
  split; [|split; vm_compute; reflexivity].
  exact (proj1 (proj2 (main_topics_ranked unit (fun _ => Some sample_chunks)
                         (fun _ => sample_tokens) lower_latin1 tt 6))).
Defined.

Section Concepts.
Variable Doc : Type.
Variable ents : Doc -> list Span.
Variable noun_chunks : Doc -> list Span.
Variable sents : Doc -> list Span.
Variable lower : str -> str.

Local Abbreviation entity_candidates := (entity_candidates Doc ents).
Local Abbreviation concept_candidates :=
  (concept_candidates Doc ents noun_chunks).
Local Abbreviation context_sentence := (context_sentence Doc sents).
Local Abbreviation add_concept := (add_concept Doc sents).
Local Abbreviation add_unique := (add_unique lower).
Local Abbreviation educational_concepts :=
  (educational_concepts Doc ents noun_chunks sents lower).

(** The candidate of a noun chunk, and the chunks that give one. *)
Let chunk_candidate (chunk : Span) : candidate :=
  (span_text chunk, NOUN_PHRASE, span_start chunk, span_end chunk).
Local Abbreviation kept doc :=
  (fun chunk : Span =>
     root_pos_ chunk ∈ NOUN_POS
     /\ 3 < len (span_text chunk)
     /\ in_entity (entity_candidates doc) chunk = false).

Lemma in_entity_app candidates chunks chunk :
  in_entity (candidates ++ (chunk_candidate <$> chunks)) chunk
  = in_entity candidates chunk.
Proof.
  unfold in_entity. rewrite filter_app.
  replace (filter (fun c : candidate => c.1.1.2 = ENTITY)
             (chunk_candidate <$> chunks)) with (@nil candidate).
  - now rewrite app_nil_r.
  - induction chunks as [|c chunks IH]; [reflexivity|].
    rewrite fmap_cons, filter_cons, <- IH.
    destruct (decide _) as [Heq|]; [|reflexivity].
    vm_compute in Heq. discriminate.
Qed.

Lemma concept_candidates_spec doc :
  concept_candidates doc
  = entity_candidates doc
    ++ (chunk_candidate <$> filter (kept doc) (noun_chunks doc)).
Proof.
  unfold NLPService.concept_candidates.
  induction (noun_chunks doc) as [|chunk chunks IH] using rev_ind.
  - simpl. now rewrite app_nil_r.
  - rewrite foldl_app, IH. cbn [foldl]. unfold add_chunk.
    rewrite in_entity_app, filter_app, fmap_app, filter_cons, filter_nil.
    destruct (decide (_ /\ _)) as [(Hpos & Hlong & Hout)|Hnot].
    + rewrite bool_decide_eq_true_2 by assumption.
      destruct (Z.ltb_spec 3 (len (span_text chunk))); [|lia].
      rewrite Hout. simpl. now rewrite app_assoc.
    + rewrite app_nil_r.
      destruct (bool_decide (root_pos_ chunk ∈ NOUN_POS)) eqn:Hpos;
        [|reflexivity].
      destruct (Z.ltb_spec 3 (len (span_text chunk))); [|reflexivity].
      destruct (in_entity (entity_candidates doc) chunk) eqn:Hout;
        [reflexivity|].
      exfalso. apply Hnot. apply bool_decide_eq_true_1 in Hpos.
      split; [assumption|]. split; [assumption|reflexivity].
Qed.

(** The concept that a candidate gives, if any. *)
Let concept_of (doc : Doc) (c : candidate) : option Concept :=
  let '(concept, concept_type, start, end_) := c in
  match context_sentence doc start end_ with
  | Some (x :: s) =>
      Some {| term := concept; type_ := concept_type; context := x :: s |}
  | _ => None
  end.

Lemma add_concept_spec doc candidates : forall concepts,
  foldl (add_concept doc) concepts candidates
  = concepts ++ omap (concept_of doc) candidates.
Proof.
  induction candidates as [|[[[concept concept_type] start] end_] l IH];
    intros concepts.
  - simpl. now rewrite app_nil_r.
  - cbn [foldl]. rewrite IH. cbn [omap list_omap]. unfold concept_of at 2.
    unfold NLPService.add_concept.
    destruct (context_sentence doc start end_) as [[|x s]|]; simpl;
      try reflexivity.
    now rewrite <- app_assoc.
Qed.

Let norm (concept : Concept) : str := lower (term concept).

Lemma add_unique_spec concepts : forall unique_concepts seen_terms,
  NoDup (norm <$> unique_concepts) ->
  (forall x, x ∈ seen_terms <-> x ∈ norm <$> unique_concepts) ->
  let result := (foldl add_unique (unique_concepts, seen_terms) concepts).1 in
  NoDup (norm <$> result)
  /\ (forall c, c ∈ result -> c ∈ unique_concepts \/ c ∈ concepts)
  /\ (forall c, c ∈ unique_concepts \/ c ∈ concepts ->
                norm c ∈ norm <$> result).
Proof.
  induction concepts as [|concept concepts IH];
    intros unique_concepts seen_terms Hnd Hseen; cbn [foldl].
  - simpl. split; [assumption|]. split; [auto|].
    intros c [Hc|Hc]; [|inversion Hc]. now apply list_elem_of_fmap_2.
  - assert (Hstep :
              add_unique (unique_concepts, seen_terms) concept
              = if decide (lower (term concept) ∈ seen_terms)
                then (unique_concepts, seen_terms)
                else (unique_concepts ++ [concept],
                      lower (term concept) :: seen_terms)) by reflexivity.
    rewrite Hstep. clear Hstep.
    destruct (decide (lower (term concept) ∈ seen_terms)) as [Hold|Hnew].
    + destruct (IH unique_concepts seen_terms Hnd Hseen)
        as (Hnd' & Hfrom & Hto).
      split; [assumption|]. split.
      * intros c Hc. destruct (Hfrom c Hc); [now left|].
        right. now constructor.
      * intros c [Hc|Hc]; [apply Hto; now left|].
        apply elem_of_cons in Hc as [->|Hc]; [|apply Hto; now right].
        apply Hseen in Hold.
        apply list_elem_of_fmap in Hold as (c' & Heq & Hc').
        fold (norm concept) in Heq. rewrite Heq. apply Hto. now left.
    + destruct (IH (unique_concepts ++ [concept])
                  (lower (term concept) :: seen_terms))
        as (Hnd' & Hfrom & Hto).
      * rewrite fmap_app. apply NoDup_app. split; [assumption|].
        split; [|apply NoDup_singleton].
        intros x Hx Hx'. apply list_elem_of_singleton in Hx'. subst x.
        apply Hnew, Hseen. exact Hx.
      * intros x. rewrite elem_of_cons, fmap_app, elem_of_app, Hseen.
        simpl. rewrite list_elem_of_singleton. tauto.
      * split; [assumption|]. split.
        -- intros c Hc. destruct (Hfrom c Hc) as [Hc'|Hc'].
           ++ apply elem_of_app in Hc' as [Hc'|Hc']; [now left|].
              apply list_elem_of_singleton in Hc'. subst c.
              right. constructor.
           ++ right. now constructor.
        -- intros c [Hc|Hc].
           ++ apply Hto. left. apply elem_of_app. now left.
           ++ apply elem_of_cons in Hc as [->|Hc].
              ** apply Hto. left. apply elem_of_app. right. constructor.
              ** apply Hto. now right.
Qed.

(** X25. The concepts of a document: no two of them have the same
    lower-cased term. Each has a context that is not empty, the text of
    the first sentence that holds its span, and is either an entity
    labelled [ORG], [PERSON], [EVENT], [WORK_OF_ART], [LAW] or [DATE],
    or a noun chunk of more than three characters with a noun or proper
    noun as its root that lies within no such entity. And every such
    entity that has a context is represented: its lower-cased text is
    the lower-cased term of a concept. *)
Theorem educational_concepts_spec doc :
  let concepts := educational_concepts doc in
  NoDup ((fun concept => lower (term concept)) <$> concepts)
  /\ (forall concept, concept ∈ concepts ->
        context concept <> []
        /\ exists span,
             term concept = span_text span
             /\ context_sentence doc (span_start span) (span_end span)
                = Some (context concept)
             /\ ((type_ concept = ENTITY
                  /\ span ∈ ents doc /\ label_ span ∈ CONCEPT_LABELS)
                 \/ (type_ concept = NOUN_PHRASE
                     /\ span ∈ noun_chunks doc
                     /\ root_pos_ span ∈ NOUN_POS
                     /\ 3 < len (span_text span)
                     /\ forall ent,
                          ent ∈ ents doc -> label_ ent ∈ CONCEPT_LABELS ->
                          within (span_start span) (span_end span)
                            (span_start ent) (span_end ent) = false)))
  /\ (forall ent,
        ent ∈ ents doc -> label_ ent ∈ CONCEPT_LABELS ->
        truthy_str (context_sentence doc (span_start ent) (span_end ent))
        = true ->
        lower (span_text ent)
        ∈ (fun concept => lower (term concept)) <$> concepts).
Proof.
  intros concepts. unfold concepts, NLPService.educational_concepts.
  rewrite add_concept_spec, app_nil_l, concept_candidates_spec.
  set (found := omap (concept_of doc) _).
  destruct (add_unique_spec found [] []) as (Hnd & Hfrom & Hto).
  { constructor. }
  { intros x. simpl. tauto. }
  split; [exact Hnd|]. split.
  - intros concept Hin. destruct (Hfrom concept Hin) as [Hnil|Hfound];
      [inversion Hnil|].
    unfold found in Hfound. apply list_elem_of_omap in Hfound
      as ([[[text type] start] end_] & Hcand & Hconcept).
    unfold concept_of in Hconcept.
    destruct (context_sentence doc start end_) as [[|x s]|] eqn:Hcontext;
      try discriminate.
    injection Hconcept as <-. simpl. split; [discriminate|].
    apply elem_of_app in Hcand as [Hcand|Hcand].
    + unfold NLPService.entity_candidates in Hcand.
      apply list_elem_of_fmap in Hcand as (ent & [= -> -> -> ->] & Hent).
      apply list_elem_of_filter in Hent as [Hlabel Hent].
      exists ent. split; [reflexivity|]. split; [assumption|]. left. auto.
    + apply list_elem_of_fmap in Hcand as (chunk & [= -> -> -> ->] & Hchunk).
      apply list_elem_of_filter in Hchunk as [(Hpos & Hlong & Hout) Hchunk].
      exists chunk. split; [reflexivity|]. split; [assumption|]. right.
      split; [reflexivity|]. split; [assumption|]. split; [assumption|].
      split; [assumption|].
      intros ent Hent Hlabel.
      unfold in_entity in Hout.
      destruct (within _ _ (span_start ent) (span_end ent)) eqn:Hin';
        [|reflexivity].
      exfalso. apply not_true_iff_false in Hout. apply Hout.
      apply existsb_exists.
      exists (span_text ent, ENTITY, span_start ent, span_end ent).
      split; [|exact Hin'].
      apply list_elem_of_In, list_elem_of_filter. split; [reflexivity|].
      unfold NLPService.entity_candidates.
      apply (list_elem_of_fmap_2
               (fun ent => (span_text ent, ENTITY, span_start ent,
                            span_end ent))).
      now apply list_elem_of_filter.
  - intros ent Hent Hlabel Hcontext.
    destruct (context_sentence doc (span_start ent) (span_end ent))
      as [[|x s]|] eqn:Hsentence; try discriminate.
    apply (Hto {| term := span_text ent; type_ := ENTITY;
                  context := x :: s |}).
    right. unfold found. apply list_elem_of_omap.
    exists (span_text ent, ENTITY, span_start ent, span_end ent). split.
    + apply elem_of_app. left. unfold NLPService.entity_candidates.
      apply (list_elem_of_fmap_2
               (fun ent => (span_text ent, ENTITY, span_start ent,
                            span_end ent))).
      now apply list_elem_of_filter.
    + unfold concept_of. now rewrite Hsentence.
Qed.
End Concepts.

Lemma educational_concepts_spec_witness :
  lower_latin1 (lit "ONU")
  ∈ (fun concept => lower_latin1 (term concept)) <$> sample_concepts
  /\ sample_concepts
     = [{| term := lit "ONU"; type_ := ENTITY;
           context := lit "Primera frase." |};
        {| term := lit "las plantas"; type_ := NOUN_PHRASE;
           context := lit "Primera frase." |};
        {| term := lit "  Luz Solar "; type_ := NOUN_PHRASE;
           context := lit "Tercera frase." |}].
Proof.
  split; [|vm_compute; reflexivity].
  apply (proj2 (proj2 (educational_concepts_spec unit (fun _ => sample_ents)
                         (fun _ => sample_chunks) (fun _ => sample_sents)
                         lower_latin1 tt))
           (span "ONU" "ORG" "" 0 1)).
  - constructor.
  - apply (bool_decide_unpack _). vm_compute. reflexivity.
  - vm_compute. reflexivity.
Defined.

End NLPServiceProps.

(** ** [DocumentProcessor.process_upload] *)

Module DocumentProcessorProps.
Import DocumentProcessor Samples.

Section Processor.
Variable lower : str -> str.
Variable order : list str.
Variable CHUNK_SIZE : Z.
Variable Entities : Type.
Variable _process_pdf : bytes -> bool -> outcome (str * DocumentMetadata).
Variable extract_entities_and_keywords : str -> outcome (Entities * list str).
Variable detect_language : str -> outcome (option str).
Variable generate_file_id : str.

Let doc_type_of (file : UploadFile) : DocumentType :=
  _get_document_type (lower (splitext_ext (filename file))).
Let upload :=
  process_upload lower order CHUNK_SIZE Entities _process_pdf
    extract_entities_and_keywords detect_language generate_file_id.

(** The plain-text branch lets the decoding error through. *)
Lemma text_decode_failure file perform_ocr :
  doc_type_of file = TEXT ->
  utf8_decode (content file) = None ->
  upload file perform_ocr = Raise UnicodeDecodeError.
Proof.
  unfold upload, doc_type_of, process_upload, extract, decode.
  intros -> ->. reflexivity.
Qed.

(** The branch of the other non-PDF types turns it into the
    "unsupported or corrupt format" error. *)
Lemma other_decode_failure file perform_ocr :
  doc_type_of file = DOCX \/ doc_type_of file = MARKDOWN ->
  utf8_decode (content file) = None ->
  upload file perform_ocr = Raise (HTTPException 415 MSG_UNSUPPORTED).
Proof.
  unfold upload, doc_type_of, process_upload, extract, decode.
  intros [-> | ->] ->; reflexivity.
Qed.
End Processor.

(** C6 at a file the code can receive: [notes.txt] holding the single
    byte 0xFF, which is not UTF-8. Its type is detected as text, and
    [process_upload] ends with the [UnicodeDecodeError] of the decoding,
    not with the "unsupported or corrupt format" error that the same
    bytes give under the name [notes.md]. No document is produced in
    either case. *)
Theorem text_upload_not_utf8 :
  forall order CHUNK_SIZE Entities _process_pdf extract_entities_and_keywords
         detect_language generate_file_id perform_ocr,
    let upload :=
      process_upload lower_latin1 order CHUNK_SIZE Entities _process_pdf
        extract_entities_and_keywords detect_language generate_file_id in
    _get_document_type (lower_latin1 (splitext_ext (lit "notes.txt"))) = TEXT
    /\ utf8_decode [xff] = None
    /\ upload {| filename := lit "notes.txt"; content := [xff];
                 content_type := lit "text/plain" |} perform_ocr
       = Raise UnicodeDecodeError
    /\ upload {| filename := lit "notes.md"; content := [xff];
                 content_type := lit "text/markdown" |} perform_ocr
       = Raise (HTTPException 415 MSG_UNSUPPORTED).
Proof.
  intros. split; [vm_compute; reflexivity|]. split; [reflexivity|]. split.
  - apply text_decode_failure; [vm_compute|]; reflexivity.
  - apply other_decode_failure; [right; vm_compute|]; reflexivity.
Qed.

(** *** No document is returned *)

(** The name [chunk_text] is a local of both bodies, and nothing is
    bound to it at the call. *)
Lemma load_chunk_text_unbound :
  load_chunk_text process_upload_locals None = inl (lit "chunk_text")
  /\ load_chunk_text text_to_document_locals None = inl (lit "chunk_text").
Proof. split; vm_compute; reflexivity. Qed.

Section Scoped.
Variable lower : str -> str.
Variable order : list str.
Variable CHUNK_SIZE : Z.
Variable Entities : Type.
Variable _process_pdf : bytes -> bool -> outcome (str * DocumentMetadata).
Variable extract_entities_and_keywords : str -> outcome (Entities * list str).
Variable detect_language : str -> outcome (option str).
Variable generate_file_id : str.

Let doc_type_of (file : UploadFile) : DocumentType :=
  _get_document_type (lower (splitext_ext (filename file))).
Let upload :=
  process_upload lower order CHUNK_SIZE Entities _process_pdf
    extract_entities_and_keywords detect_language generate_file_id.
Let scoped :=
  process_upload_scoped lower order CHUNK_SIZE Entities _process_pdf
    extract_entities_and_keywords detect_language generate_file_id.
Let to_document :=
  text_to_document lower order CHUNK_SIZE Entities
    extract_entities_and_keywords detect_language generate_file_id.
Let check := Security.content_security_check lower order.

Lemma document_of_unbound locals document_id md text :
  load_chunk_text locals None = inl (lit "chunk_text") ->
  document_of CHUNK_SIZE Entities extract_entities_and_keywords
    detect_language locals document_id md text
  = UnboundLocalError (lit "chunk_text").
Proof. unfold document_of. now intros ->. Qed.

(** X17. [process_upload] returns no document, whatever the upload,
    the chunk size and the services. Once the text is extracted and
    the guard has accepted it, the call of [chunk_text] raises
    [UnboundLocalError]: the loop further down makes the name a local
    of the body. Up to that call the body runs as it would with the
    imported function: every upload ends either with that
    [UnboundLocalError] or as [process_upload] read with the imported
    function ends, and then not with a document. *)
Theorem process_upload_returns_nothing file perform_ocr :
  (forall doc, scoped file perform_ocr <> Ends (Return doc))
  /\ (forall extracted_text md,
        extract lower _process_pdf file perform_ocr
        = Return (extracted_text, md) ->
        (check extracted_text).1 = true ->
        scoped file perform_ocr = UnboundLocalError (lit "chunk_text"))
  /\ (scoped file perform_ocr = UnboundLocalError (lit "chunk_text")
      \/ scoped file perform_ocr = Ends (upload file perform_ocr)).
Proof.
  unfold scoped, upload, check, process_upload_scoped, process_upload.
  destruct (extract lower _process_pdf file perform_ocr)
    as [[extracted_text md]|e|]; simpl.
  - destruct (Security.content_security_check lower order extracted_text)
      as [is_safe reason] eqn:Hcheck.
    destruct is_safe; simpl.
    + rewrite (document_of_unbound _ _ _ _ (proj1 load_chunk_text_unbound)).
      split; [discriminate|]. split; [|now left].
      intros ? ? _ _. reflexivity.
    + split; [discriminate|]. split; [|now right].
      intros t m [= <- <-]. rewrite Hcheck. discriminate.
  - split; [discriminate|]. split; [discriminate|now right].
  - split; [discriminate|]. split; [discriminate|now right].
Qed.

(** X18. A file that is not a PDF and whose bytes are UTF-8: the guard
    alone decides how [process_upload] ends. When it rejects the
    decoded text the call ends with HTTP 400 and the reason of the
    guard, and when it accepts the text the call ends with the
    [UnboundLocalError] of [chunk_text]; the name, the size and the
    content type of the upload, the chunk size and the NLP service
    have no part in it. *)
Theorem process_upload_plain file perform_ocr text :
  doc_type_of file <> PDF ->
  utf8_decode (content file) = Some text ->
  scoped file perform_ocr
  = if (check text).1
    then UnboundLocalError (lit "chunk_text")
    else Ends (Raise (HTTPException 400
                        (MSG_INAPPROPRIATE ++ (check text).2))).
Proof.
  intros Htype Hdecode.
  assert (Hextract :
            extract lower _process_pdf file perform_ocr
            = Return (text, _create_basic_metadata (filename file)
                              (len (content file)) (content_type file))).
  { unfold extract, decode. fold (doc_type_of file).
    destruct (doc_type_of file); [congruence|..]; now rewrite Hdecode. }
  unfold scoped, process_upload_scoped. rewrite Hextract.
  unfold check. destruct (Security.content_security_check lower order text)
    as [is_safe reason]. simpl.
  destruct is_safe; simpl; [|reflexivity].
  apply document_of_unbound, load_chunk_text_unbound.
Qed.

(** X19. [text_to_document] returns no document either, whatever the
    text and the title: a text that the guard rejects ends with HTTP
    400 and the reason of the guard; a text that the guard accepts but
    that cannot be encoded (it holds a surrogate) ends with the
    [UnicodeEncodeError] of the size computation; and every other text
    ends with the [UnboundLocalError] of [chunk_text]. *)
Theorem text_to_document_returns_nothing text title :
  (forall doc, to_document text title <> Ends (Return doc))
  /\ to_document text title
     = if (check text).1
       then match utf8_encode text with
            | Some _ => UnboundLocalError (lit "chunk_text")
            | None => Ends (Raise UnicodeEncodeError)
            end
       else Ends (Raise (HTTPException 400
                           (MSG_INAPPROPRIATE ++ (check text).2))).
Proof.
  unfold to_document, text_to_document, check.
  destruct (Security.content_security_check lower order text)
    as [is_safe reason].
  destruct is_safe; simpl.
  - destruct (utf8_encode text) as [encoded|].
    + rewrite (document_of_unbound _ _ _ _ (proj2 load_chunk_text_unbound)).
      split; [discriminate|reflexivity].
    + split; [discriminate|reflexivity].
  - split; [discriminate|reflexivity].
Qed.
End Scoped.

Lemma process_upload_returns_nothing_witness :
  sample_upload_scoped lesson_file true = UnboundLocalError (lit "chunk_text").
Proof.
  apply (proj1 (proj2 (process_upload_returns_nothing lower_latin1
                         Security.PROHIBITED_CONTENT 16 unit
                         (fun _ _ => Raise (HTTPException 400
                                              (lit "Error procesando PDF: ")))
                         (fun _ => Return (tt, []))
                         (fun _ => Return (Some (lit "español"))) (lit "doc")
                         lesson_file true))
           lesson
           (_create_basic_metadata (filename lesson_file)
              (len (content lesson_file)) (content_type lesson_file)));
    vm_compute; reflexivity.
Defined.

Lemma process_upload_plain_witness :
  utf8_decode (content lesson_file) = Some lesson
  /\ sample_upload_scoped lesson_file true
     = UnboundLocalError (lit "chunk_text").
Proof.
  assert (Hdecode : utf8_decode (content lesson_file) = Some lesson)
    by (vm_compute; reflexivity).
  split; [exact Hdecode|].
  exact (process_upload_plain lower_latin1 Security.PROHIBITED_CONTENT 16
           unit
           (fun _ _ => Raise (HTTPException 400
                                (lit "Error procesando PDF: ")))
           (fun _ => Return (tt, []))
           (fun _ => Return (Some (lit "español"))) (lit "doc")
           lesson_file true lesson ltac:(vm_compute; discriminate) Hdecode).
Defined.

Lemma text_to_document_returns_nothing_witness :
  sample_text_to_document lesson (Some (lit "leccion"))
  = UnboundLocalError (lit "chunk_text").
Proof.
  exact (proj2 (text_to_document_returns_nothing lower_latin1
                  Security.PROHIBITED_CONTENT 16 unit
                  (fun _ => Return (tt, []))
                  (fun _ => Return (Some (lit "español"))) (lit "doc")
                  lesson (Some (lit "leccion")))).
Defined.

End DocumentProcessorProps.

(** ** [create_summary] *)

Module SummaryProps.
Import Summary.

Section Endpoint.
Variable CreateSummaryRequest : Type.
Variable document_id : CreateSummaryRequest -> option str.
Variable text : CreateSummaryRequest -> option str.
Variable preprocess : CreateSummaryRequest -> bool.
Variable length : CreateSummaryRequest -> str.
Variable include_keywords : CreateSummaryRequest -> bool.
Variable SummaryResponse : Type.
Variable validated : list (str * argument) -> SummaryResponse.
Variable validation_message : list (str * argument) -> str.
Variable Document : Type.
Variable document_text_of : Document -> str.
Variable get_document : str -> outcome (option Document).
Variable preprocess_text : str -> outcome str.
Variable generate_summary : str -> str -> outcome str.
Variable extract_keywords : str -> Z -> outcome (list str).
Variable uuid4 : str.
Variable Data : Type.
Variable generate_visualization : str -> VisualizationType -> outcome Data.
Variable VisualizationResponse : Type.
Variable new_VisualizationResponse :
  str -> option str -> VisualizationType -> Data ->
  outcome VisualizationResponse.

Let endpoint :=
  create_summary CreateSummaryRequest document_id text preprocess length
    include_keywords SummaryResponse validated validation_message
    Document document_text_of get_document preprocess_text
    generate_summary extract_keywords uuid4.
Let visualization :=
  create_visualization Document document_text_of get_document Data
    generate_visualization VisualizationResponse new_VisualizationResponse
    uuid4.

(** The outcome of [create_summary] is decided by the attributes of
    the request other than its raw text, once it names a document. *)
Lemma create_summary_text_unread r1 r2 :
  truthy_str (document_id r1) = true ->
  document_id r2 = document_id r1 ->
  preprocess r2 = preprocess r1 ->
  length r2 = length r1 ->
  include_keywords r2 = include_keywords r1 ->
  endpoint r1 = endpoint r2.
Proof.
  intros Hid Hsame Hpre Hlen Hkey.
  unfold endpoint, create_summary, summary_body, resolve_text.
  rewrite Hsame, Hpre, Hlen, Hkey, Hid. reflexivity.
Qed.


(** *** The errors of the endpoint *)

(** X20. Whatever the registry and the services do, the only
    exceptions that leave [create_summary] are HTTP exceptions. *)
Theorem create_summary_raises_http request e :
  endpoint request = Raise e ->
  exists status_code detail, e = HTTPException status_code detail.
Proof.
  unfold endpoint, create_summary.
  destruct (summary_body _ _ _ _ _ _ _ _ _ _ _ _ _ _ _ _ request)
    as [r|e'|]; [discriminate| |discriminate].
  destruct e'; intros [= <-]; eauto.
Qed.

(** X21. A request that names a document: when the registry does not
    know it, the answer is HTTP 404 with the identifier, whether or not
    raw text came along; when the registry knows it but its text is
    empty, the answer is the HTTP 400 of a request without a source;
    and a failure of the registry itself that is not an HTTP exception
    is reported as HTTP 500, with the text of the exception. *)
Theorem create_summary_document request id :
  document_id request = Some id -> id <> [] ->
  (get_document id = Return None ->
   endpoint request = Raise (HTTPException 404 (MSG_NOT_FOUND ++ id)))
  /\ (forall document,
        get_document id = Return (Some document) ->
        document_text_of document = [] ->
        endpoint request = Raise (HTTPException 400 MSG_REQUIRED))
  /\ (forall e,
        (forall status_code detail, e <> HTTPException status_code detail) ->
        get_document id = Raise e ->
        endpoint request = Raise (HTTPException 500 (MSG_FAILED ++ str_exn e))).
Proof.
  intros Hid Hne.
  unfold endpoint, create_summary, summary_body, resolve_text.
  rewrite Hid. destruct id as [|c id]; [congruence|]. simpl.
  split; [|split].
  - intros ->. reflexivity.
  - intros document -> Hempty. simpl. rewrite Hempty. reflexivity.
  - intros e Hhttp ->. simpl.
    destruct e; try reflexivity. now destruct (Hhttp status_code detail).
Qed.

(** The keyword arguments of the endpoint leave five required fields
    out. *)
Lemma response_fields_missing summary_id document_id0 summary_text length0
    keywords created_at :
  missing_fields
    [(lit "summary_id", summary_id); (lit "document_id", document_id0);
     (lit "text", summary_text); (lit "length", length0);
     (lit "keywords", keywords); (lit "created_at", created_at)]
  = map lit ["summary"; "key_concepts"; "estimated_reading_time";
             "original_text_length"; "compression_ratio"]%string.
Proof. vm_compute. reflexivity. Qed.

End Endpoint.

Import Samples.



Lemma create_summary_raises_http_witness :
  sample_endpoint knows_all neither_present
  = Raise (HTTPException 400 MSG_REQUIRED)
  /\ exists status_code detail,
       HTTPException 400 MSG_REQUIRED = HTTPException status_code detail.
Proof.
  assert (Hrun : sample_endpoint knows_all neither_present
                 = Raise (HTTPException 400 MSG_REQUIRED)) by reflexivity.
  split; [exact Hrun|].
  exact (create_summary_raises_http request given_document_id given_text
           given_preprocess given_length given_include_keywords
                (list (str * Summary.argument)) id
           fields_listed str id knows_all Return
           (fun document_text _ => Return (lit "Resumen: " ++ document_text))
           (fun _ _ => Return [])
           (lit "00000000-0000-4000-8000-000000000000")
           neither_present _ Hrun).
Defined.

Lemma create_summary_document_witness :
  sample_endpoint knows_none both_present
  = Raise (HTTPException 404 (MSG_NOT_FOUND ++ lit "doc-1"))
  /\ sample_endpoint no_get_document both_present
     = Raise (HTTPException 500 (MSG_FAILED ++ MSG_NO_GET_DOCUMENT)).
Proof.
  split.
  - destruct (create_summary_document request given_document_id given_text
                given_preprocess given_length given_include_keywords
                (list (str * Summary.argument)) id
                fields_listed str id knows_none Return
                (fun document_text _ =>
                   Return (lit "Resumen: " ++ document_text))
                (fun _ _ => Return [])
                (lit "00000000-0000-4000-8000-000000000000")
                both_present (lit "doc-1") eq_refl ltac:(discriminate))
      as (Hunknown & _ & _).
    apply Hunknown. reflexivity.
  - destruct (create_summary_document request given_document_id given_text
                given_preprocess given_length given_include_keywords
                (list (str * Summary.argument)) id
                fields_listed str id no_get_document Return
                (fun document_text _ =>
                   Return (lit "Resumen: " ++ document_text))
                (fun _ _ => Return [])
                (lit "00000000-0000-4000-8000-000000000000")
                both_present (lit "doc-1") eq_refl ltac:(discriminate))
      as (_ & _ & Hraise).
    apply (Hraise (AttributeError MSG_NO_GET_DOCUMENT));
      [discriminate|reflexivity].
Defined.


End SummaryProps.

(** ** The result cache *)

Module CacheProps.
Import Cache Samples.

(** *** The order of keys *)

Lemma str_leb_total s : forall t, str_leb s t = true \/ str_leb t s = true.
Proof.
  induction s as [|c s IH]; intros [|d t]; simpl; auto.
  destruct (N.ltb_spec c d), (N.ltb_spec d c); simpl; auto; [].
  assert (c = d) as -> by lia. rewrite N.eqb_refl. simpl. apply IH.
Qed.

Lemma str_leb_trans s : forall t u,
  str_leb s t = true -> str_leb t u = true -> str_leb s u = true.
Proof.
  induction s as [|c s IH]; intros [|d t] [|e u]; simpl; try congruence.
  destruct (N.ltb_spec c d), (N.ltb_spec d e), (N.ltb_spec c e);
    simpl; try reflexivity; try lia;
    destruct (N.eqb_spec c d), (N.eqb_spec d e), (N.eqb_spec c e);
    simpl; try congruence; try lia.
  apply IH.
Qed.

Lemma str_leb_antisym s : forall t,
  str_leb s t = true -> str_leb t s = true -> s = t.
Proof.
  induction s as [|c s IH]; intros [|d t]; simpl; try congruence.
  destruct (N.ltb_spec c d), (N.ltb_spec d c); simpl; try lia;
    destruct (N.eqb_spec c d), (N.eqb_spec d c); simpl;
    try congruence; try lia.
  intros Hst Hts. f_equal; [assumption|]. now apply IH.
Qed.

Section Keys.
Context {value : Type}.
Implicit Types kwargs : list (str * value).

Global Instance key_le_trans : Transitive (@key_le value).
Proof.
  intros x y z. unfold key_le. rewrite !Is_true_true.
  apply str_leb_trans.
Qed.

Global Instance key_le_total : Total (@key_le value).
Proof.
  intros x y. unfold key_le. rewrite !Is_true_true.
  apply str_leb_total.
Qed.

(** In a call no keyword is given twice: an item is determined by
    its key. *)
Lemma NoDup_keys_unique kwargs x y :
  NoDup kwargs.*1 -> x ∈ kwargs -> y ∈ kwargs -> x.1 = y.1 -> x = y.
Proof.
  induction kwargs as [|z kwargs IH]; intros Hnd Hx Hy Hkey.
  - inversion Hx.
  - rewrite fmap_cons in Hnd. apply NoDup_cons in Hnd as [Hz Hnd].
    apply elem_of_cons in Hx as [-> | Hx];
      apply elem_of_cons in Hy as [-> | Hy]; auto.
    + exfalso. apply Hz. rewrite Hkey. now apply list_elem_of_fmap_2.
    + exfalso. apply Hz. rewrite <- Hkey. now apply list_elem_of_fmap_2.
Qed.

(** Sorting by key forgets the order in which the keywords were
    given. *)
Lemma sort_keys_permutation kwargs1 kwargs2 :
  NoDup kwargs1.*1 -> kwargs1 ≡ₚ kwargs2 ->
  sort_keys kwargs1 = sort_keys kwargs2.
Proof.
  intros Hnd Hperm. unfold sort_keys.
  apply (Sorted_unique_strong key_le).
  - intros x y Hx Hy Hxy Hyx.
    rewrite merge_sort_Permutation in Hx, Hy. rewrite <- Hperm in Hy.
    apply (NoDup_keys_unique kwargs1); try assumption.
    unfold key_le in *. rewrite Is_true_true in Hxy, Hyx.
    now apply str_leb_antisym.
  - apply Sorted_merge_sort, _.
  - apply Sorted_merge_sort, _.
  - now rewrite !merge_sort_Permutation.
Qed.
End Keys.

(** *** The wrapper *)

Section Wrapper.
Context {value : Type} `{Codec value}.
Context {store : Type} `{RedisClient store}.
Implicit Types (w : world store) (func : wrapped (value := value)).

Lemma key_permutation prefix args kwargs1 kwargs2 :
  NoDup kwargs1.*1 -> kwargs1 ≡ₚ kwargs2 ->
  generate_cache_key prefix args kwargs1
  = generate_cache_key prefix args kwargs2.
Proof.
  intros Hnd Hperm. unfold generate_cache_key.
  now rewrite (sort_keys_permutation kwargs1 kwargs2).
Qed.

(** A usable entry under the key of the call: the call returns its
    decoded value and leaves everything as it was; in particular the
    wrapped function is not invoked. *)
Lemma cache_hit prefix ttl func args kwargs w cache_key s v :
  generate_cache_key prefix args kwargs = Return cache_key ->
  get (redis w) cache_key = Return (Some s) ->
  s <> [] ->
  json_loads s = Return v ->
  cache_result true prefix ttl func args kwargs w = (Return v, w).
Proof.
  intros Hkey Hget Hs Hloads. unfold cache_result, get_redis_connection.
  simpl. rewrite Hkey, Hget. unfold try_cached.
  destruct s; [congruence|]. simpl in *. now rewrite Hloads.
Qed.

(** No entry, an empty entry or an entry that does not decode: the
    call takes the path that computes and stores. *)
Lemma cache_miss prefix ttl func args kwargs w cache_key cached_result :
  generate_cache_key prefix args kwargs = Return cache_key ->
  get (redis w) cache_key = Return cached_result ->
  try_cached cached_result = None ->
  cache_result true prefix ttl func args kwargs w
  = compute_and_store ttl func (redis w) cache_key args kwargs w.
Proof.
  intros Hkey Hget Htry. unfold cache_result, get_redis_connection.
  simpl. now rewrite Hkey, Hget, Htry.
Qed.

Lemma try_cached_undecodable s e :
  json_loads s = Raise e -> try_cached (Some s) = None.
Proof.
  intros Hloads. unfold try_cached. destruct s; [reflexivity|].
  simpl in *. now rewrite Hloads.
Qed.

(** An entry that does not decode is treated like no entry. *)
Lemma undecodable_like_miss prefix ttl func args kwargs w cache_key s e :
  generate_cache_key prefix args kwargs = Return cache_key ->
  get (redis w) cache_key = Return (Some s) ->
  json_loads s = Raise e ->
  cache_result true prefix ttl func args kwargs w
  = compute_and_store ttl func (redis w) cache_key args kwargs w.
Proof.
  intros Hkey Hget Hloads.
  eapply cache_miss; eauto using try_cached_undecodable.
Qed.

(** A failure to serialize or to store the result is printed, and the
    result is returned. *)
Lemma store_failure_swallowed ttl func redis_client cache_key args kwargs
    w result e :
  func args kwargs = Return result ->
  (s ← json_dumps result; setex redis_client cache_key ttl s) = Raise e ->
  compute_and_store ttl func redis_client cache_key args kwargs w
  = (Return result,
     {| redis := redis w; invocations := S (invocations w);
        stdout := stdout w ++ [MSG_CACHE_ERROR ++ str_exn e] |}).
Proof.
  intros Hfunc Hstore. unfold compute_and_store, invoke, store_result.
  rewrite Hfunc, Hstore. reflexivity.
Qed.

Lemma store_success ttl func redis_client cache_key args kwargs
    w result s redis' :
  func args kwargs = Return result ->
  json_dumps result = Return s ->
  setex redis_client cache_key ttl s = Return redis' ->
  compute_and_store ttl func redis_client cache_key args kwargs w
  = (Return result,
     {| redis := redis'; invocations := S (invocations w);
        stdout := stdout w |}).
Proof.
  intros Hfunc Hdumps Hsetex.
  unfold compute_and_store, invoke, store_result.
  rewrite Hfunc, Hdumps. simpl. rewrite Hsetex. reflexivity.
Qed.

(** A failure of the lookup itself is not caught. *)
Lemma lookup_failure_propagates prefix ttl func args kwargs w cache_key e :
  generate_cache_key prefix args kwargs = Return cache_key ->
  get (redis w) cache_key = Raise e ->
  cache_result true prefix ttl func args kwargs w = (Raise e, w).
Proof.
  intros Hkey Hget. unfold cache_result, get_redis_connection.
  simpl. now rewrite Hkey, Hget.
Qed.

(** Two calls that derive the same key: the first finds nothing,
    computes and stores; the second reads the stored text back. *)
Lemma miss_then_hit prefix ttl func args kwargs1 kwargs2 w cache_key
    result s redis' v :
  generate_cache_key prefix args kwargs1 = Return cache_key ->
  generate_cache_key prefix args kwargs2 = Return cache_key ->
  get (redis w) cache_key = Return None ->
  func args kwargs1 = Return result ->
  json_dumps result = Return s ->
  setex (redis w) cache_key ttl s = Return redis' ->
  get redis' cache_key = Return (Some s) ->
  s <> [] ->
  json_loads s = Return v ->
  let w1 := {| redis := redis'; invocations := S (invocations w);
               stdout := stdout w |} in
  cache_result true prefix ttl func args kwargs1 w = (Return result, w1)
  /\ cache_result true prefix ttl func args kwargs2 w1 = (Return v, w1).
Proof.
  intros Hkey1 Hkey2 Hmiss Hfunc Hdumps Hsetex Hget Hs Hloads w1. split.
  - rewrite (cache_miss _ _ _ _ _ _ cache_key None) by auto.
    eapply store_success; eassumption.
  - eapply cache_hit; eauto.
Qed.
End Wrapper.

(** C4. Cache determinism: for every prefix and positional arguments,
    and keyword arguments given in two orders (the same items, no
    keyword twice), the two calls derive the same cache key; and when
    the first call found nothing, computed and stored its result, the
    second call is a hit: it returns the decoded stored result and the
    wrapped function is not invoked again. *)
Theorem cache_key_kwargs_order {value : Type} `{Codec value}
    {store : Type} `{RedisClient store}
    prefix (args : list value) kwargs1 kwargs2 :
  NoDup kwargs1.*1 ->
  kwargs1 ≡ₚ kwargs2 ->
  generate_cache_key prefix args kwargs1
  = generate_cache_key prefix args kwargs2
  /\ forall ttl (func : wrapped) (w : world store) cache_key result s redis' v,
       generate_cache_key prefix args kwargs1 = Return cache_key ->
       get (redis w) cache_key = Return None ->
       func args kwargs1 = Return result ->
       json_dumps result = Return s ->
       setex (redis w) cache_key ttl s = Return redis' ->
       get redis' cache_key = Return (Some s) ->
       s <> [] ->
       json_loads s = Return v ->
       let w1 := {| redis := redis'; invocations := S (invocations w);
                    stdout := stdout w |} in
       cache_result true prefix ttl func args kwargs1 w = (Return result, w1)
       /\ cache_result true prefix ttl func args kwargs2 w1 = (Return v, w1).
Proof.
  intros Hnd Hperm.
  pose proof (key_permutation prefix args kwargs1 kwargs2 Hnd Hperm) as Hsame.
  split; [assumption|].
  intros ttl func w cache_key result s redis' v Hkey. intros.
  eapply miss_then_hit; try eassumption. now rewrite <- Hsame.
Qed.

Lemma cache_key_kwargs_order_witness :
  NoDup length_then_topic.*1
  /\ length_then_topic ≡ₚ topic_then_length
  /\ generate_cache_key (lit "summary") [Py.PInt 7] length_then_topic
     = generate_cache_key (lit "summary") [Py.PInt 7] topic_then_length
  /\ cache_result true (lit "summary") 86400 returns_42 [Py.PInt 7]
       length_then_topic (fresh empty_store)
     = (Return (Py.PInt 42), stored_42)
  /\ cache_result true (lit "summary") 86400 returns_42 [Py.PInt 7]
       topic_then_length stored_42
     = (Return (Py.PInt 42), stored_42).
Proof.
  assert (Hnd : NoDup length_then_topic.*1).
  { apply (bool_decide_unpack _). vm_compute. reflexivity. }
  assert (Hperm : length_then_topic ≡ₚ topic_then_length)
    by apply perm_swap.
  split; [exact Hnd|]. split; [exact Hperm|].
  destruct (cache_key_kwargs_order (store := Py.memory) (lit "summary")
              [Py.PInt 7] length_then_topic topic_then_length Hnd Hperm)
    as [Hsame Hcalls].
  split; [exact Hsame|].
  apply (Hcalls 86400 returns_42 (fresh empty_store) sample_key
           (Py.PInt 42) (lit "42") (store_with sample_key (lit "42") 86400)
           (Py.PInt 42));
    try (vm_compute; reflexivity).
  discriminate.
Defined.

(** C8 at a call the code can receive: the cache is enabled and the
    store does not answer. The lookup raises, nothing catches it, and
    the call ends with the connection error although the wrapped
    function, called directly, returns 42; the function is not even
    invoked. *)
Theorem lookup_failure_fails_request :
  cache_result true (lit "summary") 86400 returns_42 [Py.PInt 7] []
    (fresh unreachable_store)
  = (Raise ConnectionError, fresh unreachable_store)
  /\ (invoke returns_42 [Py.PInt 7] [] (fresh unreachable_store)).1
     = Return (Py.PInt 42)
  /\ (cache_result false (lit "summary") 86400 returns_42 [Py.PInt 7] []
        (fresh unreachable_store)).1
     = Return (Py.PInt 42).
Proof. repeat split; vm_compute; reflexivity. Qed.

(** C10. With the cache enabled and reachable, a call that finds
    nothing computes the result and stores its JSON text; the next call
    with the same arguments returns what [json.loads] makes of that
    text and does not invoke the wrapped function. The value returned on
    the hit is the JSON round trip of the computed result, not the
    result itself: a function that returns the tuple [(1, 2)] gives the
    tuple on the first call and on a direct invocation, and the list
    [[1, 2]] on the hit. *)
Theorem cache_hit_json_round_trip :
  (forall (value : Type) (codec : Codec value)
          (store : Type) (client : RedisClient store)
          prefix ttl (func : wrapped) (args : list value) kwargs
          (w : world store) cache_key result s redis' v,
     generate_cache_key prefix args kwargs = Return cache_key ->
     get (redis w) cache_key = Return None ->
     func args kwargs = Return result ->
     json_dumps result = Return s ->
     setex (redis w) cache_key ttl s = Return redis' ->
     get redis' cache_key = Return (Some s) ->
     s <> [] ->
     json_loads s = Return v ->
     let w1 := {| redis := redis'; invocations := S (invocations w);
                  stdout := stdout w |} in
     cache_result true prefix ttl func args kwargs w = (Return result, w1)
     /\ cache_result true prefix ttl func args kwargs w1 = (Return v, w1))
  /\ (let call :=
        cache_result true (lit "summary") 86400 returns_pair [Py.PInt 7] [] in
      let w1 := (call (fresh empty_store)).2 in
      (call (fresh empty_store)).1 = Return (Py.PTuple [Py.PInt 1; Py.PInt 2])
      /\ invocations w1 = 1%nat
      /\ call w1 = (Return (Py.PList [Py.PInt 1; Py.PInt 2]), w1)
      /\ (invoke returns_pair [Py.PInt 7] [] w1).1
         = Return (Py.PTuple [Py.PInt 1; Py.PInt 2])).
Proof.
  split.
  - intros. eapply miss_then_hit; eassumption.
  - repeat split; vm_compute; reflexivity.
Qed.

Lemma cache_hit_json_round_trip_witness :
  cache_result true (lit "summary") 86400 returns_pair [Py.PInt 7]
    length_then_topic (fresh empty_store)
  = (Return (Py.PTuple [Py.PInt 1; Py.PInt 2]), stored_pair)
  /\ cache_result true (lit "summary") 86400 returns_pair [Py.PInt 7]
       length_then_topic stored_pair
     = (Return (Py.PList [Py.PInt 1; Py.PInt 2]), stored_pair).
Proof.
  apply (proj1 cache_hit_json_round_trip Py.value Py.codec Py.memory Py.client
           (lit "summary") 86400 returns_pair [Py.PInt 7] length_then_topic
           (fresh empty_store) sample_key
           (Py.PTuple [Py.PInt 1; Py.PInt 2]) (lit "[1, 2]")
           (store_with sample_key (lit "[1, 2]") 86400)
           (Py.PList [Py.PInt 1; Py.PInt 2]));
    try (vm_compute; reflexivity).
  discriminate.
Defined.

(** *** The shape of a key *)

Lemma le_bytes_octets n : forall x,
  length (MD5.le_bytes n x) = n
  /\ Forall (fun b => 0 <= b < 256) (MD5.le_bytes n x).
Proof.
  induction n as [|n IH]; intros x; simpl; [split; [reflexivity|constructor]|].
  destruct (IH (x / 256)) as [Hlen Hall].
  split; [now rewrite Hlen|]. constructor; [|assumption].
  apply Z.mod_pos_bound. lia.
Qed.

Lemma digest_octets msg :
  length (MD5.digest msg) = 16%nat
  /\ Forall (fun b => 0 <= b < 256) (MD5.digest msg).
Proof.
  unfold MD5.digest.
  destruct (foldl MD5.block _ _) as [[[a b] c] d].
  split.
  - rewrite !length_app. now rewrite !(proj1 (le_bytes_octets 4 _)).
  - rewrite !Forall_app. repeat split; apply le_bytes_octets.
Qed.

Lemma hex_digit_is_hex x : 0 <= x < 16 -> MD5.is_hex (MD5.hex_digit x) = true.
Proof.
  intros Hx.
  assert (x = 0 \/ x = 1 \/ x = 2 \/ x = 3 \/ x = 4 \/ x = 5 \/ x = 6 \/ x = 7
          \/ x = 8 \/ x = 9 \/ x = 10 \/ x = 11 \/ x = 12 \/ x = 13
          \/ x = 14 \/ x = 15) as Hcases by lia.
  repeat (destruct Hcases as [-> | Hcases]; [reflexivity|]).
  subst x. reflexivity.
Qed.

Lemma hexdigest_shape msg :
  length (MD5.hexdigest msg) = 32%nat
  /\ Forall (fun c => MD5.is_hex c = true) (MD5.hexdigest msg).
Proof.
  unfold MD5.hexdigest. destruct (digest_octets msg) as [Hlen Hall].
  assert (Hshape : forall l,
            Forall (fun b => 0 <= b < 256) l ->
            length (flat_map (fun b => [MD5.hex_digit (b / 16);
                                         MD5.hex_digit (b mod 16)]) l)
            = (2 * length l)%nat
            /\ Forall (fun c => MD5.is_hex c = true)
                 (flat_map (fun b => [MD5.hex_digit (b / 16);
                                      MD5.hex_digit (b mod 16)]) l)).
  { induction 1 as [|b l Hb _ [IHlen IHall]]; simpl;
      [split; [reflexivity|constructor]|].
    split; [lia|].
    constructor; [apply hex_digit_is_hex|constructor;
                                          [apply hex_digit_is_hex|assumption]].
    - split; [apply Z.div_pos; lia|apply Z.div_lt_upper_bound; lia].
    - apply Z.mod_pos_bound. lia. }
  destruct (Hshape _ Hall) as [Hlen' Hall'].
  split; [rewrite Hlen', Hlen; reflexivity|assumption].
Qed.

(** X12. The shape of a key: whenever a key is derived, whatever the
    prefix and the arguments, it is a string of exactly 32 lower-case
    hexadecimal digits. *)
Theorem cache_key_shape {value : Type} `{Codec value} prefix
    (args : list value) kwargs cache_key :
  generate_cache_key prefix args kwargs = Return cache_key ->
  len cache_key = 32 /\ Forall (fun c => MD5.is_hex c = true) cache_key.
Proof.
  unfold generate_cache_key. intros Hkey.
  destruct (json_dumps_items (sort_keys kwargs)) as [kwargs_str| |];
    simpl in Hkey; try discriminate.
  destruct (utf8_encode _) as [encoded|]; [|discriminate].
  injection Hkey as <-.
  destruct (hexdigest_shape encoded) as [Hlen Hall].
  split; [unfold len; now rewrite Hlen|assumption].
Qed.

Lemma cache_key_shape_witness :
  len sample_key = 32 /\ Forall (fun c => MD5.is_hex c = true) sample_key.
Proof.
  apply (cache_key_shape (lit "summary") [Py.PInt 7] length_then_topic).
  vm_compute. reflexivity.
Defined.

(** *** Further properties of the wrapper *)

Section Outcomes.
Context {value : Type} `{Codec value}.
Context {store : Type} `{RedisClient store} `{RedisKeys store}.
Implicit Types (w : world store) (func : wrapped (value := value)).

(** The path that computes invokes the function exactly once. *)
Lemma compute_and_store_invokes ttl func redis_client cache_key args kwargs w :
  invocations (compute_and_store ttl func redis_client cache_key args kwargs w).2
  = S (invocations w).
Proof.
  unfold compute_and_store, invoke, store_result.
  destruct (func args kwargs); try reflexivity.
  destruct (json_dumps a); simpl; try reflexivity.
  destruct (setex redis_client cache_key ttl a0); reflexivity.
Qed.

(** X8. An entry that cannot be decoded is treated like a missing
    one and replaced: when the stored text does not decode, the call
    invokes the function, returns its result, and stores the JSON text
    of the result under the same key; no error reaches the caller. *)
Theorem undecodable_entry_recomputed prefix ttl func args kwargs w cache_key
    s e result s' redis' :
  generate_cache_key prefix args kwargs = Return cache_key ->
  get (redis w) cache_key = Return (Some s) ->
  json_loads s = Raise e ->
  func args kwargs = Return result ->
  json_dumps result = Return s' ->
  setex (redis w) cache_key ttl s' = Return redis' ->
  cache_result true prefix ttl func args kwargs w
  = (Return result,
     {| redis := redis'; invocations := S (invocations w);
        stdout := stdout w |}).
Proof.
  intros Hkey Hget Hloads Hfunc Hdumps Hsetex.
  rewrite (undecodable_like_miss _ _ _ _ _ _ cache_key s e) by assumption.
  eapply store_success; eassumption.
Qed.

(** X9. A failure to store is swallowed: when the lookup finds
    nothing and serializing or storing the result raises, the call
    still returns the result of the function; the store is left as it
    was and one line naming the error is printed. *)
Theorem store_failure_returns_result prefix ttl func args kwargs w cache_key
    result e :
  generate_cache_key prefix args kwargs = Return cache_key ->
  get (redis w) cache_key = Return None ->
  func args kwargs = Return result ->
  (s ← json_dumps result; setex (redis w) cache_key ttl s) = Raise e ->
  cache_result true prefix ttl func args kwargs w
  = (Return result,
     {| redis := redis w; invocations := S (invocations w);
        stdout := stdout w ++ [MSG_CACHE_ERROR ++ str_exn e] |}).
Proof.
  intros Hkey Hget Hfunc Hstore.
  rewrite (cache_miss _ _ _ _ _ _ cache_key None) by auto.
  now apply store_failure_swallowed.
Qed.

(** X10. A failed computation is not cached: when the lookup gives
    nothing usable and the function raises, the call raises the same
    exception, nothing is written to the store and nothing is
    printed. *)
Theorem failed_computation_not_cached prefix ttl func args kwargs w cache_key
    cached_result e :
  generate_cache_key prefix args kwargs = Return cache_key ->
  get (redis w) cache_key = Return cached_result ->
  try_cached cached_result = None ->
  func args kwargs = Raise e ->
  cache_result true prefix ttl func args kwargs w
  = (Raise e,
     {| redis := redis w; invocations := S (invocations w);
        stdout := stdout w |}).
Proof.
  intros Hkey Hget Htry Hfunc.
  rewrite (cache_miss _ _ _ _ _ _ cache_key cached_result) by assumption.
  unfold compute_and_store, invoke. now rewrite Hfunc.
Qed.

(** X11. Invalidation: [invalidate_cache] called with the prefix and
    the arguments of a cached call, the keyword arguments in any order,
    deletes the entry of that call; on a store that no longer answers
    the key afterwards, the next wrapped call invokes the function
    again. *)
Theorem invalidate_then_recompute prefix ttl func args kwargs1 kwargs2 w
    cache_key redis' :
  NoDup kwargs1.*1 ->
  kwargs1 ≡ₚ kwargs2 ->
  generate_cache_key prefix args kwargs1 = Return cache_key ->
  delete (redis w) [cache_key] = Return redis' ->
  get redis' cache_key = Return None ->
  let w' := {| redis := redis'; invocations := invocations w;
               stdout := stdout w |} in
  invalidate_cache true prefix args kwargs2 w = Return w'
  /\ cache_result true prefix ttl func args kwargs1 w'
     = compute_and_store ttl func redis' cache_key args kwargs1 w'
  /\ invocations (cache_result true prefix ttl func args kwargs1 w').2
     = S (invocations w).
Proof.
  intros Hnd Hperm Hkey Hdelete Hget w'.
  assert (Hcall : cache_result true prefix ttl func args kwargs1 w'
                  = compute_and_store ttl func redis' cache_key args kwargs1 w').
  { apply (cache_miss prefix ttl func args kwargs1 w' cache_key None);
      auto. }
  split; [|split; [exact Hcall|]].
  - unfold invalidate_cache, get_redis_connection. simpl.
    rewrite <- (key_permutation prefix args kwargs1 kwargs2) by assumption.
    rewrite Hkey. simpl. now rewrite Hdelete.
  - rewrite Hcall, compute_and_store_invokes. reflexivity.
Qed.
End Outcomes.

Lemma undecodable_entry_recomputed_witness :
  cache_result true (lit "summary") 86400 returns_42 [Py.PInt 7]
    length_then_topic (fresh corrupt_store)
  = (Return (Py.PInt 42), stored_42).
Proof.
  apply (undecodable_entry_recomputed (lit "summary") 86400 returns_42
           [Py.PInt 7] length_then_topic (fresh corrupt_store) sample_key
           (lit "{not json") JSONDecodeError (Py.PInt 42) (lit "42")
           (store_with sample_key (lit "42") 86400));
    vm_compute; reflexivity.
Defined.

Lemma store_failure_returns_result_witness :
  cache_result true (lit "summary") 86400 returns_42 [Py.PInt 7]
    length_then_topic (fresh read_only_store)
  = (Return (Py.PInt 42),
     invoked_once read_only_store
       [MSG_CACHE_ERROR ++ str_exn ResponseError]).
Proof.
  apply (store_failure_returns_result (lit "summary") 86400 returns_42
           [Py.PInt 7] length_then_topic (fresh read_only_store) sample_key
           (Py.PInt 42) ResponseError);
    vm_compute; reflexivity.
Defined.

Lemma failed_computation_not_cached_witness :
  cache_result true (lit "summary") 86400 fails [Py.PInt 7]
    length_then_topic (fresh empty_store)
  = (Raise (RuntimeError (lit "sin respuesta")), invoked_once empty_store []).
Proof.
  apply (failed_computation_not_cached (lit "summary") 86400 fails
           [Py.PInt 7] length_then_topic (fresh empty_store) sample_key None
           (RuntimeError (lit "sin respuesta")));
    vm_compute; reflexivity.
Defined.

Lemma invalidate_then_recompute_witness :
  NoDup length_then_topic.*1
  /\ length_then_topic ≡ₚ topic_then_length
  /\ invalidate_cache true (lit "summary") [Py.PInt 7] topic_then_length
       stored_42
     = Return (invoked_once empty_store [])
  /\ invocations
       (cache_result true (lit "summary") 86400 returns_42 [Py.PInt 7]
          length_then_topic (invoked_once empty_store [])).2
     = 2%nat.
Proof.
  assert (Hnd : NoDup length_then_topic.*1).
  { apply (bool_decide_unpack _). vm_compute. reflexivity. }
  assert (Hperm : length_then_topic ≡ₚ topic_then_length)
    by apply perm_swap.
  split; [exact Hnd|]. split; [exact Hperm|].
  destruct (invalidate_then_recompute (lit "summary") 86400 returns_42
              [Py.PInt 7] length_then_topic topic_then_length stored_42
              sample_key empty_store Hnd Hperm)
    as (Hinvalidate & _ & Hcount); try (vm_compute; reflexivity).
  split; [exact Hinvalidate|exact Hcount].
Defined.

End CacheProps.


